(** * fullrmc constraints: coordination numbers and improper angles

    A shallow embedding of
    [Constraints/AtomicCoordinationConstraints.py] and
    [Constraints/ImproperAngleConstraints.py].

    Conventions.
    - Python objects with mutable attributes become records; a method
      becomes a function from the record to a [result], which carries
      the attributes as they are left behind also when an exception
      propagates.
    - numpy arrays are lists; FLOAT_TYPE values are rationals ([Q]), so
      arithmetic is exact; [=] on them is identity of representation.
    - Atom indexes given by a caller are integers ([Z]); once the
      assertions [0 <= i < numberOfAtoms] have passed they are kept as
      [nat]. *)

From Stdlib Require Import ZArith QArith Lia Lqa List String.
From stdpp Require Import base option list sorting gmap strings.

(** ** Python and numpy conventions *)
Module Py.

Inductive exn : Type :=
| AssertionError
| NameError
| IndexError
| KeyError
| AttributeError
| TypeError
| ValueError
| KernelError.

(** Outcome of a method call on an object of state [S]. *)
Inductive result (S : Type) : Type :=
| Ok (s : S)
| Raise (e : exn) (s : S).
Arguments Ok {S} s.
Arguments Raise {S} e s.

Definition bind {S T} (r : result S) (lift : S -> T) (k : S -> result T)
  : result T :=
  match r with
  | Ok s => k s
  | Raise e s => Raise e (lift s)
  end.

Definition state_of {S} (r : result S) : S :=
  match r with Ok s => s | Raise _ s => s end.

Definition is_ok {S} (r : result S) : bool :=
  match r with Ok _ => true | Raise _ _ => false end.

(** [assert cond] *)
Definition check {S} (b : bool) (s : S) (k : result S) : result S :=
  if b then k else Raise AssertionError s.

Definition Qltb (x y : Q) : bool := negb (Qle_bool y x).

(** [x in l] and [l.index(x)] on Python lists. *)
Definition py_in (x : nat) (l : list nat) : bool := bool_decide (x ∈ l).

Fixpoint py_index (x : nat) (l : list nat) : option nat :=
  match l with
  | [] => None
  | y :: l' => if decide (x = y) then Some 0 else S <$> py_index x l'
  end.

(** [list(set(l))]: the elements of [l] once each.  CPython's order of
    iteration over a set is not specified; no statement below depends
    on it. *)
Definition py_set (l : list nat) : list nat := remove_dups l.

(** [list(set(l) - k)] for a set [k] *)
Definition py_set_diff (l : list nat) (k : gset nat) : list nat :=
  filter (fun i => i ∉ k) (remove_dups l).

(** [a[idx]] with an index list: a copy, IndexError when out of range. *)
Definition np_take {A} (a : list A) (idx : list nat) : option (list A) :=
  mapM (fun i => a !! i) idx.

(** Right-hand sides of a fancy-index assignment broadcast from one
    row. *)
Definition np_broadcast {A} (n : nat) (vals : list A) : option (list A) :=
  if decide (length vals = n) then Some vals
  else match vals with
       | [v] => Some (replicate n v)
       | _ => None
       end.

Fixpoint np_put {A} (a : list A) (idx : list nat) (vals : list A) : list A :=
  match idx, vals with
  | i :: idx', v :: vals' => np_put (<[i:=v]> a) idx' vals'
  | _, _ => a
  end.

Definition in_range {A} (a : list A) (idx : list nat) : bool :=
  forallb (fun i => i <? length a) idx.

(** [a[idx] = vals]: nothing is written when an index is out of range
    or the shapes do not broadcast. *)
Definition np_assign {A} (a : list A) (idx : list nat) (vals : list A)
  : option (list A) :=
  if in_range a idx then
    vs ← np_broadcast (length idx) vals; Some (np_put a idx vs)
  else None.

(** Element-wise binary operation on arrays of one shape (numpy would
    also stretch an array of one element; the arrays met here have one
    element for every definition or row). *)
Definition np_zip (f : Q -> Q -> Q) (a b : list Q) : option (list Q) :=
  if decide (length a = length b) then Some (zip_with f a b) else None.

(** [np.sum(a)] *)
Definition np_sum (a : list Q) : Q := fold_left Qplus a 0%Q.

End Py.
Import Py.

(** A row of [engine.boxCoordinates]. *)
Definition vec3 : Type := Q * Q * Q.

(** ** ImproperAngleConstraint *)
Module Improper.

(** Value of [self.__angles[atom]]: for the angles where the atom is the
    improper atom the plane atoms and the row of each in
    [self.__anglesList] ([improperMap]); and the rows where the atom is
    one of the plane atoms ([otherMap]). *)
Record entry : Type := Entry {
  oIdx : list nat;
  xIdx : list nat;
  yIdx : list nat;
  improperMap : list nat;
  otherMap : list nat
}.

Definition empty_entry : entry := Entry [] [] [] [] [].

(** [self.__anglesList]: six parallel arrays. *)
Record table : Type := Table {
  improperIdxs : list nat;
  oIdxs : list nat;
  xIdxs : list nat;
  yIdxs : list nat;
  lowerLimit : list Q;
  upperLimit : list Q
}.

Definition empty_table : table := Table [] [] [] [] [] [].

(** One item of the tuples format:
    [(improperIdx, oIdx, xIdx, yIdx, lower, upper)], angles in degrees. *)
Definition raw_angle : Type := Z * Z * Z * Z * Q * Q.

Inductive angles_arg : Type :=
| ArgNone
| ArgTuples (l : list raw_angle)
| ArgVectors (v0 v1 v2 v3 : list Z) (v4 v5 : list Q).

(** [self.data] *)
Record adata : Type := AData {
  d_angles : list Q;
  d_reducedAngles : list Q
}.

(** [self.activeAtomsDataBeforeMove] and [self.activeAtomsDataAfterMove] *)
Record before_data : Type := Before {
  b_anglesIndexes : list nat;
  b_angles : option (list Q);
  b_reducedAngles : option (list Q)
}.

Record after_data : Type := After {
  a_angles : option (list Q);
  a_reducedAngles : option (list Q)
}.

(** The constraint object.  [numberOfAtoms] is
    [engine.get_original_data("numberOfAtoms")], [None] while no engine
    is attached.  With no engine the source keeps the argument of
    [set_angles] in [__anglesList] as it was given; the embedding keeps
    it in [deferred], so that [anglesList] has the type of a compiled
    table.  [collected] and [randomData] are the attributes of
    [self._atomsCollector] the constraint reads; [warnings] counts the
    calls of [LOGGER.warn]. *)
Record t : Type := Make {
  numberOfAtoms : option nat;
  anglesList : table;
  angles : gmap nat entry;
  dumpAngles : bool;
  deferred : option angles_arg;
  data : option adata;
  standardError : option Q;
  afterMoveStandardError : option Q;
  activeAtomsDataBeforeMove : option before_data;
  activeAtomsDataAfterMove : option after_data;
  originalData : option adata;
  collected : list nat;
  randomData : gset nat;
  warnings : nat
}.

Definition init (engine : option nat) : t :=
  Make engine empty_table ∅ true None None None None None None None [] ∅ 0.

Definition set_defs (s : t) (l : table) (m : gmap nat entry) : t :=
  Make (numberOfAtoms s) l m (dumpAngles s) (deferred s) (data s)
       (standardError s) (afterMoveStandardError s)
       (activeAtomsDataBeforeMove s) (activeAtomsDataAfterMove s)
       (originalData s) (collected s) (randomData s) (warnings s).

Definition set_dumpAngles (s : t) (b : bool) : t :=
  Make (numberOfAtoms s) (anglesList s) (angles s) b (deferred s) (data s)
       (standardError s) (afterMoveStandardError s)
       (activeAtomsDataBeforeMove s) (activeAtomsDataAfterMove s)
       (originalData s) (collected s) (randomData s) (warnings s).

Definition set_deferred (s : t) (a : option angles_arg) : t :=
  Make (numberOfAtoms s) (anglesList s) (angles s) (dumpAngles s) a (data s)
       (standardError s) (afterMoveStandardError s)
       (activeAtomsDataBeforeMove s) (activeAtomsDataAfterMove s)
       (originalData s) (collected s) (randomData s) (warnings s).

Definition set_data (s : t) (d : option adata) : t :=
  Make (numberOfAtoms s) (anglesList s) (angles s) (dumpAngles s)
       (deferred s) d
       (standardError s) (afterMoveStandardError s)
       (activeAtomsDataBeforeMove s) (activeAtomsDataAfterMove s)
       (originalData s) (collected s) (randomData s) (warnings s).

Definition set_standard_error (s : t) (e : option Q) : t :=
  Make (numberOfAtoms s) (anglesList s) (angles s) (dumpAngles s)
       (deferred s) (data s)
       e (afterMoveStandardError s)
       (activeAtomsDataBeforeMove s) (activeAtomsDataAfterMove s)
       (originalData s) (collected s) (randomData s) (warnings s).

Definition set_after_move_standard_error (s : t) (e : option Q) : t :=
  Make (numberOfAtoms s) (anglesList s) (angles s) (dumpAngles s)
       (deferred s) (data s)
       (standardError s) e
       (activeAtomsDataBeforeMove s) (activeAtomsDataAfterMove s)
       (originalData s) (collected s) (randomData s) (warnings s).

Definition set_active_atoms_data_before_move (s : t) (b : option before_data)
  : t :=
  Make (numberOfAtoms s) (anglesList s) (angles s) (dumpAngles s)
       (deferred s) (data s)
       (standardError s) (afterMoveStandardError s)
       b (activeAtomsDataAfterMove s)
       (originalData s) (collected s) (randomData s) (warnings s).

Definition set_active_atoms_data_after_move (s : t) (a : option after_data)
  : t :=
  Make (numberOfAtoms s) (anglesList s) (angles s) (dumpAngles s)
       (deferred s) (data s)
       (standardError s) (afterMoveStandardError s)
       (activeAtomsDataBeforeMove s) a
       (originalData s) (collected s) (randomData s) (warnings s).

Definition set_original_data (s : t) (d : option adata) : t :=
  Make (numberOfAtoms s) (anglesList s) (angles s) (dumpAngles s)
       (deferred s) (data s)
       (standardError s) (afterMoveStandardError s)
       (activeAtomsDataBeforeMove s) (activeAtomsDataAfterMove s)
       d (collected s) (randomData s) (warnings s).

Definition set_collector (s : t) (c : list nat) (r : gset nat) : t :=
  Make (numberOfAtoms s) (anglesList s) (angles s) (dumpAngles s)
       (deferred s) (data s)
       (standardError s) (afterMoveStandardError s)
       (activeAtomsDataBeforeMove s) (activeAtomsDataAfterMove s)
       (originalData s) c r (warnings s).

Definition warn (s : t) : t :=
  Make (numberOfAtoms s) (anglesList s) (angles s) (dumpAngles s)
       (deferred s) (data s)
       (standardError s) (afterMoveStandardError s)
       (activeAtomsDataBeforeMove s) (activeAtomsDataAfterMove s)
       (originalData s) (collected s) (randomData s) (S (warnings s)).

(** Modelled from the spec: [Constraint.reset_constraint] of
    fullrmc.Core.Constraint is not under src.  The spec calls it a full
    reset: the committed data, both standard errors and both snapshots
    are dropped until the next [compute_data]. *)
Definition reset_constraint (s : t) : t :=
  Make (numberOfAtoms s) (anglesList s) (angles s) (dumpAngles s)
       (deferred s) None None None None None None
       (collected s) (randomData s) (warnings s).

Definition get_entry (m : gmap nat entry) (i : nat) : entry :=
  default empty_entry (m !! i).

(** The four-way test of [add_angle] for an angle that is defined
    already: [(oPos, xPos, yPos)] of the first branch whose three
    membership tests hold. *)
Definition redefining (e : entry) (o x y : nat)
  : option nat * option nat * option nat :=
  if py_in o (oIdx e) && py_in x (xIdx e) && py_in y (yIdx e) then
    (py_index o (oIdx e), py_index x (xIdx e), py_index y (yIdx e))
  else if py_in o (oIdx e) && py_in y (xIdx e) && py_in x (yIdx e) then
    (py_index o (oIdx e), py_index x (yIdx e), py_index y (xIdx e))
  else if py_in x (oIdx e) && py_in o (xIdx e) && py_in y (yIdx e) then
    (py_index o (xIdx e), py_index x (oIdx e), py_index y (yIdx e))
  else if py_in y (oIdx e) && py_in x (xIdx e) && py_in o (yIdx e) then
    (py_index o (yIdx e), py_index x (xIdx e), py_index y (oIdx e))
  else (None, None, None).

(** [oPos is not None and (oPos==xPos) and (oPos==yPos)] *)
Definition same_pos (p : option nat * option nat * option nat) : option nat :=
  match p with
  | (Some o, Some x, Some y) =>
      if decide (o = x) then if decide (o = y) then Some o else None else None
  | _ => None
  end.

Definition sorted3 (a b c : nat) : list nat := merge_sort Nat.le [a; b; c].

Definition append_entry_improper (e : entry) (o x y row : nat) : entry :=
  Entry (oIdx e ++ [o]) (xIdx e ++ [x]) (yIdx e ++ [y])
        (improperMap e ++ [row]) (otherMap e).

Definition append_entry_other (e : entry) (row : nat) : entry :=
  Entry (oIdx e) (xIdx e) (yIdx e) (improperMap e) (otherMap e ++ [row]).

Definition append_row (l : table) (i o x y : nat) (lo up : Q) : table :=
  Table (improperIdxs l ++ [i]) (oIdxs l ++ [o]) (xIdxs l ++ [x])
        (yIdxs l ++ [y]) (lowerLimit l ++ [lo]) (upperLimit l ++ [up]).

Definition overwrite_row (l : table) (row o x y : nat) (lo up : Q) : table :=
  Table (improperIdxs l) (<[row:=o]> (oIdxs l)) (<[row:=x]> (xIdxs l))
        (<[row:=y]> (yIdxs l)) (<[row:=lo]> (lowerLimit l))
        (<[row:=up]> (upperLimit l)).

Definition publish (m : gmap nat entry) (i o x y : nat) (ei eo ex ey : entry)
  : gmap nat entry :=
  <[y:=ey]> (<[x:=ex]> (<[o:=eo]> (<[i:=ei]> m))).

Definition after_dump (s : t) : t :=
  if dumpAngles s then reset_constraint s else s.

Section WithGlobals.

(** [fullrmc.Globals.PI] *)
Variable PI : Q.

Definition to_rad (deg : Q) : Q := (deg * (PI / 180))%Q.

(** The second half of [add_angle], from "check for re-defining" on:
    the angle is appended as a new row, or written over the row found
    for it. *)
Definition store_angle (s : t) (i o x y : nat) (lo up : Q) : result t :=
  let anglesImproper := get_entry (angles s) i in
  let anglesO := get_entry (angles s) o in
  let anglesX := get_entry (angles s) x in
  let anglesY := get_entry (angles s) y in
  let l := anglesList s in
  match same_pos (redefining anglesImproper o x y) with
  | None =>
      let row := length (improperIdxs l) in
      Ok (after_dump (set_defs s
            (append_row l i o x y lo up)
            (publish (angles s) i o x y
               (append_entry_improper anglesImproper o x y row)
               (append_entry_other anglesO row)
               (append_entry_other anglesX row)
               (append_entry_other anglesY row))))
  | Some oPos =>
      let s := warn s in
      match improperMap anglesImproper !! oPos with
      | None => Raise IndexError s
      | Some setPos =>
          match improperIdxs l !! setPos with
          | None => Raise IndexError s
          | Some i' =>
              check (bool_decide (i' = i)) s
              match oIdxs l !! setPos, xIdxs l !! setPos,
                    yIdxs l !! setPos with
              | Some o', Some x', Some y' =>
                  check (bool_decide (sorted3 o x y = sorted3 o' x' y')) s
                  (Ok (after_dump (set_defs s
                         (overwrite_row l setPos o x y lo up)
                         (publish (angles s) i o x y
                            anglesImproper anglesO anglesX anglesY))))
              | _, _, _ => Raise IndexError s
              end
          end
      end
  end.

Definition add_angle (s : t) (angle : raw_angle) : result t :=
  let '(zi, zo, zx, zy, lower, upper) := angle in
  match numberOfAtoms s with
  | None => Raise AssertionError s
  | Some N =>
    check (0 <=? zi)%Z s (check (zi <? Z.of_nat N)%Z s
    (check (0 <=? zo)%Z s (check (zo <? Z.of_nat N)%Z s
    (check (0 <=? zx)%Z s (check (zx <? Z.of_nat N)%Z s
    (check (0 <=? zy)%Z s (check (zy <? Z.of_nat N)%Z s
    (check (negb (zi =? zo)%Z) s (check (negb (zi =? zx)%Z) s
    (check (negb (zi =? zy)%Z) s (check (negb (zo =? zx)%Z) s
    (check (negb (zo =? zy)%Z) s (check (negb (zx =? zy)%Z) s
    (check (Qle_bool (-90) lower) s (check (Qltb lower upper) s
    (check (Qle_bool upper 90) s
    (store_angle s (Z.to_nat zi) (Z.to_nat zo) (Z.to_nat zx) (Z.to_nat zy)
                 (to_rad lower) (to_rad upper))))))))))))))))))
  end.

(** The items [set_angles] hands to [add_angle], in order; [None]
    where building the item from the six vectors raises IndexError. *)
Definition vector_row (v0 v1 v2 v3 : list Z) (v4 v5 : list Q) (k : nat)
  : option raw_angle :=
  a ← v0 !! k; b ← v1 !! k; c ← v2 !! k; d ← v3 !! k;
  e ← v4 !! k; f ← v5 !! k; Some (a, b, c, d, e, f).

Definition rows_of (arg : angles_arg) : list (option raw_angle) :=
  match arg with
  | ArgNone => []
  | ArgTuples l => Some <$> l
  | ArgVectors v0 v1 v2 v3 v4 v5 =>
      vector_row v0 v1 v2 v3 v4 v5 <$> seq 0 (length v0)
  end.

Fixpoint add_angles (s : t) (rows : list (option raw_angle)) : result t :=
  match rows with
  | [] => Ok s
  | None :: _ => Raise IndexError s
  | Some a :: rest =>
      match add_angle s a with
      | Ok s' => add_angles s' rest
      | Raise e s' => Raise e s'
      end
  end.

(** [for idx in xrange(NUMBER_OF_ATOMS):
       self.__angles[idx] = self.__angles.get(idx, {...empty...})] *)
Definition finalize (N : nat) (m : gmap nat entry) : gmap nat entry :=
  foldl (fun m idx => <[idx:=get_entry m idx]> m) m (seq 0 N).

Definition set_angles (s : t) (arg : angles_arg) : result t :=
  match numberOfAtoms s with
  | None =>
      Ok (reset_constraint (set_deferred (set_defs s empty_table ∅) (Some arg)))
  | Some N =>
      let oldAnglesList := anglesList s in
      let oldAngles := angles s in
      let s1 := set_dumpAngles (set_defs s empty_table ∅) false in
      match add_angles s1 (rows_of arg) with
      | Raise e s2 =>
          Raise e (set_defs (set_dumpAngles s2 true) oldAnglesList oldAngles)
      | Ok s2 =>
          let s3 := set_dumpAngles s2 true in
          Ok (reset_constraint
                (set_defs s3 (anglesList s3) (finalize N (angles s3))))
      end
  end.

End WithGlobals.

(** Number of angle definitions stored. *)
Definition n_angles (s : t) : nat := length (improperIdxs (anglesList s)).

(** [compute_standard_error]: [np.sum(data["reducedAngles"]**2)] *)
Definition compute_standard_error (d : adata) : Q :=
  np_sum ((fun r => r * r)%Q <$> d_reducedAngles d).

(** Modelled from the spec: [AtomsCollector.get_relative_indexes] of
    fullrmc.Core.Collection is not under src.  The spec has it map a
    real atom index to its position in the current layout, from which
    the collected atoms are left out: the index minus the number of
    collected indexes below it. *)
Definition get_relative_indexes (coll : list nat) (real : list nat)
  : list nat :=
  (fun i => i - length (filter (fun c => c < i) coll)) <$> real.

(** [self.__angles[idx]['improperMap']] and [['otherMap']] of every
    atom of [idxs], in order; [None] for a KeyError. *)
Definition mapped_rows (m : gmap nat entry) (idxs : list nat)
  : option (list nat) :=
  @concat nat <$>
    mapM (fun idx => (fun e => improperMap e ++ otherMap e) <$> m !! idx) idxs.

Section WithKernel.

(** [fullrmc.Core.improper_angles.full_improper_angles_coords], which
    is not under src, at the engine's basis vectors and periodicity:
    from the four index arrays, the two limit arrays and the box
    coordinates to [(angles, reduced)], or [None] when it raises. *)
Variable kernel :
  list nat -> list nat -> list nat -> list nat -> list Q -> list Q ->
  list vec3 -> option (list Q * list Q).

(** The kernel on the rows [rows] of [self.__anglesList]. *)
Definition kernel_on (s : t) (rows : list nat) (box : list vec3)
  : exn + (list Q * list Q) :=
  let l := anglesList s in
  match np_take (improperIdxs l) rows, np_take (oIdxs l) rows,
        np_take (xIdxs l) rows, np_take (yIdxs l) rows,
        np_take (lowerLimit l) rows, np_take (upperLimit l) rows with
  | Some i, Some o, Some x, Some y, Some lo, Some up =>
      match kernel (get_relative_indexes (collected s) i)
                   (get_relative_indexes (collected s) o)
                   (get_relative_indexes (collected s) x)
                   (get_relative_indexes (collected s) y) lo up box with
      | Some r => inr r
      | None => inl KernelError
      end
  | _, _, _, _, _, _ => inl IndexError
  end.

Definition finish_compute_data (s : t) (angles reduced : list Q) : t :=
  let s := set_data s (Some (AData angles reduced)) in
  let s := set_active_atoms_data_before_move s None in
  let s := set_active_atoms_data_after_move s None in
  let s := set_standard_error s
             (compute_standard_error <$> data s) in
  match originalData s with
  | None => set_original_data s (data s)
  | Some _ => s
  end.

(** [compute_data], without its decorator
    [reset_if_collected_out_of_date] of fullrmc.Core.Collection. *)
Definition compute_data (s : t) (box : list vec3) : result t :=
  let l := anglesList s in
  let n := length (improperIdxs l) in
  if decide (length (collected s) = 0) then
    match kernel (get_relative_indexes (collected s) (improperIdxs l))
                 (get_relative_indexes (collected s) (oIdxs l))
                 (get_relative_indexes (collected s) (xIdxs l))
                 (get_relative_indexes (collected s) (yIdxs l))
                 (lowerLimit l) (upperLimit l) box with
    | None => Raise KernelError s
    | Some (angles, reduced) => Ok (finish_compute_data s angles reduced)
    end
  else
    let anglesIndexes := py_set_diff (seq 0 n) (randomData s) in
    match kernel_on s anglesIndexes box with
    | inl e => Raise e s
    | inr (angles, reduced) =>
        match np_assign (replicate n 0%Q) anglesIndexes angles,
              np_assign (replicate n 0%Q) anglesIndexes reduced with
        | Some anglesData, Some reducedData =>
            Ok (finish_compute_data s anglesData reducedData)
        | _, _ => Raise ValueError s
        end
    end.

Definition compute_before_move (s : t) (realIndexes : list nat)
                               (box : list vec3) : result t :=
  match mapped_rows (angles s) realIndexes with
  | None => Raise KeyError s
  | Some rows =>
      let anglesIndexes := py_set_diff rows (randomData s) in
      let finish angles reduced :=
        set_active_atoms_data_after_move
          (set_active_atoms_data_before_move s
             (Some (Before anglesIndexes angles reduced))) None in
      if decide (length anglesIndexes = 0) then Ok (finish None None)
      else
        match kernel_on s anglesIndexes box with
        | inl e => Raise e s
        | inr (angles, reduced) => Ok (finish (Some angles) (Some reduced))
        end
  end.

(** The last part of [compute_after_move]: the standard error of the
    committed data with the rows of the move patched, the patch being
    written into the committed array and then taken out again. *)
Definition tentative_standard_error (s : t) (b : before_data)
                                    (reduced : list Q) : result t :=
  match data s, b_reducedAngles b with
  | None, _ => Raise TypeError s
  | Some _, None => Raise TypeError s
  | Some d, Some before =>
      let anglesIndexes := b_anglesIndexes b in
      match np_take (d_reducedAngles d) anglesIndexes with
      | None => Raise IndexError s
      | Some RL =>
          match np_zip Qminus reduced before with
          | None => Raise ValueError s
          | Some delta =>
              match np_zip Qplus RL delta with
              | None => Raise ValueError s
              | Some patched =>
                  let d1 := AData (d_angles d)
                              (np_put (d_reducedAngles d) anglesIndexes patched) in
                  let s1 := set_data s (Some d1) in
                  let s2 := set_after_move_standard_error s1
                              (Some (compute_standard_error d1)) in
                  let d2 := AData (d_angles d1)
                              (np_put (d_reducedAngles d1) anglesIndexes RL) in
                  Ok (set_data s2 (Some d2))
              end
          end
      end
  end.

(** [compute_after_move] from "set active data after move" on: the
    snapshot is stored, the coordinates read before the move are
    written back over the trial ones, and the tentative standard error
    is computed. *)
Definition after_move_finish (s : t) (b : before_data)
    (relativeIndexes : list nat) (boxData box1 : list vec3)
    (angles reduced : option (list Q)) : result (t * list vec3) :=
  let s1 := set_active_atoms_data_after_move s (Some (After angles reduced)) in
  let box2 := np_put box1 relativeIndexes boxData in
  match reduced with
  | None => Ok (set_after_move_standard_error s1 (standardError s1), box2)
  | Some r =>
      bind (tentative_standard_error s1 b r)
           (fun s' => (s', box2)) (fun s' => Ok (s', box2))
  end.

(** A method that also writes the shared [engine.boxCoordinates]
    returns the constraint together with the coordinate store. *)
Definition compute_after_move (s : t) (realIndexes relativeIndexes : list nat)
    (movedBoxCoordinates : list vec3) (box : list vec3)
  : result (t * list vec3) :=
  match activeAtomsDataBeforeMove s with
  | None => Raise TypeError (s, box)
  | Some b =>
      let anglesIndexes := b_anglesIndexes b in
      match np_take box relativeIndexes with
      | None => Raise IndexError (s, box)
      | Some boxData =>
          match np_assign box relativeIndexes movedBoxCoordinates with
          | None => Raise ValueError (s, box)
          | Some box1 =>
              if decide (length anglesIndexes = 0) then
                after_move_finish s b relativeIndexes boxData box1 None None
              else
                match kernel_on s anglesIndexes box1 with
                | inl e => Raise e (s, box1)
                | inr (angles, reduced) =>
                    after_move_finish s b relativeIndexes boxData box1
                                      (Some angles) (Some reduced)
                end
          end
      end
  end.

(** [data[key][anglesIndexes] += after - before] *)
Definition increment (a : list Q) (rows : list nat)
                     (after before : option (list Q)) : exn + list Q :=
  match after, before with
  | Some af, Some be =>
      match np_zip Qminus af be with
      | None => inl ValueError
      | Some delta =>
          match np_take a rows with
          | None => inl IndexError
          | Some cur =>
              match np_zip Qplus cur delta with
              | None => inl ValueError
              | Some new => inr (np_put a rows new)
              end
          end
      end
  | _, _ => inl TypeError
  end.

Definition clear_active (s : t) : t :=
  set_active_atoms_data_after_move
    (set_active_atoms_data_before_move s None) None.

Definition accept_move (s : t) (realIndexes relativeIndexes : list nat)
  : result t :=
  match activeAtomsDataBeforeMove s with
  | None => Raise TypeError s
  | Some b =>
      let anglesIndexes := b_anglesIndexes b in
      if decide (length anglesIndexes = 0) then Ok (clear_active s)
      else
        match data s, activeAtomsDataAfterMove s with
        | Some d, Some a =>
            match increment (d_angles d) anglesIndexes
                            (a_angles a) (b_angles b) with
            | inl e => Raise e s
            | inr angles' =>
                let s1 := set_data s (Some (AData angles' (d_reducedAngles d))) in
                match increment (d_reducedAngles d) anglesIndexes
                                (a_reducedAngles a) (b_reducedAngles b) with
                | inl e => Raise e s1
                | inr reduced' =>
                    let s2 := set_data s1 (Some (AData angles' reduced')) in
                    Ok (clear_active
                          (set_standard_error s2 (afterMoveStandardError s2)))
                end
            end
        | _, _ => Raise TypeError s
        end
  end.

Definition reject_move (s : t) (realIndexes relativeIndexes : list nat)
  : result t :=
  Ok (clear_active s).

End WithKernel.

Definition accept_amputation (s : t) (realIndex : list nat)
                             (relativeIndex : list nat) : result t :=
  match mapped_rows (angles s) realIndex with
  | None => Raise KeyError s
  | Some rows =>
      let anglesIndexes := py_set rows in
      if decide (length anglesIndexes = 0) then
        Ok (set_active_atoms_data_before_move s None)
      else
        match data s with
        | None => Raise TypeError s
        | Some d =>
            match np_assign (d_angles d) anglesIndexes [0%Q] with
            | None => Raise IndexError s
            | Some angles' =>
                let s1 := set_data s (Some (AData angles' (d_reducedAngles d))) in
                match np_assign (d_reducedAngles d) anglesIndexes [0%Q] with
                | None => Raise IndexError s1
                | Some reduced' =>
                    let d' := AData angles' reduced' in
                    let s2 := set_data s1 (Some d') in
                    Ok (set_active_atoms_data_before_move
                          (set_standard_error s2
                             (Some (compute_standard_error d'))) None)
                end
            end
        end
  end.

Definition reject_amputation (s : t) (realIndex : list nat)
                             (relativeIndex : list nat) : result t :=
  Ok s.

(** [_on_collector_collect_atom]; [AtomsCollector.collect] itself is
    not under src and is taken to add the index to the collected ones,
    as the spec has it. *)
Definition on_collector_collect_atom (s : t) (realIndex : nat) : result t :=
  match angles s !! realIndex with
  | None => Raise KeyError s
  | Some e =>
      let AI := improperMap e ++ otherMap e in
      Ok (set_collector s (collected s ++ [realIndex])
            (randomData s ∪ list_to_set AI))
  end.

End Improper.

(** ** AtomicCoordinationNumberConstraint *)
Module Coordination.

(** What the constraint reads of [self.engine]. *)
Record engine_t : Type := Engine {
  allElements : list string;
  elements : list string;
  numberOfAtoms : nat
}.

(** The core and the shell atoms of a definition item: a string (an
    element), a dictionary or a collection of indexes. *)
Inductive selector : Type :=
| SelString (name : string)
| SelDict (items : list (string * string))
| SelIndexes (idxs : list Z).

(** An item of [coordNumDef], of 6 fields or of 7 with the weight. *)
Record raw_def : Type := RawDef {
  coreDef : selector;
  shellDef : selector;
  lowerShell : Q;
  upperShell : Q;
  minCN : Q;
  maxCN : Q;
  weight : option Q
}.

(** The attributes [__initialize_constraint_data] resets, but for
    [__coordNumDef] and [__coordNumData]. *)
Record tables : Type := Tables {
  coresIndexes : list (list nat);
  numberOfCores : list Q;
  shellsIndexes : list (list nat);
  lowerShells : list Q;
  upperShells : list Q;
  minAtoms : list Q;
  maxAtoms : list Q;
  weights : list Q;
  asCoreDefIdxs : list (list nat);
  inShellDefIdxs : list (list nat)
}.

Definition empty_tables : tables := Tables [] [] [] [] [] [] [] [] [] [].

(** The constraint.  [coordNumDataIsArray] tells whether
    [__coordNumData] is the numpy array that the definition setter and
    [accept_move] assign, or still the Python list that
    [__initialize_constraint_data] assigns and the loop over the items
    appends to: a list has no [shape] and no in-place division. *)
Record t : Type := Make {
  engine : option engine_t;
  coordNumDef : option (list raw_def);
  defs : tables;
  coordNumData : list Q;
  coordNumDataAfterMove : option (list Q);
  standardError : option Q;
  afterMoveStandardError : option Q;
  activeAtomsDataBeforeMove : option (list Q);
  activeAtomsDataAfterMove : option (list Q);
  coordNumDataIsArray : bool
}.

Definition init (e : option engine_t) : t :=
  Make e None empty_tables [] None None None None None false.

Definition set_coordNumDef (s : t) (d : option (list raw_def)) : t :=
  Make (engine s) d (defs s) (coordNumData s) (coordNumDataAfterMove s)
       (standardError s) (afterMoveStandardError s)
       (activeAtomsDataBeforeMove s) (activeAtomsDataAfterMove s)
       (coordNumDataIsArray s).

Definition set_defs (s : t) (d : tables) : t :=
  Make (engine s) (coordNumDef s) d (coordNumData s) (coordNumDataAfterMove s)
       (standardError s) (afterMoveStandardError s)
       (activeAtomsDataBeforeMove s) (activeAtomsDataAfterMove s)
       (coordNumDataIsArray s).

Definition set_coordNumData (s : t) (d : list Q) : t :=
  Make (engine s) (coordNumDef s) (defs s) d (coordNumDataAfterMove s)
       (standardError s) (afterMoveStandardError s)
       (activeAtomsDataBeforeMove s) (activeAtomsDataAfterMove s)
       (coordNumDataIsArray s).

Definition set_coordNumDataAfterMove (s : t) (d : option (list Q)) : t :=
  Make (engine s) (coordNumDef s) (defs s) (coordNumData s) d
       (standardError s) (afterMoveStandardError s)
       (activeAtomsDataBeforeMove s) (activeAtomsDataAfterMove s)
       (coordNumDataIsArray s).

Definition set_standard_error (s : t) (e : option Q) : t :=
  Make (engine s) (coordNumDef s) (defs s) (coordNumData s)
       (coordNumDataAfterMove s) e (afterMoveStandardError s)
       (activeAtomsDataBeforeMove s) (activeAtomsDataAfterMove s)
       (coordNumDataIsArray s).

Definition set_after_move_standard_error (s : t) (e : option Q) : t :=
  Make (engine s) (coordNumDef s) (defs s) (coordNumData s)
       (coordNumDataAfterMove s) (standardError s) e
       (activeAtomsDataBeforeMove s) (activeAtomsDataAfterMove s)
       (coordNumDataIsArray s).

Definition set_active_atoms_data_before_move (s : t) (d : option (list Q))
  : t :=
  Make (engine s) (coordNumDef s) (defs s) (coordNumData s)
       (coordNumDataAfterMove s) (standardError s) (afterMoveStandardError s)
       d (activeAtomsDataAfterMove s)
       (coordNumDataIsArray s).

Definition set_active_atoms_data_after_move (s : t) (d : option (list Q))
  : t :=
  Make (engine s) (coordNumDef s) (defs s) (coordNumData s)
       (coordNumDataAfterMove s) (standardError s) (afterMoveStandardError s)
       (activeAtomsDataBeforeMove s) d
       (coordNumDataIsArray s).

Definition set_coordNumDataIsArray (s : t) (b : bool) : t :=
  Make (engine s) (coordNumDef s) (defs s) (coordNumData s)
       (coordNumDataAfterMove s) (standardError s) (afterMoveStandardError s)
       (activeAtomsDataBeforeMove s) (activeAtomsDataAfterMove s) b.

(** [__initialize_constraint_data] *)
Definition initialize_constraint_data (s : t) : t :=
  set_coordNumDataIsArray
    (set_coordNumData (set_defs (set_coordNumDef s None) empty_tables) [])
    false.

(** [[idx for idx, el in enumerate(allElements) if el == name]] *)
Fixpoint indexes_of (name : string) (els : list string) (idx : nat)
  : list nat :=
  match els with
  | [] => []
  | el :: els' =>
      if decide (el = name) then idx :: indexes_of name els' (S idx)
      else indexes_of name els' (S idx)
  end.

(** [sorted(set(l))] *)
Definition sorted_set (l : list nat) : list nat :=
  merge_sort Nat.le (remove_dups l).

(** The atoms a core or a shell definition stands for.  Only the
    string branch can be reached: the branches for a dictionary and for
    a collection of indexes are guarded by [isnstance], a name that is
    not bound, so that evaluating the guard raises NameError. *)
Definition resolve (e : engine_t) (sel : selector) : exn + list nat :=
  match sel with
  | SelString name =>
      if bool_decide (name ∈ elements e)
      then inr (indexes_of name (allElements e) 0)
      else inl AssertionError
  | SelDict _ => inl NameError
  | SelIndexes _ => inl NameError
  end.

Definition append_def (d : tables) (core shell : list nat)
                      (lo up mn mx w : Q) : tables :=
  Tables (coresIndexes d ++ [sorted_set core]) (numberOfCores d)
         (shellsIndexes d ++ [sorted_set shell])
         (lowerShells d ++ [lo]) (upperShells d ++ [up])
         (minAtoms d ++ [mn]) (maxAtoms d ++ [mx]) (weights d ++ [w])
         (asCoreDefIdxs d) (inShellDefIdxs d).

(** One turn of the loop over [coordNumDef]. *)
Definition compile_def (e : engine_t) (s : t) (d : raw_def) : result t :=
  match resolve e (coreDef d) with
  | inl err => Raise err s
  | inr coreIndexes =>
      match resolve e (shellDef d) with
      | inl err => Raise err s
      | inr shellIndexes =>
          let w := default 1%Q (weight d) in
          check (Qle_bool 0 (lowerShell d)) s
          (check (Qltb (lowerShell d) (upperShell d)) s
          (check (Qle_bool 0 (minCN d)) s
          (check (Qle_bool (minCN d) (maxCN d)) s
          (check (Qltb 0 w) s
          (Ok (set_coordNumData
                 (set_defs s
                    (append_def (defs s) coreIndexes shellIndexes
                       (lowerShell d) (upperShell d) (minCN d) (maxCN d) w))
                 (coordNumData s ++ [0%Q])))))))
      end
  end.

Fixpoint compile_defs (e : engine_t) (s : t) (l : list raw_def) : result t :=
  match l with
  | [] => Ok s
  | d :: l' =>
      match compile_def e s d with
      | Ok s' => compile_defs e s' l'
      | Raise err s' => Raise err s'
      end
  end.

(** [for atIdx in indexes: table[atIdx].append(defIdx)] *)
Fixpoint point_atoms (table : list (list nat)) (defIdx : nat)
                     (indexes : list nat) : result (list (list nat)) :=
  match indexes with
  | [] => Ok table
  | atIdx :: rest =>
      match table !! atIdx with
      | None => Raise IndexError table
      | Some l => point_atoms (<[atIdx:=l ++ [defIdx]]> table) defIdx rest
      end
  end.

(** [for defIdx, indexes in enumerate(sets): ...] from [defIdx] on *)
Fixpoint point_defs (table : list (list nat)) (defIdx : nat)
                    (sets : list (list nat)) : result (list (list nat)) :=
  match sets with
  | [] => Ok table
  | indexes :: rest =>
      match point_atoms table defIdx indexes with
      | Ok table' => point_defs table' (S defIdx) rest
      | Raise err table' => Raise err table'
      end
  end.

Definition set_pointers (s : t) (core shell : list (list nat)) : t :=
  let d := defs s in
  set_defs s (Tables (coresIndexes d) (numberOfCores d) (shellsIndexes d)
                     (lowerShells d) (upperShells d) (minAtoms d) (maxAtoms d)
                     (weights d) core shell).

Definition set_numberOfCores (s : t) : t :=
  let d := defs s in
  set_defs s (Tables (coresIndexes d)
                     ((fun idxs => inject_Z (Z.of_nat (length idxs)))
                        <$> coresIndexes d)
                     (shellsIndexes d)
                     (lowerShells d) (upperShells d) (minAtoms d) (maxAtoms d)
                     (weights d) (asCoreDefIdxs d) (inShellDefIdxs d)).

Definition set_coordination_number_definition (s : t)
    (coordNumDef : option (list raw_def)) : result t :=
  match engine s with
  | None => Ok (set_coordNumDef s coordNumDef)
  | Some e =>
      let coordNumDef := default [] coordNumDef in
      match compile_defs e (initialize_constraint_data s) coordNumDef with
      | Raise err s1 => Raise err s1
      | Ok s1 =>
          let blank := replicate (numberOfAtoms e) [] in
          match point_defs blank 0 (coresIndexes (defs s1)) with
          | Raise err core => Raise err (set_pointers s1 core blank)
          | Ok core =>
              match point_defs blank 0 (shellsIndexes (defs s1)) with
              | Raise err shell => Raise err (set_pointers s1 core shell)
              | Ok shell =>
                  Ok (set_coordNumDef
                        (set_numberOfCores
                           (set_coordNumDataIsArray
                              (set_pointers s1 core shell) true))
                        (Some coordNumDef))
              end
          end
      end
  end.

(** [compute_standard_error].  numpy's quotient by a zero count is inf
    or nan, which [Q] does not have: the statements about this function
    are for definitions with at least one core atom. *)
Fixpoint standard_error_loop (d : tables) (idx : nat) (coordNum : list Q)
                             (StdErr : Q) : exn + Q :=
  match coordNum with
  | [] => inr StdErr
  | cn :: rest =>
      match minAtoms d !! idx with
      | None => inl IndexError
      | Some mn =>
          if Qltb cn mn then
            match weights d !! idx with
            | None => inl IndexError
            | Some w =>
                standard_error_loop d (S idx) rest (StdErr + w * (mn - cn))%Q
            end
          else
            match maxAtoms d !! idx with
            | None => inl IndexError
            | Some mx =>
                if Qltb mx cn then
                  match weights d !! idx with
                  | None => inl IndexError
                  | Some w =>
                      standard_error_loop d (S idx) rest
                                          (StdErr + w * (cn - mx))%Q
                  end
                else standard_error_loop d (S idx) rest StdErr
            end
      end
  end.

Definition compute_standard_error (s : t) (data : list Q) : exn + Q :=
  match np_zip Qdiv data (numberOfCores (defs s)) with
  | None => inl ValueError
  | Some coordNum => standard_error_loop (defs s) 0 coordNum 0%Q
  end.

Section WithKernels.

(** The two kernels of fullrmc.Core.atomic_coordination, which is not
    under src, at the engine's basis vectors, periodicity and number of
    cores.  Each is given the box coordinates, the compiled tables and
    the array [coordNumData] it writes to, and yields the content of
    that array afterwards, or [None] when it raises.  The second is
    also given the indexes of the atoms of the move. *)
Variable all_atoms_coord_number_coords :
  list vec3 -> tables -> list Q -> option (list Q).
Variable multi_atoms_coord_number_coords :
  list nat -> list vec3 -> tables -> list Q -> option (list Q).

Definition zeros_like (a : list Q) : list Q := replicate (length a) 0%Q.

Definition clear_active (s : t) : t :=
  set_active_atoms_data_after_move
    (set_active_atoms_data_before_move s None) None.

(** [compute_data].  [self.__coordNumData /= 2.] is a TypeError while
    [__coordNumData] is a list. *)
Definition compute_data (s : t) (box : list vec3) : result t :=
  match all_atoms_coord_number_coords box (defs s) (coordNumData s) with
  | None => Raise KernelError s
  | Some raw =>
      if coordNumDataIsArray s then
        let s1 := set_coordNumData s ((fun c => c / 2)%Q <$> raw) in
        let s2 := clear_active s1 in
        match compute_standard_error s2 (coordNumData s2) with
        | inl err => Raise err s2
        | inr stdErr => Ok (set_standard_error s2 (Some stdErr))
        end
      else Raise TypeError (set_coordNumData s raw)
  end.

(** [compute_before_move].  Its first statement reads
    [self.__coordNumData.shape], an AttributeError while
    [__coordNumData] is a list. *)
Definition compute_before_move (s : t) (indexes : list nat)
                               (box : list vec3) : result t :=
  if coordNumDataIsArray s then
    match multi_atoms_coord_number_coords indexes box (defs s)
            (zeros_like (coordNumData s)) with
    | None => Raise KernelError s
    | Some beforeMoveData =>
        Ok (set_active_atoms_data_after_move
              (set_active_atoms_data_before_move s (Some beforeMoveData)) None)
    end
  else Raise AttributeError s.

(** [self.__coordNumData - before + after] *)
Definition patched_data (s : t) : exn + list Q :=
  match activeAtomsDataBeforeMove s, activeAtomsDataAfterMove s with
  | Some before, Some after =>
      match np_zip Qminus (coordNumData s) before with
      | None => inl ValueError
      | Some diff =>
          match np_zip Qplus diff after with
          | None => inl ValueError
          | Some d => inr d
          end
      end
  | _, _ => inl TypeError
  end.

(** [compute_after_move].  Between the statement that writes the trial
    coordinates and the kernel call, [self.__coordNumData.shape] is
    read, an AttributeError while [__coordNumData] is a list; the
    statement that writes the old coordinates back comes after the
    kernel call. *)
Definition compute_after_move (s : t) (indexes : list nat)
    (movedBoxCoordinates : list vec3) (box : list vec3)
  : result (t * list vec3) :=
  match np_take box indexes with
  | None => Raise IndexError (s, box)
  | Some boxData =>
      match np_assign box indexes movedBoxCoordinates with
      | None => Raise ValueError (s, box)
      | Some box1 =>
          if coordNumDataIsArray s then
            match multi_atoms_coord_number_coords indexes box1 (defs s)
                    (zeros_like (coordNumData s)) with
            | None => Raise KernelError (s, box1)
            | Some afterMoveData =>
                let box2 := np_put box1 indexes boxData in
                let s1 := set_active_atoms_data_after_move s
                            (Some afterMoveData) in
                match patched_data s1 with
                | inl err => Raise err (s1, box2)
                | inr d =>
                    let s2 := set_coordNumDataAfterMove s1 (Some d) in
                    match compute_standard_error s2 d with
                    | inl err => Raise err (s2, box2)
                    | inr stdErr =>
                        Ok (set_after_move_standard_error s2 (Some stdErr),
                            box2)
                    end
                end
            end
          else Raise AttributeError (s, box1)
      end
  end.

Definition accept_move (s : t) (indexes : list nat) : result t :=
  match coordNumDataAfterMove s with
  | None => Raise AttributeError s
  | Some d =>
      let s1 := clear_active
                  (set_coordNumDataIsArray (set_coordNumData s d) true) in
      Ok (set_after_move_standard_error
            (set_standard_error s1 (afterMoveStandardError s1)) None)
  end.

Definition reject_move (s : t) (indexes : list nat) : result t :=
  Ok (set_after_move_standard_error (clear_active s) None).

End WithKernels.

(** Modelled from the spec: [Constraint.reset_constraint] of
    fullrmc.Core.Constraint is not under src.  The spec calls it a full
    reset: both standard errors and both snapshots are dropped.  The
    private array [__coordNumData] is out of its reach. *)
Definition reset_constraint (s : t) : t :=
  set_after_move_standard_error (set_standard_error (clear_active s) None) None.

(** [listen]: the definition kept in [__coordNumDef] is compiled anew
    when the engine is set or the molecules indexes change. *)
Definition listen (s : t) (message : string) : result t :=
  if bool_decide (message ∈ ["engine set"; "update molecules indexes"]%string)
  then set_coordination_number_definition s (coordNumDef s)
  else if bool_decide (message = "update boundary conditions"%string)
  then Ok (reset_constraint s)
  else Ok s.

End Coordination.

#[local] Set Warnings "-clear-no-such-hyp".

(** ** What is stated of the angle constraint *)
Module ImproperSpec.
Import Improper.

(** The assertions of [add_angle] on an item, in one boolean. *)
Definition valid_angle (N : nat) (a : raw_angle) : bool :=
  let '(zi, zo, zx, zy, lower, upper) := a in
  (0 <=? zi)%Z && (zi <? Z.of_nat N)%Z &&
  (0 <=? zo)%Z && (zo <? Z.of_nat N)%Z &&
  (0 <=? zx)%Z && (zx <? Z.of_nat N)%Z &&
  (0 <=? zy)%Z && (zy <? Z.of_nat N)%Z &&
  negb (zi =? zo)%Z && negb (zi =? zx)%Z && negb (zi =? zy)%Z &&
  negb (zo =? zx)%Z && negb (zo =? zy)%Z && negb (zx =? zy)%Z &&
  Qle_bool (-90) lower && Qltb lower upper && Qle_bool upper 90.

(** The same checks as a proposition. *)
Definition angle_checks (N : nat) (a : raw_angle) : Prop :=
  let '(zi, zo, zx, zy, lower, upper) := a in
  ((0 <= zi < Z.of_nat N)%Z /\ (0 <= zo < Z.of_nat N)%Z /\
   (0 <= zx < Z.of_nat N)%Z /\ (0 <= zy < Z.of_nat N)%Z) /\
  (zi <> zo /\ zi <> zx /\ zi <> zy /\ zo <> zx /\ zo <> zy /\ zx <> zy) /\
  (-90 <= lower /\ lower < upper /\ upper <= 90)%Q.

(** The per-atom maps are the inverse of the table: row [k] is in the
    improper map of atom [a] exactly when [a] is the improper atom of
    row [k], and in its other map exactly when [a] is one of the plane
    atoms of row [k]. *)
Record membership_inverse (l : table) (m : gmap nat entry) : Prop := {
  mi_len_o : length (oIdxs l) = length (improperIdxs l);
  mi_len_x : length (xIdxs l) = length (improperIdxs l);
  mi_len_y : length (yIdxs l) = length (improperIdxs l);
  mi_improper : forall a k,
    k ∈ improperMap (get_entry m a) <-> improperIdxs l !! k = Some a;
  mi_other : forall a k,
    k ∈ otherMap (get_entry m a) <->
    (oIdxs l !! k = Some a \/ xIdxs l !! k = Some a \/ yIdxs l !! k = Some a)
}.

(** Every position of an atom's entry points to a row of the table
    that has the atom as its improper atom and the three plane atoms
    of the position, in some order. *)
Record entries_ok (l : table) (m : gmap nat entry) : Prop := {
  eo_len_o : length (oIdxs l) = length (improperIdxs l);
  eo_len_x : length (xIdxs l) = length (improperIdxs l);
  eo_len_y : length (yIdxs l) = length (improperIdxs l);
  eo_lens : forall a,
    length (xIdx (get_entry m a)) = length (oIdx (get_entry m a)) /\
    length (yIdx (get_entry m a)) = length (oIdx (get_entry m a)) /\
    length (improperMap (get_entry m a)) = length (oIdx (get_entry m a));
  eo_rows : forall a p row o x y,
    improperMap (get_entry m a) !! p = Some row ->
    oIdx (get_entry m a) !! p = Some o ->
    xIdx (get_entry m a) !! p = Some x ->
    yIdx (get_entry m a) !! p = Some y ->
    improperIdxs l !! row = Some a /\
    exists o' x' y',
      oIdxs l !! row = Some o' /\ xIdxs l !! row = Some x' /\
      yIdxs l !! row = Some y' /\ sorted3 o x y = sorted3 o' x' y'
}.

(** Modelled from the spec: [full_improper_angles_coords] of
    fullrmc.Core.improper_angles is not under src.  The spec has its
    reduced deviation be 0 for an angle inside [[lower, upper]] and the
    signed distance to the bound it passes otherwise. *)
Definition reduced_deviation (angle lower upper : Q) : Q :=
  if Qltb angle lower then (angle - lower)%Q
  else if Qltb upper angle then (angle - upper)%Q
  else 0%Q.

Fixpoint reduced_deviations (angles lower upper : list Q) : list Q :=
  match angles, lower, upper with
  | a :: angles', lo :: lower', up :: upper' =>
      reduced_deviation a lo up :: reduced_deviations angles' lower' upper'
  | _, _, _ => []
  end.

(** Sum over the angle instances of the squared reduced deviation. *)
Fixpoint sum_of_squares (reduced : list Q) : Q :=
  match reduced with
  | [] => 0%Q
  | r :: reduced' => (r * r + sum_of_squares reduced')%Q
  end.

(** Atom [a] is one of the four atoms of row [k]. *)
Definition involves (l : table) (k a : nat) : Prop :=
  improperIdxs l !! k = Some a \/ oIdxs l !! k = Some a \/
  xIdxs l !! k = Some a \/ yIdxs l !! k = Some a.

(** What row [k] adds to [compute_standard_error] of the committed
    data. *)
Definition contribution (s : t) (k : nat) : Q :=
  match data s with
  | Some d =>
      match d_reducedAngles d !! k with
      | Some r => (r * r)%Q
      | None => 0%Q
      end
  | None => 0%Q
  end.

Section Steps.
Variable kernel :
  list nat -> list nat -> list nat -> list nat -> list Q -> list Q ->
  list vec3 -> option (list Q * list Q).

(** One call of the protocol that returns. *)
Inductive step : t -> t -> Prop :=
| step_compute_data s box s' :
    compute_data kernel s box = Ok s' -> step s s'
| step_before_move s real box s' :
    compute_before_move kernel s real box = Ok s' -> step s s'
| step_after_move s real rel moved box s' box' :
    compute_after_move kernel s real rel moved box = Ok (s', box') ->
    step s s'
| step_accept_move s real rel s' :
    accept_move s real rel = Ok s' -> step s s'
| step_reject_move s real rel s' :
    reject_move s real rel = Ok s' -> step s s'
| step_accept_amputation s real rel s' :
    accept_amputation s real rel = Ok s' -> step s s'
| step_reject_amputation s real rel s' :
    reject_amputation s real rel = Ok s' -> step s s'.

End Steps.

(** The rows [K] belong to collected atoms and hold zero. *)
Record collected_zero (K : list nat) (s : t) : Prop := {
  cz_collected : collected s <> [];
  cz_random : forall k, k ∈ K -> k ∈ randomData s;
  cz_zero : forall k d v, k ∈ K -> data s = Some d ->
    d_reducedAngles d !! k = Some v -> v = 0%Q;
  cz_before : forall b k, activeAtomsDataBeforeMove s = Some b ->
    k ∈ b_anglesIndexes b -> k ∉ randomData s
}.

(** Every row of the table names four different atoms of the system
    and has its limits, in radians, ordered and within a quarter turn
    on either side; the six arrays have one length. *)
Record table_ok (PI : Q) (N : nat) (l : table) : Prop := {
  to_len_o : length (oIdxs l) = length (improperIdxs l);
  to_len_x : length (xIdxs l) = length (improperIdxs l);
  to_len_y : length (yIdxs l) = length (improperIdxs l);
  to_len_lo : length (lowerLimit l) = length (improperIdxs l);
  to_len_up : length (upperLimit l) = length (improperIdxs l);
  to_atoms : forall k i o x y,
    improperIdxs l !! k = Some i -> oIdxs l !! k = Some o ->
    xIdxs l !! k = Some x -> yIdxs l !! k = Some y ->
    (i < N /\ o < N /\ x < N /\ y < N) /\
    (i <> o /\ i <> x /\ i <> y /\ o <> x /\ o <> y /\ x <> y);
  to_limits : forall k lo up,
    lowerLimit l !! k = Some lo -> upperLimit l !! k = Some up ->
    (- (PI / 2) <= lo /\ lo < up /\ up <= PI / 2)%Q
}.

(** The orders of the plane atoms in which [add_angle] recognises an
    angle it has stored as (o, x, y). *)
Definition recognised (o x y o' x' y' : nat) : Prop :=
  (o' = o /\ x' = x /\ y' = y) \/ (o' = o /\ x' = y /\ y' = x) \/
  (o' = x /\ x' = o /\ y' = y) \/ (o' = y /\ x' = x /\ y' = o).

(** The committed standard error is that of the committed data. *)
Definition committed_ok (s : t) : Prop :=
  standardError s = compute_standard_error <$> data s.

(** While both snapshots of a move are held, the tentative standard
    error is that of the data [accept_move] would commit. *)
Definition pending_ok (s : t) : Prop :=
  forall b a d reduced',
    activeAtomsDataBeforeMove s = Some b ->
    activeAtomsDataAfterMove s = Some a ->
    data s = Some d ->
    increment (d_reducedAngles d) (b_anglesIndexes b)
              (a_reducedAngles a) (b_reducedAngles b) = inr reduced' ->
    afterMoveStandardError s
      = Some (compute_standard_error (AData (d_angles d) reduced')).

(** The keys of the per-atom maps are atoms of the system. *)
Definition keys_bounded (N : nat) (m : gmap nat entry) : Prop :=
  forall a, is_Some (m !! a) -> a < N.

End ImproperSpec.

(** ** What is stated of the coordination constraint *)
Module CoordinationSpec.
Import Coordination.

(** [table], indexed by atom, is the inverse of [sets], indexed by
    definition: definition [d] is in the list of atom [a] exactly when
    [a] is in the set of [d]. *)
Definition pointers_inverse (sets table : list (list nat)) : Prop :=
  forall a d,
    (exists l, table !! a = Some l /\ d ∈ l) <->
    (exists idxs, sets !! d = Some idxs /\ a ∈ idxs).

(** The deviation of one definition as the specification words it. *)
Definition deviation (w nMin nMax mean : Q) : Q :=
  if Qltb mean nMin then (w * (nMin - mean))%Q
  else if Qltb nMax mean then (w * (mean - nMax))%Q
  else 0%Q.

(** Sum over the definitions of the deviation of the mean
    [totalCount / numberOfCoreAtoms]. *)
Fixpoint deviations_sum (totals ncores nMin nMax w : list Q) : Q :=
  match totals, ncores, nMin, nMax, w with
  | t :: totals', n :: ncores', a :: nMin', b :: nMax', c :: w' =>
      (deviation c a b (t / n) + deviations_sum totals' ncores' nMin' nMax' w')%Q
  | _, _, _, _, _ => 0%Q
  end.

(** The checks of the specification on an item whose selectors are
    element names. *)
Definition spec_checks (e : engine_t) (d : raw_def) : Prop :=
  (exists c sh, coreDef d = SelString c /\ shellDef d = SelString sh /\
                c ∈ elements e /\ sh ∈ elements e) /\
  (lowerShell d < upperShell d)%Q /\ (minCN d <= maxCN d)%Q /\
  (0 < default 1%Q (weight d))%Q.

(** The checks the loop of [set_coordination_number_definition] makes
    on such an item. *)
Definition valid_def (e : engine_t) (d : raw_def) : Prop :=
  spec_checks e d /\ (0 <= lowerShell d)%Q /\ (0 <= minCN d)%Q.

(** Both selectors of the item are element names. *)
Definition named (d : raw_def) : Prop :=
  exists c sh, coreDef d = SelString c /\ shellDef d = SelString sh.

(** Every index of a compiled set is an index of [allElements]. *)
Definition bounded (e : engine_t) (sets : list (list nat)) : Prop :=
  forall idxs a, idxs ∈ sets -> a ∈ idxs -> a < length (allElements e).

(** The fields of the constraint that the definition setter has no
    assignment to. *)
Definition same_runtime (s s' : t) : Prop :=
  engine s' = engine s /\
  coordNumDataAfterMove s' = coordNumDataAfterMove s /\
  standardError s' = standardError s /\
  afterMoveStandardError s' = afterMoveStandardError s /\
  activeAtomsDataBeforeMove s' = activeAtomsDataBeforeMove s /\
  activeAtomsDataAfterMove s' = activeAtomsDataAfterMove s.

(** The weight of an item, 1 when it has six fields. *)
Definition weight_of (d : raw_def) : Q := default 1%Q (weight d).

(** The mean coordination numbers [coordNum] read from position [idx]
    of the tables on are within the bounds of their definitions. *)
Definition within_bounds (d : tables) (idx : nat) (coordNum : list Q) : Prop :=
  forall j cn, coordNum !! j = Some cn ->
    (forall mn, minAtoms d !! (idx + j) = Some mn -> (mn <= cn)%Q) /\
    (forall mx, maxAtoms d !! (idx + j) = Some mx -> (cn <= mx)%Q).

(** The per-definition tables have [n] entries each. *)
Definition aligned (n : nat) (d : tables) : Prop :=
  length (numberOfCores d) = n /\ length (minAtoms d) = n /\
  length (maxAtoms d) = n /\ length (weights d) = n.

End CoordinationSpec.

(** ** Concrete systems used to exercise the statements *)
Module Examples.

(** Four atoms, one of element A and three of element B. *)
Definition engine4 : Coordination.engine_t :=
  Coordination.Engine ["A"; "B"; "B"; "B"] ["A"; "B"] 4.

(** [('A', 'B', 0.5, 2.0, 2, 2)] *)
Definition shell_AB : Coordination.raw_def :=
  Coordination.RawDef (Coordination.SelString "A") (Coordination.SelString "B")
    (1 # 2) 2 2 2 None.

(** [('A', 'B', 2.0, 0.5, 2, 2)]: the shell limits the wrong way round *)
Definition shell_AB_swapped : Coordination.raw_def :=
  Coordination.RawDef (Coordination.SelString "A") (Coordination.SelString "B")
    2 (1 # 2) 2 2 None.

(** [('A', 'B', -1, 2.0, 2, 2)] *)
Definition shell_AB_negative : Coordination.raw_def :=
  Coordination.RawDef (Coordination.SelString "A") (Coordination.SelString "B")
    (-1) 2 2 2 None.

Definition coordination0 : Coordination.t :=
  state_of (Coordination.set_coordination_number_definition
              (Coordination.init (Some engine4)) (Some [shell_AB])).

(** A subset kernel that counts nothing, and one that raises. *)
Definition multi_zero (indexes : list nat) (box : list vec3)
    (d : Coordination.tables) (out : list Q) : option (list Q) := Some out.

Definition multi_raises (indexes : list nat) (box : list vec3)
    (d : Coordination.tables) (out : list Q) : option (list Q) := None.

Definition pi_approx : Q := 355 # 113.

(** Improper atom 0 over the plane of atoms 1, 2 and 3, within
    [-10, 10] degrees. *)
Definition angle0123 : Improper.raw_angle := (0, 1, 2, 3, -10 # 1, 10 # 1)%Z.

Definition improper0 : Improper.t :=
  state_of (Improper.set_angles pi_approx (Improper.init (Some 5))
              (Improper.ArgTuples [angle0123])).

(** An angle kernel that yields 1/4 for every angle and 1/8 for every
    reduced deviation. *)
Definition angle_kernel (i o x y : list nat) (lo up : list Q)
    (box : list vec3) : option (list Q * list Q) :=
  Some ((fun _ => 1 # 4) <$> i, (fun _ => 1 # 8) <$> i).

Definition box5 : list vec3 :=
  [(0, 0, 1); (0, 0, 0); (1, 0, 0); (0, 1, 0); (5, 5, 5)]%Q.

Definition improper1 : Improper.t :=
  state_of (Improper.compute_data angle_kernel improper0 box5).

End Examples.

(** ** Index arrays *)
Module PyFacts.

Lemma np_take_Forall2 {A} (a : list A) idx vs :
  np_take a idx = Some vs <-> Forall2 (fun i v => a !! i = Some v) idx vs.
Proof. unfold np_take. apply mapM_Some. Qed.

Lemma np_put_length {A} idx : forall (a vals : list A),
  length (np_put a idx vals) = length a.
Proof.
  induction idx as [|i idx IH]; intros a [|v vals]; simpl; try done.
  by rewrite IH, length_insert.
Qed.

Lemma np_put_lookup_notin {A} idx : forall (a vals : list A) p,
  p ∉ idx -> np_put a idx vals !! p = a !! p.
Proof.
  induction idx as [|i idx IH]; intros a [|v vals] p Hp; simpl; try done.
  rewrite not_elem_of_cons in Hp. destruct Hp as [Hne Hp].
  rewrite IH by done. by rewrite list_lookup_insert_ne.
Qed.

(** Writing back the values read at [idx] undoes any write at [idx]. *)
Lemma np_put_restore {A} idx : forall (a b old : list A),
  Forall2 (fun i v => a !! i = Some v) idx old ->
  length b = length a ->
  (forall p, p ∉ idx -> b !! p = a !! p) ->
  np_put b idx old = a.
Proof.
  induction idx as [|i idx IH]; intros a b old HF Hlen Hout.
  - inversion HF; subst. simpl. apply list_eq. intros p. apply Hout.
    apply not_elem_of_nil.
  - inversion HF as [|? v ? old' Hi HF']; subst. simpl.
    apply IH; [done|by rewrite length_insert|].
    intros p Hp. destruct (decide (p = i)) as [->|Hne].
    + rewrite list_lookup_insert_eq; [done|].
      rewrite Hlen. by eapply lookup_lt_Some.
    + rewrite list_lookup_insert_ne by done. apply Hout.
      rewrite not_elem_of_cons. done.
Qed.

Lemma np_take_put_restore {A} (a : list A) idx old vals :
  np_take a idx = Some old ->
  np_put (np_put a idx vals) idx old = a.
Proof.
  intros H. apply np_put_restore.
  - by apply np_take_Forall2.
  - apply np_put_length.
  - intros p Hp. by apply np_put_lookup_notin.
Qed.

Lemma np_assign_put {A} (a : list A) idx vals b :
  np_assign a idx vals = Some b -> exists vs, b = np_put a idx vs.
Proof.
  unfold np_assign. destruct (in_range a idx); [|done].
  destruct (np_broadcast _ _) as [vs|]; [|done]. simpl.
  intros [= <-]. by exists vs.
Qed.

End PyFacts.

(** ** Membership tables of the angle constraint *)
Module ImproperFacts.
Import Improper ImproperSpec.

Lemma add_angle_unfold PI s N a :
  numberOfAtoms s = Some N ->
  add_angle PI s a =
    if valid_angle N a then
      let '(zi, zo, zx, zy, lower, upper) := a in
      store_angle s (Z.to_nat zi) (Z.to_nat zo) (Z.to_nat zx) (Z.to_nat zy)
                  (to_rad PI lower) (to_rad PI upper)
    else Raise AssertionError s.
Proof.
  intros HN. destruct a as [[[[[zi zo] zx] zy] lower] upper].
  unfold add_angle, valid_angle. rewrite HN. unfold check.
  repeat match goal with
  | |- context [if ?b then _ else Raise AssertionError s] =>
      destruct b; simpl; [|reflexivity]
  end.
  reflexivity.
Qed.

Lemma get_entry_insert m k e a :
  get_entry (<[k:=e]> m) a = if decide (k = a) then e else get_entry m a.
Proof.
  unfold get_entry. destruct (decide (k = a)) as [->|Hne].
  - by rewrite lookup_insert_eq.
  - by rewrite lookup_insert_ne.
Qed.

Lemma get_entry_publish m i o x y ei eo ex ey a :
  get_entry (publish m i o x y ei eo ex ey) a =
    if decide (y = a) then ey
    else if decide (x = a) then ex
    else if decide (o = a) then eo
    else if decide (i = a) then ei
    else get_entry m a.
Proof. unfold publish. by rewrite !get_entry_insert. Qed.

Lemma after_dump_defs s :
  anglesList (after_dump s) = anglesList s /\ angles (after_dump s) = angles s
  /\ numberOfAtoms (after_dump s) = numberOfAtoms s.
Proof. unfold after_dump. by destruct (dumpAngles s). Qed.

Lemma sorted3_elem a o x y o' x' y' :
  sorted3 o x y = sorted3 o' x' y' ->
  (a = o \/ a = x \/ a = y) <-> (a = o' \/ a = x' \/ a = y').
Proof.
  intros H.
  assert (Hp : [o; x; y] ≡ₚ [o'; x'; y']).
  { rewrite <- (merge_sort_Permutation Nat.le [o; x; y]).
    rewrite <- (merge_sort_Permutation Nat.le [o'; x'; y']).
    unfold sorted3 in H. by rewrite H. }
  assert (Hin : a ∈ [o; x; y] <-> a ∈ [o'; x'; y']) by (by rewrite Hp).
  rewrite !elem_of_cons, !elem_of_nil in Hin. tauto.
Qed.

Lemma get_entry_publish_same m i o x y a :
  get_entry (publish m i o x y (get_entry m i) (get_entry m o)
               (get_entry m x) (get_entry m y)) a = get_entry m a.
Proof.
  rewrite get_entry_publish. repeat case_decide; by subst.
Qed.

Lemma lookup_snoc_Some {A} (l : list A) (v : A) k a :
  (l ++ [v]) !! k = Some a <-> l !! k = Some a \/ (k = length l /\ a = v).
Proof.
  rewrite lookup_app_Some. rewrite list_lookup_singleton_Some.
  split; intros [?|?]; auto.
  - right. destruct H as (? & ? & ?). split; [lia|done].
  - right. destruct H as [-> ->]. split; [lia|]. split; [lia|done].
Qed.

Lemma lookup_insert_Some' {A} (l : list A) (v : A) j k a :
  j < length l ->
  <[j:=v]> l !! k = Some a <->
  (k = j /\ a = v) \/ (k <> j /\ l !! k = Some a).
Proof.
  intros Hj. destruct (decide (k = j)) as [->|Hne].
  - rewrite list_lookup_insert_eq by done. naive_solver.
  - rewrite list_lookup_insert_ne by done. naive_solver.
Qed.

Lemma store_angle_membership s i o x y lo up s' :
  membership_inverse (anglesList s) (angles s) ->
  i <> o -> i <> x -> i <> y -> o <> x -> o <> y -> x <> y ->
  store_angle s i o x y lo up = Ok s' ->
  membership_inverse (anglesList s') (angles s').
Proof.
  intros [Ho Hx Hy Himp Hoth] Hio Hix Hiy Hox Hoy Hxy.
  unfold store_angle.
  destruct (same_pos _) as [oPos|].
  - destruct (improperMap _ !! oPos) as [setPos|]; [|done].
    destruct (improperIdxs _ !! setPos) as [i'|] eqn:Ei; [|done].
    unfold check. case_bool_decide as Hi; [|done].
    destruct (oIdxs _ !! setPos) as [o'|] eqn:Eo; [|done].
    destruct (xIdxs _ !! setPos) as [x'|] eqn:Ex; [|done].
    destruct (yIdxs _ !! setPos) as [y'|] eqn:Ey; [|done].
    case_bool_decide as Hs; [|done].
    intros [= <-].
    destruct (after_dump_defs (set_defs (warn s)
      (overwrite_row (anglesList s) setPos o x y lo up)
      (publish (angles s) i o x y (get_entry (angles s) i)
         (get_entry (angles s) o) (get_entry (angles s) x)
         (get_entry (angles s) y)))) as (-> & -> & _).
    simpl.
    assert (Hlt : setPos < length (improperIdxs (anglesList s)))
      by (by eapply lookup_lt_Some).
    split; simpl; rewrite ?length_insert; try done.
    + intros a k. rewrite get_entry_publish_same. apply Himp.
    + intros a k. rewrite get_entry_publish_same. rewrite Hoth.
      rewrite !lookup_insert_Some' by lia.
      destruct (decide (k = setPos)) as [->|Hne].
      * rewrite Eo, Ex, Ey.
        pose proof (sorted3_elem a _ _ _ _ _ _ Hs). naive_solver.
      * naive_solver.
  - intros [= <-].
    destruct (after_dump_defs (set_defs s
      (append_row (anglesList s) i o x y lo up)
      (publish (angles s) i o x y
         (append_entry_improper (get_entry (angles s) i) o x y
            (length (improperIdxs (anglesList s))))
         (append_entry_other (get_entry (angles s) o)
            (length (improperIdxs (anglesList s))))
         (append_entry_other (get_entry (angles s) x)
            (length (improperIdxs (anglesList s))))
         (append_entry_other (get_entry (angles s) y)
            (length (improperIdxs (anglesList s))))))) as (-> & -> & _).
    simpl.
    split; simpl; rewrite ?length_app; simpl; try lia.
    + intros a k. rewrite get_entry_publish, lookup_snoc_Some.
      repeat case_decide; subst; simpl;
        rewrite ?elem_of_app, ?list_elem_of_singleton, Himp; naive_solver.
    + intros a k. rewrite get_entry_publish, !lookup_snoc_Some.
      rewrite Ho, Hx, Hy.
      repeat case_decide; subst; simpl;
        rewrite ?elem_of_app, ?list_elem_of_singleton, Hoth; naive_solver.
Qed.


Lemma valid_angle_spec N zi zo zx zy lower upper :
  valid_angle N (zi, zo, zx, zy, lower, upper) = true <->
  ((0 <= zi < Z.of_nat N)%Z /\ (0 <= zo < Z.of_nat N)%Z /\
   (0 <= zx < Z.of_nat N)%Z /\ (0 <= zy < Z.of_nat N)%Z) /\
  (zi <> zo /\ zi <> zx /\ zi <> zy /\ zo <> zx /\ zo <> zy /\ zx <> zy) /\
  (-90 <= lower /\ lower < upper /\ upper <= 90)%Q.
Proof.
  unfold valid_angle, Qltb.
  rewrite !andb_true_iff, !negb_true_iff, !Z.leb_le, !Z.ltb_lt, !Z.eqb_neq,
    !Qle_bool_iff.
  assert (Hlt : Qle_bool upper lower = false <-> (lower < upper)%Q).
  { rewrite <- not_true_iff_false, Qle_bool_iff. split.
    - apply Qnot_le_lt.
    - apply Qlt_not_le. }
  rewrite Hlt. tauto.
Qed.

Lemma valid_angle_checks N a : valid_angle N a = true <-> angle_checks N a.
Proof.
  destruct a as [[[[[zi zo] zx] zy] lower] upper]. apply valid_angle_spec.
Qed.

Lemma store_angle_numberOfAtoms s i o x y lo up s' :
  store_angle s i o x y lo up = Ok s' -> numberOfAtoms s' = numberOfAtoms s.
Proof.
  unfold store_angle, check. intros H.
  repeat case_match; simplify_eq;
    match goal with
    | |- numberOfAtoms (after_dump ?t) = _ =>
        destruct (after_dump_defs t) as (_ & _ & ->)
    end; done.
Qed.

Lemma add_angle_membership PI s a s' :
  membership_inverse (anglesList s) (angles s) ->
  add_angle PI s a = Ok s' ->
  membership_inverse (anglesList s') (angles s') /\
  numberOfAtoms s' = numberOfAtoms s.
Proof.
  intros Hinv H.
  destruct (numberOfAtoms s) as [N|] eqn:HN.
  2:{ destruct a as [[[[[? ?] ?] ?] ?] ?]. unfold add_angle in H.
      by rewrite HN in H. }
  rewrite (add_angle_unfold PI s N a HN) in H.
  destruct a as [[[[[zi zo] zx] zy] lower] upper].
  destruct (valid_angle N _) eqn:Hv; [|done].
  apply valid_angle_spec in Hv as (Hr & Hd & _).
  split.
  - eapply store_angle_membership; [done|..|exact H]; lia.
  - rewrite <- HN. by eapply store_angle_numberOfAtoms.
Qed.

Lemma add_angles_membership PI rows : forall s s',
  membership_inverse (anglesList s) (angles s) ->
  add_angles PI s rows = Ok s' ->
  membership_inverse (anglesList s') (angles s') /\
  numberOfAtoms s' = numberOfAtoms s.
Proof.
  induction rows as [|[a|] rows IH]; intros s s' Hinv H; simpl in H.
  - by simplify_eq.
  - destruct (add_angle PI s a) as [s1|] eqn:Ha; [|done].
    apply add_angle_membership in Ha as [Hinv1 HN1]; [|done].
    destruct (IH _ _ Hinv1 H) as [? ?]. split; [done|congruence].
  - done.
Qed.

(** A call that raises leaves the table and the per-atom maps as they
    were. *)
Lemma store_angle_failure s i o x y lo up e s' :
  store_angle s i o x y lo up = Raise e s' ->
  anglesList s' = anglesList s /\ angles s' = angles s.
Proof.
  unfold store_angle, check. intros H. repeat case_match; by simplify_eq.
Qed.

Lemma add_angle_failure_keeps_definitions PI s a e s' :
  add_angle PI s a = Raise e s' ->
  anglesList s' = anglesList s /\ angles s' = angles s.
Proof.
  destruct (numberOfAtoms s) as [N|] eqn:HN.
  - rewrite (add_angle_unfold PI s N a HN).
    destruct a as [[[[[zi zo] zx] zy] lower] upper].
    destruct (valid_angle N _); [apply store_angle_failure|].
    by intros [= _ <-].
  - destruct a as [[[[[zi zo] zx] zy] lower] upper]. unfold add_angle.
    rewrite HN. by intros [= _ <-].
Qed.

Lemma set_angles_failure_keeps_definitions PI s arg e s' :
  set_angles PI s arg = Raise e s' ->
  anglesList s' = anglesList s /\ angles s' = angles s.
Proof.
  unfold set_angles. destruct (numberOfAtoms s); [|done].
  destruct (add_angles _ _ _); [done|]. by intros [= _ <-].
Qed.

Lemma membership_inverse_empty : membership_inverse empty_table ∅.
Proof.
  split; simpl; try done; intros a k; unfold get_entry;
    rewrite lookup_empty; simpl; rewrite elem_of_nil; naive_solver.
Qed.

Lemma finalize_fold idxs : forall m,
  (forall a, get_entry (foldl (fun m idx => <[idx:=get_entry m idx]> m) m idxs) a
             = get_entry m a) /\
  (forall a, a ∈ idxs \/ is_Some (m !! a) ->
     is_Some (foldl (fun m idx => <[idx:=get_entry m idx]> m) m idxs !! a)).
Proof.
  induction idxs as [|i idxs IH]; intros m; simpl.
  - split; [done|]. intros a [Ha|Ha]; [by apply elem_of_nil in Ha|done].
  - destruct (IH (<[i:=get_entry m i]> m)) as [IH1 IH2]. split.
    + intros a. rewrite IH1, get_entry_insert. case_decide; by subst.
    + intros a Ha. apply IH2.
      destruct (decide (i = a)) as [->|Hne].
      * right. rewrite lookup_insert_eq. by eexists.
      * rewrite lookup_insert_ne by done. rewrite elem_of_cons in Ha.
        naive_solver.
Qed.

Lemma finalize_get_entry N m a : get_entry (finalize N m) a = get_entry m a.
Proof. apply finalize_fold. Qed.

Lemma finalize_total N m a : a < N -> is_Some (finalize N m !! a).
Proof.
  intros Ha. apply finalize_fold. left. apply elem_of_seq. lia.
Qed.

Lemma set_angles_membership PI s arg s' N :
  numberOfAtoms s = Some N ->
  set_angles PI s arg = Ok s' ->
  membership_inverse (anglesList s') (angles s') /\
  (forall a, a < N -> is_Some (angles s' !! a)).
Proof.
  intros HN. unfold set_angles. rewrite HN.
  destruct (add_angles PI _ (rows_of arg)) as [s2|] eqn:Hadd; [|done].
  intros [= <-]. simpl.
  apply add_angles_membership in Hadd as [[Ho Hx Hy Hi Hoth] _];
    [|apply membership_inverse_empty].
  split; [|intros a Ha; by apply finalize_total].
  split; try done; intros a k; rewrite finalize_get_entry; auto.
Qed.

End ImproperFacts.

(** ** Membership tables of the coordination constraint *)
Module CoordinationFacts.
Import Coordination CoordinationSpec.

Lemma point_atoms_Ok indexes : forall table d table',
  point_atoms table d indexes = Ok table' ->
  length table' = length table /\
  (forall a, a ∈ indexes -> a < length table) /\
  (forall a l', table' !! a = Some l' ->
     exists l, table !! a = Some l /\
       forall d', d' ∈ l' <-> d' ∈ l \/ (d' = d /\ a ∈ indexes)).
Proof.
  induction indexes as [|i indexes IH]; intros table d table' H; simpl in H.
  - simplify_eq. split; [done|]. split.
    + intros a Ha. by apply elem_of_nil in Ha.
    + intros a l' Hl. exists l'. split; [done|]. intros d'.
      rewrite elem_of_nil. naive_solver.
  - destruct (table !! i) as [li|] eqn:Hi; [|done].
    apply IH in H as (Hlen & Hrng & Hmem).
    rewrite length_insert in Hlen, Hrng.
    assert (Hlt : i < length table) by (by eapply lookup_lt_Some).
    split; [done|]. split.
    + intros a. rewrite elem_of_cons. intros [->|Ha]; auto.
    + intros a l' Hl. destruct (Hmem a l' Hl) as (l & Hl0 & Hiff).
      destruct (decide (a = i)) as [->|Hne].
      * rewrite list_lookup_insert_eq in Hl0 by done. simplify_eq.
        exists li. split; [done|]. intros d'. rewrite Hiff.
        rewrite elem_of_app, list_elem_of_singleton, elem_of_cons.
        naive_solver.
      * rewrite list_lookup_insert_ne in Hl0 by done.
        exists l. split; [done|]. intros d'. rewrite Hiff, elem_of_cons.
        naive_solver.
Qed.

Lemma point_defs_Ok sets : forall table k table',
  point_defs table k sets = Ok table' ->
  length table' = length table /\
  (forall j idxs a, sets !! j = Some idxs -> a ∈ idxs -> a < length table) /\
  (forall a l', table' !! a = Some l' ->
     exists l, table !! a = Some l /\
       forall d', d' ∈ l' <->
         d' ∈ l \/ exists j idxs, sets !! j = Some idxs /\ d' = k + j /\ a ∈ idxs).
Proof.
  induction sets as [|idxs0 sets IH]; intros table k table' H; simpl in H.
  - simplify_eq. split; [done|]. split; [done|].
    intros a l' Hl. exists l'. split; [done|]. intros d'. naive_solver.
  - destruct (point_atoms table k idxs0) as [table1|] eqn:H1; [|done].
    apply point_atoms_Ok in H1 as (Hlen1 & Hrng1 & Hmem1).
    apply IH in H as (Hlen & Hrng & Hmem).
    split; [congruence|]. split.
    + intros [|j] idxs a Hj Ha; simpl in Hj.
      * simplify_eq. auto.
      * rewrite <- Hlen1. eauto.
    + intros a l' Hl. destruct (Hmem a l' Hl) as (l1 & Hl1 & Hiff1).
      destruct (Hmem1 a l1 Hl1) as (l & Hl0 & Hiff0).
      exists l. split; [done|]. intros d'. rewrite Hiff1, Hiff0. split.
      * intros [[?|[-> ?]]|(j & idxs & Hj & -> & Ha)]; auto.
        -- right. exists 0, idxs0. split; [done|]. split; [lia|done].
        -- right. exists (S j), idxs. split; [done|]. split; [lia|done].
      * intros [?|([|j] & idxs & Hj & -> & Ha)]; auto; simpl in Hj.
        -- simplify_eq. left. right. split; [lia|done].
        -- right. exists j, idxs. split; [done|]. split; [lia|done].
Qed.

Lemma point_defs_inverse N sets table :
  point_defs (replicate N []) 0 sets = Ok table ->
  pointers_inverse sets table /\ length table = N.
Proof.
  intros H. apply point_defs_Ok in H as (Hlen & Hrng & Hmem).
  rewrite length_replicate in Hlen, Hrng. split; [|done].
  intros a d. split.
  - intros (l' & Hl & Hd). destruct (Hmem a l' Hl) as (l & Hl0 & Hiff).
    apply lookup_replicate in Hl0 as [-> _].
    apply Hiff in Hd as [Hd|(j & idxs & Hj & -> & Ha)].
    + by apply elem_of_nil in Hd.
    + by exists idxs.
  - intros (idxs & Hd & Ha).
    assert (Hlt : a < length table) by (rewrite Hlen; eauto).
    destruct (lookup_lt_is_Some_2 _ _ Hlt) as [l' Hl].
    exists l'. split; [done|].
    destruct (Hmem a l' Hl) as (l & Hl0 & Hiff). apply Hiff.
    right. by exists d, idxs.
Qed.

Lemma set_definition_membership s arg s' e :
  engine s = Some e ->
  set_coordination_number_definition s arg = Ok s' ->
  pointers_inverse (coresIndexes (defs s')) (asCoreDefIdxs (defs s')) /\
  pointers_inverse (shellsIndexes (defs s')) (inShellDefIdxs (defs s')) /\
  length (asCoreDefIdxs (defs s')) = numberOfAtoms e /\
  length (inShellDefIdxs (defs s')) = numberOfAtoms e.
Proof.
  intros He. unfold set_coordination_number_definition. rewrite He.
  destruct (compile_defs e _ _) as [s1|]; [|done].
  destruct (point_defs _ 0 (coresIndexes _)) as [core|] eqn:Hc; [|done].
  destruct (point_defs _ 0 (shellsIndexes _)) as [shell|] eqn:Hs; [|done].
  intros [= <-]. simpl.
  apply point_defs_inverse in Hc as [? ?].
  apply point_defs_inverse in Hs as [? ?]. done.
Qed.

End CoordinationFacts.

(** ** Trial moves of the angle constraint *)
Module ImproperMoves.
Import Improper PyFacts.

Section WithKernel.
Variable kernel :
  list nat -> list nat -> list nat -> list nat -> list Q -> list Q ->
  list vec3 -> option (list Q * list Q).

Lemma tentative_standard_error_frame s b r :
  data (state_of (tentative_standard_error s b r)) = data s /\
  standardError (state_of (tentative_standard_error s b r)) = standardError s.
Proof.
  unfold tentative_standard_error.
  destruct (data s) as [d|] eqn:Hd; [|by simpl; rewrite Hd].
  destruct (b_reducedAngles b) as [before|]; [|by simpl; rewrite Hd].
  destruct (np_take _ _) as [RL|] eqn:HRL; [|by simpl; rewrite Hd].
  destruct (np_zip Qminus _ _) as [delta|]; [|by simpl; rewrite Hd].
  destruct (np_zip Qplus _ _) as [patched|]; [|by simpl; rewrite Hd].
  simpl. split; [|done].
  rewrite (np_take_put_restore _ _ _ _ HRL). by destruct d.
Qed.

Lemma after_move_finish_frame s b rel boxData box1 angles reduced :
  let r := after_move_finish s b rel boxData box1 angles reduced in
  data (fst (state_of r)) = data s /\
  standardError (fst (state_of r)) = standardError s /\
  snd (state_of r) = np_put box1 rel boxData.
Proof.
  unfold after_move_finish. destruct reduced as [r0|]; [|done].
  pose proof (tentative_standard_error_frame
    (set_active_atoms_data_after_move s (Some (After angles (Some r0)))) b r0)
    as [H1 H2].
  destruct (tentative_standard_error _ b r0); simpl in *; done.
Qed.

Lemma compute_after_move_frame s real rel moved box :
  let r := compute_after_move kernel s real rel moved box in
  data (fst (state_of r)) = data s /\
  standardError (fst (state_of r)) = standardError s.
Proof.
  unfold compute_after_move.
  destruct (activeAtomsDataBeforeMove s) as [b|]; [|done].
  destruct (np_take box rel) as [boxData|]; [|done].
  destruct (np_assign box rel moved) as [box1|]; [|done].
  case_decide.
  - pose proof (after_move_finish_frame s b rel boxData box1 None None).
    naive_solver.
  - destruct (kernel_on kernel s _ box1) as [e|[angles reduced]]; [done|].
    pose proof (after_move_finish_frame s b rel boxData box1
                  (Some angles) (Some reduced)).
    naive_solver.
Qed.

Lemma compute_before_move_frame s real box s1 :
  compute_before_move kernel s real box = Ok s1 ->
  data s1 = data s /\ standardError s1 = standardError s.
Proof.
  unfold compute_before_move.
  destruct (mapped_rows _ _) as [rows|]; [|done].
  case_decide; [by intros [= <-]|].
  destruct (kernel_on _ _ _ _) as [e|[angles reduced]]; [done|].
  by intros [= <-].
Qed.

Lemma compute_after_move_box s real rel moved box :
  let r := compute_after_move kernel s real rel moved box in
  match r with Ok (_, box') => box' = box | Raise _ _ => True end /\
  match activeAtomsDataBeforeMove s, np_take box rel,
        np_assign box rel moved with
  | Some b, Some _, Some box1 =>
      if decide (length (b_anglesIndexes b) = 0)
      then snd (state_of r) = box
      else match kernel_on kernel s (b_anglesIndexes b) box1 with
           | inl e => r = Raise e (s, box1)
           | inr _ => snd (state_of r) = box
           end
  | _, _, _ => is_ok r = false /\ state_of r = (s, box)
  end.
Proof.
  unfold compute_after_move.
  destruct (activeAtomsDataBeforeMove s) as [b|]; [|done].
  destruct (np_take box rel) as [boxData|] eqn:Htake; [|done].
  destruct (np_assign box rel moved) as [box1|] eqn:Hassign; [|done].
  assert (Hrestore : np_put box1 rel boxData = box).
  { apply np_assign_put in Hassign as [vs ->].
    by apply np_take_put_restore. }
  assert (Hfin : forall angles reduced,
    snd (state_of (after_move_finish s b rel boxData box1 angles reduced))
    = box).
  { intros angles reduced.
    pose proof (after_move_finish_frame s b rel boxData box1 angles reduced)
      as (_ & _ & Hb). simpl in Hb. by rewrite Hrestore in Hb. }
  assert (Hret : forall angles reduced,
    match after_move_finish s b rel boxData box1 angles reduced with
    | Ok (_, box') => box' = box
    | Raise _ _ => True
    end).
  { intros angles reduced. specialize (Hfin angles reduced).
    by destruct (after_move_finish _ _ _ _ _ _ _) as [[? ?]|? [? ?]]. }
  case_decide; [split; [apply Hret|apply Hfin]|].
  destruct (kernel_on kernel s _ box1) as [e|[angles reduced]] eqn:Hk.
  - by split.
  - split; [apply Hret|apply Hfin].
Qed.

End WithKernel.
End ImproperMoves.

(** ** Trial moves of the coordination constraint *)
Module CoordinationMoves.
Import Coordination PyFacts.

Section WithKernels.
Variable all_atoms_coord_number_coords :
  list vec3 -> tables -> list Q -> option (list Q).
Variable multi_atoms_coord_number_coords :
  list nat -> list vec3 -> tables -> list Q -> option (list Q).

Lemma coordination_after_move_box s indexes moved box :
  let r := compute_after_move multi_atoms_coord_number_coords s indexes
             moved box in
  match r with Ok (_, box') => box' = box | Raise _ _ => True end /\
  match np_take box indexes, np_assign box indexes moved with
  | Some _, Some box1 =>
      if coordNumDataIsArray s then
        match multi_atoms_coord_number_coords indexes box1 (defs s)
                (zeros_like (coordNumData s)) with
        | None => r = Raise KernelError (s, box1)
        | Some _ => snd (state_of r) = box
        end
      else r = Raise AttributeError (s, box1)
  | _, _ => is_ok r = false /\ state_of r = (s, box)
  end.
Proof.
  unfold compute_after_move.
  destruct (np_take box indexes) as [boxData|] eqn:Htake; [|done].
  destruct (np_assign box indexes moved) as [box1|] eqn:Hassign; [|done].
  assert (Hrestore : np_put box1 indexes boxData = box).
  { apply np_assign_put in Hassign as [vs ->].
    by apply np_take_put_restore. }
  destruct (coordNumDataIsArray s); [|done].
  destruct (multi_atoms_coord_number_coords _ box1 _ _) as [after|] eqn:Hk;
    [|done].
  rewrite Hrestore.
  destruct (patched_data _) as [e|d]; [done|].
  destruct (compute_standard_error _ d); done.
Qed.

Lemma coordination_after_move_frame s indexes moved box :
  let r := compute_after_move multi_atoms_coord_number_coords s indexes
             moved box in
  coordNumData (fst (state_of r)) = coordNumData s /\
  standardError (fst (state_of r)) = standardError s.
Proof.
  unfold compute_after_move.
  destruct (np_take box indexes) as [boxData|]; [|done].
  destruct (np_assign box indexes moved) as [box1|]; [|done].
  destruct (coordNumDataIsArray s); [|done].
  destruct (multi_atoms_coord_number_coords _ box1 _ _) as [after|]; [|done].
  destruct (patched_data _) as [e|d]; [done|].
  destruct (compute_standard_error _ d); done.
Qed.

Lemma coordination_before_move_frame s indexes box s1 :
  compute_before_move multi_atoms_coord_number_coords s indexes box = Ok s1 ->
  coordNumData s1 = coordNumData s /\ standardError s1 = standardError s.
Proof.
  unfold compute_before_move.
  destruct (coordNumDataIsArray s); [|done].
  destruct (multi_atoms_coord_number_coords _ _ _ _); [|done].
  by intros [= <-].
Qed.

(** What a cycle that ends in [accept_move] commits, and what
    [compute_data] commits: the first takes the two outputs of the
    subset kernel as they are, the second halves the output of the full
    kernel. *)
Lemma accept_move_commits s indexes moved box s1 s2 box2 s3 :
  compute_before_move multi_atoms_coord_number_coords s indexes box = Ok s1 ->
  compute_after_move multi_atoms_coord_number_coords s1 indexes moved box
    = Ok (s2, box2) ->
  accept_move s2 indexes = Ok s3 ->
  exists before box1 after diff,
    multi_atoms_coord_number_coords indexes box (defs s)
      (zeros_like (coordNumData s)) = Some before /\
    np_assign box indexes moved = Some box1 /\
    multi_atoms_coord_number_coords indexes box1 (defs s)
      (zeros_like (coordNumData s)) = Some after /\
    np_zip Qminus (coordNumData s) before = Some diff /\
    np_zip Qplus diff after = Some (coordNumData s3).
Proof.
  unfold compute_before_move, compute_after_move, accept_move.
  destruct (coordNumDataIsArray s) eqn:Harr; [|done].
  destruct (multi_atoms_coord_number_coords indexes box _ _) as [before|]
    eqn:Hb; [|done].
  intros [= <-]. simpl. rewrite Harr.
  destruct (np_take box indexes) as [boxData|]; [|done].
  destruct (np_assign box indexes moved) as [box1|]; [|done].
  destruct (multi_atoms_coord_number_coords indexes box1 _ _) as [after|]
    eqn:Ha; [|done].
  unfold patched_data. simpl.
  destruct (np_zip Qminus _ before) as [diff|] eqn:Hd; [|done].
  destruct (np_zip Qplus diff after) as [d|] eqn:Hp; [|done].
  destruct (compute_standard_error _ d); [done|].
  intros [= <- _]. simpl. intros [= <-]. simpl.
  by exists before, box1, after, diff.
Qed.

Lemma compute_data_commits s box s1 :
  compute_data all_atoms_coord_number_coords s box = Ok s1 ->
  exists raw,
    all_atoms_coord_number_coords box (defs s) (coordNumData s) = Some raw /\
    coordNumData s1 = (fun c => c / 2)%Q <$> raw.
Proof.
  unfold compute_data.
  destruct (all_atoms_coord_number_coords _ _ _) as [raw|]; [|done].
  destruct (coordNumDataIsArray s); [|done].
  destruct (compute_standard_error _ _); [done|].
  intros [= <-]. by exists raw.
Qed.

End WithKernels.
End CoordinationMoves.

(** ** Standard error of the coordination constraint *)
Module CoordinationError.
Import Coordination CoordinationSpec.

Lemma drop_cons_inv {A} (l : list A) i x l' :
  drop i l = x :: l' -> l !! i = Some x /\ drop (S i) l = l'.
Proof.
  intros H. split.
  - rewrite <- (Nat.add_0_r i), <- lookup_drop, H. done.
  - replace (S i) with (i + 1) by lia. rewrite <- drop_drop, H. done.
Qed.

Lemma standard_error_loop_sum d : forall coordNum ncores totals idx acc,
  coordNum = zip_with Qdiv totals ncores ->
  length totals = length ncores ->
  length (drop idx (minAtoms d)) = length totals ->
  length (drop idx (maxAtoms d)) = length totals ->
  length (drop idx (weights d)) = length totals ->
  exists se,
    standard_error_loop d idx coordNum acc = inr se /\
    (se == acc + deviations_sum totals ncores (drop idx (minAtoms d))
                   (drop idx (maxAtoms d)) (drop idx (weights d)))%Q.
Proof.
  intros coordNum ncores totals. revert coordNum ncores.
  induction totals as [|t totals IH]; intros coordNum ncores idx acc -> Hn Ha Hb Hc.
  - simpl. exists acc. split; [done|]. lra.
  - destruct ncores as [|n ncores]; [done|]. simpl in Hn.
    destruct (drop idx (minAtoms d)) as [|mn mns] eqn:Ea; [done|].
    destruct (drop idx (maxAtoms d)) as [|mx mxs] eqn:Eb; [done|].
    destruct (drop idx (weights d)) as [|w ws] eqn:Ec; [done|].
    apply drop_cons_inv in Ea as [Ea Ea'].
    apply drop_cons_inv in Eb as [Eb Eb'].
    apply drop_cons_inv in Ec as [Ec Ec'].
    simpl in Ha, Hb, Hc. simpl. rewrite Ea, Eb, Ec.
    unfold deviation.
    destruct (Qltb (t / n) mn).
    + destruct (IH _ ncores (S idx) (acc + w * (mn - t / n))%Q eq_refl)
        as (se & -> & Hse); try (rewrite ?Ea', ?Eb', ?Ec'; lia).
      exists se. split; [done|]. rewrite Hse, Ea', Eb', Ec'. lra.
    + destruct (Qltb mx (t / n)).
      * destruct (IH _ ncores (S idx) (acc + w * (t / n - mx))%Q eq_refl)
          as (se & -> & Hse); try (rewrite ?Ea', ?Eb', ?Ec'; lia).
        exists se. split; [done|]. rewrite Hse, Ea', Eb', Ec'. lra.
      * destruct (IH _ ncores (S idx) acc eq_refl)
          as (se & -> & Hse); try (rewrite ?Ea', ?Eb', ?Ec'; lia).
        exists se. split; [done|]. rewrite Hse, Ea', Eb', Ec'. lra.
Qed.

Lemma compute_standard_error_sum s data :
  length (numberOfCores (defs s)) = length data ->
  length (minAtoms (defs s)) = length data ->
  length (maxAtoms (defs s)) = length data ->
  length (weights (defs s)) = length data ->
  exists se,
    compute_standard_error s data = inr se /\
    (se == deviations_sum data (numberOfCores (defs s)) (minAtoms (defs s))
             (maxAtoms (defs s)) (weights (defs s)))%Q.
Proof.
  intros Hn Ha Hb Hc. unfold compute_standard_error, np_zip.
  case_decide; [|lia].
  destruct (standard_error_loop_sum (defs s) _ (numberOfCores (defs s)) data 0 0%Q
              eq_refl) as (se & Hse & Heq); rewrite ?drop_0; try lia.
  exists se. split; [done|]. rewrite Heq. unfold drop. lra.
Qed.

End CoordinationError.

(** ** Standard error of the angle constraint *)
Module ImproperError.
Import Improper ImproperSpec.

Lemma np_sum_from (l : list Q) : forall acc,
  (fold_left Qplus l acc == acc + fold_left Qplus l 0)%Q.
Proof.
  induction l as [|x l IH]; intros acc; simpl.
  - lra.
  - rewrite IH. rewrite (IH (0 + x)%Q). lra.
Qed.

Lemma compute_standard_error_squares d :
  (compute_standard_error d == sum_of_squares (d_reducedAngles d))%Q.
Proof.
  unfold compute_standard_error, np_sum.
  induction (d_reducedAngles d) as [|r l IH]; simpl.
  - lra.
  - rewrite np_sum_from, IH. lra.
Qed.

Lemma Qltb_true x y : Qltb x y = true <-> (x < y)%Q.
Proof.
  unfold Qltb. rewrite negb_true_iff, <- not_true_iff_false, Qle_bool_iff.
  split; [apply Qnot_le_lt|apply Qlt_not_le].
Qed.

Lemma Qltb_false x y : Qltb x y = false <-> (y <= x)%Q.
Proof.
  unfold Qltb. rewrite negb_false_iff, Qle_bool_iff. done.
Qed.

Lemma reduced_deviation_inside a lo up :
  (lo <= a)%Q -> (a <= up)%Q -> reduced_deviation a lo up = 0%Q.
Proof.
  intros H1 H2. unfold reduced_deviation.
  apply Qltb_false in H1, H2. by rewrite H1, H2.
Qed.

Lemma reduced_deviation_above a lo up :
  (lo <= a)%Q -> (up < a)%Q -> reduced_deviation a lo up = (a - up)%Q.
Proof.
  intros H1 H2. unfold reduced_deviation.
  apply Qltb_false in H1. apply Qltb_true in H2. by rewrite H1, H2.
Qed.

Lemma reduced_deviation_below a lo up :
  (a < lo)%Q -> reduced_deviation a lo up = (a - lo)%Q.
Proof.
  intros H1. unfold reduced_deviation. apply Qltb_true in H1. by rewrite H1.
Qed.

Lemma scenario_angle PI :
  (0 < PI)%Q ->
  (compute_standard_error
     (AData [to_rad PI 20]
        (reduced_deviations [to_rad PI 20] [to_rad PI (-10)] [to_rad PI 10]))
   == to_rad PI 10 * to_rad PI 10)%Q.
Proof.
  intros HPI. rewrite compute_standard_error_squares. simpl.
  rewrite reduced_deviation_above; unfold to_rad; [field|..].
  - apply Qmult_le_compat_r; [done|]. apply Qlt_le_weak.
    apply Qlt_shift_div_l; lra.
  - apply Qmult_lt_compat_r; [|done]. apply Qlt_shift_div_l; lra.
Qed.

End ImproperError.

(** ** Amputation and collected atoms *)
Module ImproperAmputation.
Import Improper ImproperSpec PyFacts ImproperMoves.

Lemma np_put_replicate_lookup {A} (v : A) idx : forall (a : list A) n k w,
  np_put a idx (replicate n v) !! k = Some w -> w = v \/ a !! k = Some w.
Proof.
  induction idx as [|i idx IH]; intros a [|n] k w; simpl; auto.
  intros H. apply IH in H as [?|H]; auto.
  destruct (decide (i = k)) as [->|Hne].
  - destruct (decide (k < length a)).
    + rewrite list_lookup_insert_eq in H by done. left. congruence.
    + rewrite list_insert_ge in H by lia. auto.
  - rewrite list_lookup_insert_ne in H by done. auto.
Qed.

Lemma np_put_replicate_in {A} (v : A) idx : forall (a : list A) k,
  (forall i, i ∈ idx -> i < length a) -> k ∈ idx ->
  np_put a idx (replicate (length idx) v) !! k = Some v.
Proof.
  induction idx as [|i idx IH]; intros a k Hrng Hk; simpl.
  - by apply elem_of_nil in Hk.
  - destruct (decide (k ∈ idx)) as [Hin|Hnin].
    + apply IH; [|done]. intros j Hj. rewrite length_insert.
      apply Hrng. by right.
    + rewrite np_put_lookup_notin by done.
      rewrite elem_of_cons in Hk. destruct Hk as [->|?]; [|done].
      apply list_lookup_insert_eq. apply Hrng. by left.
Qed.

Lemma in_range_spec {A} (a : list A) idx :
  in_range a idx = true <-> forall i, i ∈ idx -> i < length a.
Proof.
  unfold in_range. rewrite forallb_forall. split.
  - intros H i Hi. apply Nat.ltb_lt, H. by apply list_elem_of_In.
  - intros H i Hi. apply Nat.ltb_lt, H. by apply list_elem_of_In.
Qed.

Lemma np_assign_scalar {A} (a : list A) idx (v : A) b :
  np_assign a idx [v] = Some b ->
  b = np_put a idx (replicate (length idx) v) /\
  forall i, i ∈ idx -> i < length a.
Proof.
  unfold np_assign. destruct (in_range a idx) eqn:Hr; [|done].
  pose proof (proj1 (in_range_spec a idx) Hr) as Hr'. unfold np_broadcast.
  case_decide as Hl; simpl; intros [= <-]; split; try done.
  simpl in Hl. rewrite <- Hl. done.
Qed.

Lemma mapped_rows_single m a rows :
  mapped_rows m [a] = Some rows ->
  exists e, m !! a = Some e /\ rows = improperMap e ++ otherMap e.
Proof.
  unfold mapped_rows. simpl. destruct (m !! a) as [e|]; [|done].
  simpl. intros [= <-]. exists e. by rewrite app_nil_r.
Qed.

Lemma elem_of_py_set k l : k ∈ py_set l <-> k ∈ l.
Proof. unfold py_set. apply elem_of_remove_dups. Qed.

(** What [accept_amputation] of one atom does to the committed data. *)
Lemma accept_amputation_rows s a rel s1 :
  accept_amputation s [a] rel = Ok s1 ->
  exists e, angles s !! a = Some e /\
    anglesList s1 = anglesList s /\ angles s1 = angles s /\
    collected s1 = collected s /\ randomData s1 = randomData s /\
    activeAtomsDataBeforeMove s1 = None /\
    (forall k, k ∈ improperMap e ++ otherMap e ->
       exists d1, data s1 = Some d1 /\ d_angles d1 !! k = Some 0%Q /\
                  d_reducedAngles d1 !! k = Some 0%Q /\
                  standardError s1 = Some (compute_standard_error d1)) /\
    (forall k d d1, k ∉ improperMap e ++ otherMap e ->
       data s = Some d -> data s1 = Some d1 ->
       d_angles d1 !! k = d_angles d !! k /\
       d_reducedAngles d1 !! k = d_reducedAngles d !! k) /\
    (standardError s = compute_standard_error <$> data s ->
     standardError s1 = compute_standard_error <$> data s1).
Proof.
  unfold accept_amputation.
  destruct (mapped_rows _ _) as [rows|] eqn:Hrows; [|done].
  apply mapped_rows_single in Hrows as (e & He & ->).
  intros H. exists e. split; [done|].
  case_decide as Hlen.
  - simplify_eq. simpl. repeat split; try done.
    + intros k Hk. apply elem_of_py_set in Hk.
      apply length_zero_iff_nil in Hlen. rewrite Hlen in Hk.
      by apply elem_of_nil in Hk.
    + congruence.
    + congruence.
  - destruct (data s) as [d|] eqn:Hd; [|done].
    destruct (np_assign (d_angles d) _ _) as [angles'|] eqn:Ha; [|done].
    destruct (np_assign (d_reducedAngles d) _ _) as [reduced'|] eqn:Hr; [|done].
    simplify_eq. simpl.
    apply np_assign_scalar in Ha as [-> Hra].
    apply np_assign_scalar in Hr as [-> Hrr].
    repeat split; try done.
    + intros k Hk. apply elem_of_py_set in Hk. eexists. split; [done|]. simpl.
      split; [|split; [|done]]; by apply np_put_replicate_in.
    + intros. simplify_eq. simpl. apply np_put_lookup_notin.
      by rewrite elem_of_py_set.
    + intros. simplify_eq. simpl. apply np_put_lookup_notin.
      by rewrite elem_of_py_set.
Qed.


Lemma elem_of_py_set_diff k l (R : gset nat) :
  k ∈ py_set_diff l R <-> k ∈ l /\ k ∉ R.
Proof.
  unfold py_set_diff. rewrite list_elem_of_filter, elem_of_remove_dups. tauto.
Qed.

Lemma finish_compute_data_fields s angles reduced :
  let s' := finish_compute_data s angles reduced in
  data s' = Some (AData angles reduced) /\
  activeAtomsDataBeforeMove s' = None /\
  collected s' = collected s /\ randomData s' = randomData s.
Proof. unfold finish_compute_data. simpl. by destruct (originalData s). Qed.

Lemma increment_outside a rows after before a' k :
  increment a rows after before = inr a' -> k ∉ rows -> a' !! k = a !! k.
Proof.
  unfold increment. intros H Hk. repeat case_match; simplify_eq.
  by apply np_put_lookup_notin.
Qed.

Section Steps.
Variable kernel :
  list nat -> list nat -> list nat -> list nat -> list Q -> list Q ->
  list vec3 -> option (list Q * list Q).

Lemma tentative_standard_error_collector s b r :
  let s' := state_of (tentative_standard_error s b r) in
  activeAtomsDataBeforeMove s' = activeAtomsDataBeforeMove s /\
  collected s' = collected s /\ randomData s' = randomData s.
Proof. unfold tentative_standard_error. by repeat case_match. Qed.

Lemma after_move_finish_collector s b rel boxData box1 angles reduced s' box' :
  after_move_finish s b rel boxData box1 angles reduced = Ok (s', box') ->
  activeAtomsDataBeforeMove s' = activeAtomsDataBeforeMove s /\
  collected s' = collected s /\ randomData s' = randomData s.
Proof.
  unfold after_move_finish. destruct reduced as [r|].
  - pose proof (tentative_standard_error_collector
      (set_active_atoms_data_after_move s (Some (After angles (Some r)))) b r)
      as Hc.
    destruct (tentative_standard_error _ b r); simpl in *; [|done].
    by intros [= <- _].
  - by intros [= <- _].
Qed.

Lemma compute_after_move_collector s real rel moved box s' box' :
  compute_after_move kernel s real rel moved box = Ok (s', box') ->
  activeAtomsDataBeforeMove s' = activeAtomsDataBeforeMove s /\
  collected s' = collected s /\ randomData s' = randomData s.
Proof.
  unfold compute_after_move.
  destruct (activeAtomsDataBeforeMove s) as [b|] eqn:Hb; [|done].
  destruct (np_take box rel) as [boxData|]; [|done].
  destruct (np_assign box rel moved) as [box1|]; [|done].
  case_decide.
  - intros Hf. apply after_move_finish_collector in Hf. by rewrite Hb in Hf.
  - destruct (kernel_on kernel s _ box1) as [e|[angles reduced]]; [done|].
    intros Hf. apply after_move_finish_collector in Hf. by rewrite Hb in Hf.
Qed.

Lemma step_collected_zero K s s' :
  step kernel s s' -> collected_zero K s -> collected_zero K s'.
Proof.
  intros Hstep [Hcol Hrand Hzero Hbef].
  destruct Hstep as [s box s' H|s real box s' H|s real rel moved box s' box' H
                    |s real rel s' H|s real rel s' H|s real rel s' H
                    |s real rel s' H].
  - (* compute_data *)
    unfold compute_data in H. case_decide as Hc.
    { by apply length_zero_iff_nil in Hc. }
    destruct (kernel_on _ _ _ _) as [e|[angles reduced]]; [done|].
    destruct (np_assign _ _ angles) as [anglesData|]; [|done].
    destruct (np_assign _ _ reduced) as [reducedData|] eqn:Hr; [|done].
    simplify_eq.
    destruct (finish_compute_data_fields s anglesData reducedData)
      as (Hd & Hb & Hc1 & Hr1).
    split; rewrite ?Hc1, ?Hr1; try done.
    + intros k d v Hk Hd' Hv. rewrite Hd in Hd'. simplify_eq. simpl in Hv.
      apply np_assign_put in Hr as [vs ->].
      rewrite np_put_lookup_notin in Hv.
      * by apply lookup_replicate in Hv as [-> _].
      * rewrite elem_of_py_set_diff. intros [_ Hn]. by apply Hn, Hrand.
    + intros b k Hb'. by rewrite Hb in Hb'.
  - (* compute_before_move *)
    unfold compute_before_move in H.
    destruct (mapped_rows _ _) as [rows|]; [|done].
    assert (Hdis : forall k, k ∈ py_set_diff rows (randomData s) ->
                             k ∉ randomData s).
    { intros k Hk. by apply elem_of_py_set_diff in Hk as [_ ?]. }
    case_decide.
    + simplify_eq. split; simpl; try done.
      intros b k [= <-]. simpl. apply Hdis.
    + destruct (kernel_on _ _ _ _) as [e|[angles reduced]]; [done|].
      simplify_eq. split; simpl; try done.
      intros b k [= <-]. simpl. apply Hdis.
  - (* compute_after_move *)
    pose proof (compute_after_move_collector _ _ _ _ _ _ _ H) as (Hb & Hc & Hr).
    pose proof (compute_after_move_frame kernel s real rel moved box) as [Hd _].
    simpl in Hd. rewrite H in Hd. simpl in Hd.
    split; rewrite ?Hc, ?Hr, ?Hb, ?Hd; done.
  - (* accept_move *)
    unfold accept_move in H.
    destruct (activeAtomsDataBeforeMove s) as [b|] eqn:Hb; [|done].
    case_decide.
    + simplify_eq. split; simpl; try done.
    + destruct (data s) as [d|] eqn:Hd; [|done].
      destruct (activeAtomsDataAfterMove s) as [a|]; [|done].
      destruct (increment (d_angles d) _ _ _) as [e|angles']; [done|].
      destruct (increment (d_reducedAngles d) _ _ _) as [e|reduced'] eqn:Hi;
        [done|].
      simplify_eq. split; simpl; try done.
      intros k d' v Hk [= <-] Hv. simpl in Hv.
      rewrite (increment_outside _ _ _ _ _ k Hi) in Hv.
      * by eapply Hzero.
      * intros Hin. by apply (Hbef b k eq_refl Hin), Hrand.
  - (* reject_move *)
    unfold reject_move in H. simplify_eq. split; simpl; done.
  - (* accept_amputation *)
    unfold accept_amputation in H.
    destruct (mapped_rows _ _) as [rows|]; [|done].
    case_decide.
    + simplify_eq. split; simpl; done.
    + destruct (data s) as [d|] eqn:Hd; [|done].
      destruct (np_assign (d_angles d) _ _) as [angles'|]; [|done].
      destruct (np_assign (d_reducedAngles d) _ _) as [reduced'|] eqn:Hr;
        [|done].
      simplify_eq. split; simpl; try done.
      intros k d' v Hk [= <-] Hv. simpl in Hv.
      apply np_assign_scalar in Hr as [-> _].
      apply np_put_replicate_lookup in Hv as [?|Hv]; [done|].
      by eapply Hzero.
  - (* reject_amputation *)
    unfold reject_amputation in H. by simplify_eq.
Qed.

Lemma steps_collected_zero K s s' :
  rtc (step kernel) s s' -> collected_zero K s -> collected_zero K s'.
Proof.
  induction 1 as [|s s1 s2 Hstep _ IH]; [done|].
  intros Hz. apply IH. by eapply step_collected_zero.
Qed.

End Steps.

Lemma collected_zero_contribution K s k :
  collected_zero K s -> k ∈ K -> contribution s k = 0%Q.
Proof.
  intros [_ _ Hzero _] Hk. unfold contribution.
  destruct (data s) as [d|] eqn:Hd; [|done].
  destruct (d_reducedAngles d !! k) as [v|] eqn:Hv; [|done].
  by rewrite (Hzero k d v Hk eq_refl Hv).
Qed.

(** After the amputation of [a] is accepted and the atom collected, its
    rows are collected rows holding zero. *)
Lemma amputation_collected_zero s a rel s1 s2 :
  accept_amputation s [a] rel = Ok s1 ->
  on_collector_collect_atom s1 a = Ok s2 ->
  exists e, angles s !! a = Some e /\
            collected_zero (improperMap e ++ otherMap e) s2.
Proof.
  intros Ha Hc.
  apply accept_amputation_rows in Ha
    as (e & He & Hl & Hm & _ & _ & Hb & Hz & _ & _).
  exists e. split; [done|].
  unfold on_collector_collect_atom in Hc. rewrite Hm, He in Hc.
  simplify_eq. split; simpl.
  - intros Hnil. by apply app_eq_nil in Hnil as [_ ?].
  - intros k Hk. apply elem_of_union. right. by apply elem_of_list_to_set.
  - intros k d v Hk Hd Hv. destruct (Hz k Hk) as (d1 & Hd1 & _ & Hv1 & _).
    congruence.
  - intros b k Hb'. by rewrite Hb in Hb'.
Qed.

End ImproperAmputation.

(** ** Which coordination definitions compile *)
Module CoordinationCompile.
Import Coordination CoordinationSpec ImproperError.

Lemma compile_def_valid e s d :
  named d -> (is_ok (compile_def e s d) = true <-> valid_def e d).
Proof.
  intros (c & sh & Hc & Hsh). unfold valid_def, spec_checks, compile_def.
  rewrite Hc, Hsh. simpl. unfold check.
  case_bool_decide as H1; simpl.
  2:{ split; [done|]. intros [[(c' & sh' & ? & ? & ? & ?) _] _]. naive_solver. }
  case_bool_decide as H2; simpl.
  2:{ split; [done|]. intros [[(c' & sh' & ? & ? & ? & ?) _] _]. naive_solver. }
  destruct (Qle_bool 0 (lowerShell d)) eqn:E1.
  2:{ split; [done|]. intros (_ & Hl & _). apply Qle_bool_iff in Hl. congruence. }
  destruct (Qltb (lowerShell d) (upperShell d)) eqn:E2.
  2:{ split; [done|]. intros ((_ & Hl & _) & _). apply Qltb_true in Hl.
      congruence. }
  destruct (Qle_bool 0 (minCN d)) eqn:E3.
  2:{ split; [done|]. intros (_ & _ & Hl). apply Qle_bool_iff in Hl. congruence. }
  destruct (Qle_bool (minCN d) (maxCN d)) eqn:E4.
  2:{ split; [done|]. intros ((_ & _ & Hl & _) & _). apply Qle_bool_iff in Hl.
      congruence. }
  destruct (Qltb 0 (default 1%Q (weight d))) eqn:E5.
  2:{ split; [done|]. intros ((_ & _ & _ & Hl) & _). apply Qltb_true in Hl.
      congruence. }
  simpl. split; [|done]. intros _.
  apply Qle_bool_iff in E1, E3, E4. apply Qltb_true in E2, E5.
  repeat split; try done. by exists c, sh.
Qed.

Lemma indexes_of_bound name els : forall idx a,
  a ∈ indexes_of name els idx -> a < idx + length els.
Proof.
  induction els as [|el els IH]; intros idx a; simpl.
  - intros Ha. by apply elem_of_nil in Ha.
  - case_decide.
    + rewrite elem_of_cons. intros [-> |Ha]; [lia|]. apply IH in Ha. lia.
    + intros Ha. apply IH in Ha. lia.
Qed.

Lemma elem_of_sorted_set a l : a ∈ sorted_set l <-> a ∈ l.
Proof.
  unfold sorted_set. rewrite merge_sort_Permutation. apply elem_of_remove_dups.
Qed.

Lemma resolve_bound e sel idxs a :
  resolve e sel = inr idxs -> a ∈ sorted_set idxs ->
  a < length (allElements e).
Proof.
  destruct sel as [name| |]; simpl; [|done..].
  case_bool_decide; [|done]. intros [= <-] Ha.
  apply elem_of_sorted_set, indexes_of_bound in Ha. lia.
Qed.

Lemma compile_def_bounded e s d s' :
  compile_def e s d = Ok s' ->
  bounded e (coresIndexes (defs s)) -> bounded e (shellsIndexes (defs s)) ->
  bounded e (coresIndexes (defs s')) /\ bounded e (shellsIndexes (defs s')).
Proof.
  unfold compile_def, check. intros H Hc Hs.
  destruct (resolve e (coreDef d)) as [|core] eqn:Rc; [done|].
  destruct (resolve e (shellDef d)) as [|shell] eqn:Rs; [done|].
  repeat (case_match; [|done]). simplify_eq. simpl.
  split; intros idxs a; rewrite elem_of_app, list_elem_of_singleton;
    (intros [?| ->]; [eauto|]); intros Ha.
  - eapply resolve_bound; [exact Rc|exact Ha].
  - eapply resolve_bound; [exact Rs|exact Ha].
Qed.

Lemma compile_defs_valid e l : forall s,
  Forall named l ->
  (is_ok (compile_defs e s l) = true <-> Forall (valid_def e) l).
Proof.
  induction l as [|d l IH]; intros s Hn; simpl.
  - split; [by constructor|done].
  - inversion Hn as [|? ? Hd Hl]; subst.
    pose proof (compile_def_valid e s d Hd) as Hv.
    destruct (compile_def e s d) as [s1|]; simpl in *.
    + rewrite (IH s1 Hl), Forall_cons. tauto.
    + rewrite Forall_cons. split; [done|]. intros [? _]. by apply Hv.
Qed.

Lemma compile_defs_bounded e l : forall s s',
  compile_defs e s l = Ok s' ->
  bounded e (coresIndexes (defs s)) -> bounded e (shellsIndexes (defs s)) ->
  bounded e (coresIndexes (defs s')) /\ bounded e (shellsIndexes (defs s')).
Proof.
  induction l as [|d l IH]; intros s s' H Hc Hs; simpl in H.
  - by simplify_eq.
  - destruct (compile_def e s d) as [s1|] eqn:H1; [|done].
    destruct (compile_def_bounded _ _ _ _ H1 Hc Hs). eauto.
Qed.

Lemma point_atoms_total indexes : forall table d,
  (forall a, a ∈ indexes -> a < length table) ->
  is_ok (point_atoms table d indexes) = true.
Proof.
  induction indexes as [|i indexes IH]; intros table d Hb; simpl; [done|].
  destruct (lookup_lt_is_Some_2 table i) as [l ->].
  { apply Hb. by left. }
  apply IH. intros a Ha. rewrite length_insert. apply Hb. by right.
Qed.

Lemma point_defs_total sets : forall table k,
  (forall idxs a, idxs ∈ sets -> a ∈ idxs -> a < length table) ->
  is_ok (point_defs table k sets) = true.
Proof.
  induction sets as [|idxs sets IH]; intros table k Hb; simpl; [done|].
  pose proof (point_atoms_total idxs table k) as Ht.
  destruct (point_atoms table k idxs) as [table1|] eqn:H1.
  - apply CoordinationFacts.point_atoms_Ok in H1 as (Hlen & _).
    apply IH. intros i a Hi Ha. rewrite Hlen. eapply Hb; [by right|done].
  - apply Ht. intros a Ha. eapply Hb; [by left|done].
Qed.

Lemma set_definition_valid s e l :
  engine s = Some e ->
  length (allElements e) <= numberOfAtoms e ->
  Forall named l ->
  (is_ok (set_coordination_number_definition s (Some l)) = true <->
   Forall (valid_def e) l).
Proof.
  intros He Hn Hl. unfold set_coordination_number_definition. rewrite He.
  simpl. rewrite <- (compile_defs_valid e l (initialize_constraint_data s) Hl).
  destruct (compile_defs e _ l) as [s1|] eqn:Hc; [|done]. simpl.
  apply compile_defs_bounded in Hc as [Hbc Hbs];
    [|intros ? ? H; by apply elem_of_nil in H..].
  pose proof (point_defs_total (coresIndexes (defs s1))
                (replicate (numberOfAtoms e) []) 0) as Tc.
  pose proof (point_defs_total (shellsIndexes (defs s1))
                (replicate (numberOfAtoms e) []) 0) as Ts.
  rewrite length_replicate in Tc, Ts.
  destruct (point_defs _ 0 (coresIndexes _)).
  - destruct (point_defs _ 0 (shellsIndexes _)); [done|].
    split; [done|]. intros _. apply Ts. intros i a Hi Ha.
    specialize (Hbs i a Hi Ha). lia.
  - split; [done|]. intros _. apply Tc. intros i a Hi Ha.
    specialize (Hbc i a Hi Ha). lia.
Qed.

End CoordinationCompile.

(** ** Which angle definitions compile *)
Module ImproperCompile.
Import Improper ImproperSpec ImproperFacts.

Lemma sorted3_perm a b c a' b' c' :
  [a; b; c] ≡ₚ [a'; b'; c'] -> sorted3 a b c = sorted3 a' b' c'.
Proof.
  intros Hp. unfold sorted3. apply (Sorted_unique Nat.le).
  - apply Sorted_merge_sort; apply _.
  - apply Sorted_merge_sort; apply _.
  - by rewrite !merge_sort_Permutation.
Qed.

Lemma py_index_Some x l : forall p, py_index x l = Some p -> l !! p = Some x.
Proof.
  induction l as [|y l IH]; intros p; simpl; [done|].
  case_decide as Hxy.
  - intros [= <-]. by subst.
  - destruct (py_index x l) as [q|]; [|done]. simpl. intros [= <-].
    simpl. by apply IH.
Qed.

Lemma same_pos_Some a b c p :
  same_pos (a, b, c) = Some p -> a = Some p /\ b = Some p /\ c = Some p.
Proof.
  unfold same_pos. destruct a as [a|], b as [b|], c as [c|]; try done.
  repeat case_decide; try done. intros [= <-]. by subst.
Qed.

Lemma redefining_same_pos e o x y p :
  same_pos (redefining e o x y) = Some p ->
  exists o1 x1 y1,
    oIdx e !! p = Some o1 /\ xIdx e !! p = Some x1 /\ yIdx e !! p = Some y1 /\
    sorted3 o x y = sorted3 o1 x1 y1.
Proof.
  unfold redefining.
  repeat case_match; intros Hsp;
    apply same_pos_Some in Hsp as (Hp1 & Hp2 & Hp3); try done;
    apply py_index_Some in Hp1; apply py_index_Some in Hp2;
    apply py_index_Some in Hp3;
    do 3 eexists; (split; [eassumption|]); (split; [eassumption|]);
    (split; [eassumption|]); apply sorted3_perm.
  - done.
  - apply perm_skip, perm_swap.
  - apply perm_swap.
  - apply (reverse_Permutation [y; x; o]).
Qed.

Lemma entries_ok_empty : entries_ok empty_table ∅.
Proof.
  split; simpl; done.
Qed.


Lemma lookup_snoc_lt {A} (l : list A) v k a :
  l !! k = Some a -> (l ++ [v]) !! k = Some a.
Proof. intros H. apply lookup_app_l_Some. done. Qed.

Lemma store_angle_entries s i o x y lo up :
  entries_ok (anglesList s) (angles s) ->
  i <> o -> i <> x -> i <> y -> o <> x -> o <> y -> x <> y ->
  exists s', store_angle s i o x y lo up = Ok s' /\
             entries_ok (anglesList s') (angles s').
Proof.
  intros [Ho Hx Hy Hlens Hrows] Hio Hix Hiy Hox Hoy Hxy.
  unfold store_angle.
  destruct (same_pos _) as [p|] eqn:Hsp.
  - apply redefining_same_pos in Hsp as (o1 & x1 & y1 & Eo1 & Ex1 & Ey1 & Hs1).
    destruct (Hlens i) as (Lx & Ly & Lm).
    assert (Hp : p < length (improperMap (get_entry (angles s) i))).
    { rewrite Lm. by eapply lookup_lt_Some. }
    destruct (lookup_lt_is_Some_2 _ _ Hp) as [row Erow]. rewrite Erow.
    destruct (Hrows i p row o1 x1 y1 Erow Eo1 Ex1 Ey1)
      as (Ei & o' & x' & y' & Eo' & Ex' & Ey' & Hs').
    rewrite Ei. unfold check.
    rewrite bool_decide_eq_true_2 by done.
    rewrite Eo', Ex', Ey'.
    rewrite bool_decide_eq_true_2 by congruence.
    eexists. split; [done|].
    match goal with
    | |- entries_ok (anglesList (after_dump ?t)) _ =>
        destruct (after_dump_defs t) as (-> & -> & _)
    end.
    simpl.
    assert (Hlt : row < length (improperIdxs (anglesList s)))
      by (by eapply lookup_lt_Some).
    split; simpl; rewrite ?length_insert; try done.
    + intros a. rewrite get_entry_publish_same. apply Hlens.
    + intros a q r oq xq yq. rewrite get_entry_publish_same.
      intros Er Eoq Exq Eyq.
      destruct (Hrows a q r oq xq yq Er Eoq Exq Eyq)
        as (Ea & o2 & x2 & y2 & Eo2 & Ex2 & Ey2 & Hs2).
      split; [done|].
      destruct (decide (r = row)) as [->|Hne].
      * exists o, x, y. rewrite !list_lookup_insert_eq by lia.
        repeat split; try done. simplify_eq. congruence.
      * exists o2, x2, y2. rewrite !list_lookup_insert_ne by done. done.
  - eexists. split; [done|].
    match goal with
    | |- entries_ok (anglesList (after_dump ?t)) _ =>
        destruct (after_dump_defs t) as (-> & -> & _)
    end.
    simpl. set (n := length (improperIdxs (anglesList s))).
    split; simpl; rewrite ?length_app; simpl; try lia.
    + intros a. rewrite get_entry_publish. destruct (Hlens a) as (? & ? & ?).
      destruct (Hlens i) as (? & ? & ?); destruct (Hlens o) as (? & ? & ?);
      destruct (Hlens x) as (? & ? & ?); destruct (Hlens y) as (? & ? & ?).
      repeat case_decide; simpl; rewrite ?length_app; simpl;
        repeat split; lia.
    + intros a q r oq xq yq. rewrite get_entry_publish.
      assert (Hold : forall a,
        improperMap (get_entry (angles s) a) !! q = Some r ->
        oIdx (get_entry (angles s) a) !! q = Some oq ->
        xIdx (get_entry (angles s) a) !! q = Some xq ->
        yIdx (get_entry (angles s) a) !! q = Some yq ->
        (improperIdxs (anglesList s) ++ [i]) !! r = Some a /\
        exists o' x' y',
          (oIdxs (anglesList s) ++ [o]) !! r = Some o' /\
          (xIdxs (anglesList s) ++ [x]) !! r = Some x' /\
          (yIdxs (anglesList s) ++ [y]) !! r = Some y' /\
          sorted3 oq xq yq = sorted3 o' x' y').
      { intros a0 Er Eoq Exq Eyq.
        destruct (Hrows a0 q r oq xq yq Er Eoq Exq Eyq)
          as (Ea & o2 & x2 & y2 & Eo2 & Ex2 & Ey2 & Hs2).
        split; [by apply lookup_snoc_lt|].
        exists o2, x2, y2. repeat split; try done; by apply lookup_snoc_lt. }
      destruct (Hlens i) as (Lx & Ly & Lm).
      repeat case_decide; simpl; try (by apply Hold);
        try (subst a; by apply Hold). subst a.
      intros Er Eoq Exq Eyq.
      rewrite lookup_snoc_Some in Er, Eoq, Exq, Eyq.
      rewrite Lm in Er. rewrite Lx in Exq. rewrite Ly in Eyq.
      destruct Er as [Er|[-> ->]], Eoq as [Eoq|[Hq1 ->]],
               Exq as [Exq|[Hq2 ->]], Eyq as [Eyq|[Hq3 ->]];
        try (apply lookup_lt_Some in Er; lia);
        try (apply lookup_lt_Some in Eoq; lia);
        try (apply lookup_lt_Some in Exq; lia);
        try (apply lookup_lt_Some in Eyq; lia).
      * by apply Hold.
      * split.
        -- apply lookup_snoc_Some. right. done.
        -- exists o, x, y. rewrite !lookup_snoc_Some, Ho, Hx, Hy.
           repeat split; try done; right; done.
Qed.

Lemma add_angle_valid PI s N a :
  numberOfAtoms s = Some N ->
  entries_ok (anglesList s) (angles s) ->
  (is_ok (add_angle PI s a) = true <-> valid_angle N a = true) /\
  forall s', add_angle PI s a = Ok s' ->
    entries_ok (anglesList s') (angles s') /\ numberOfAtoms s' = Some N.
Proof.
  intros HN Hok. rewrite (add_angle_unfold PI s N a HN).
  destruct a as [[[[[zi zo] zx] zy] lower] upper].
  destruct (valid_angle N _) eqn:Hv; [|done].
  apply valid_angle_spec in Hv as (Hr & Hd & _).
  destruct (store_angle_entries s (Z.to_nat zi) (Z.to_nat zo) (Z.to_nat zx)
              (Z.to_nat zy) (to_rad PI lower) (to_rad PI upper) Hok)
    as (s1 & Hs1 & Hok1); try lia.
  rewrite Hs1. split; [done|]. intros s' [= <-]. split; [done|].
  rewrite <- HN. by eapply store_angle_numberOfAtoms.
Qed.

Lemma add_angles_valid PI N l : forall s,
  numberOfAtoms s = Some N ->
  entries_ok (anglesList s) (angles s) ->
  (is_ok (add_angles PI s (Some <$> l)) = true <->
   Forall (fun a => valid_angle N a = true) l).
Proof.
  induction l as [|a l IH]; intros s HN Hok; simpl.
  - split; [by constructor|done].
  - destruct (add_angle_valid PI s N a HN Hok) as [Hv Hnext].
    rewrite Forall_cons.
    destruct (add_angle PI s a) as [s1|]; simpl in *.
    + destruct (Hnext s1 eq_refl) as [Hok1 HN1].
      rewrite (IH s1 HN1 Hok1). tauto.
    + split; [done|]. intros [? _]. by apply Hv.
Qed.

Lemma set_angles_valid PI s N l :
  numberOfAtoms s = Some N ->
  (is_ok (set_angles PI s (ArgTuples l)) = true <->
   Forall (fun a => valid_angle N a = true) l).
Proof.
  intros HN. unfold set_angles. rewrite HN. simpl.
  rewrite <- (add_angles_valid PI N l
               (set_dumpAngles (set_defs s empty_table ∅) false) HN
               entries_ok_empty).
  by destruct (add_angles _ _ _).
Qed.

End ImproperCompile.

(** ** The properties of the specification *)
Module Claims.
#[local] Open Scope string_scope.
Import Examples.

(** C2, as written, fails: when the subset kernel raises inside
    [compute_after_move], the exception leaves the method before the
    line that writes the old coordinates back, and the store holds the
    trial coordinates. *)
Lemma after_move_leaves_trial_coordinates :
  ~ (forall multi s indexes moved box,
       snd (state_of (Coordination.compute_after_move multi s indexes moved box))
       = box).
Proof.
  intros H.
  specialize (H multi_raises coordination0 [3] [(0, 0, 6 # 5)%Q] box5).
  vm_compute in H. discriminate.
Qed.

(** C2, amended: on both constraints [compute_after_move] leaves the
    shared coordinate store equal to its value before the call whenever
    it returns, and whenever it raises before the trial coordinates are
    written or after they are written back.  Every exception between
    the two writes leaves the trial coordinates in the store.  In the
    angle constraint that is an exception of the geometry step, the
    lookup of the rows or the kernel.  In the coordination constraint
    it is an exception of the kernel, or the AttributeError of reading
    the shape of [__coordNumData] while that is still the list that
    [__initialize_constraint_data] made, no definition having compiled
    since.  In every other case the store is the one of before. *)
Theorem after_move_restores_coordinates
    kernel multi (sa : Improper.t) real rel moved box
    (sc : Coordination.t) indexes movedc boxc :
  let ra := Improper.compute_after_move kernel sa real rel moved box in
  let rc := Coordination.compute_after_move multi sc indexes movedc boxc in
  (match ra with Ok (_, box') => box' = box | Raise _ _ => True end /\
   match Improper.activeAtomsDataBeforeMove sa, np_take box rel,
         np_assign box rel moved with
   | Some b, Some _, Some box1 =>
       if decide (length (Improper.b_anglesIndexes b) = 0)
       then snd (state_of ra) = box
       else match Improper.kernel_on kernel sa (Improper.b_anglesIndexes b)
                    box1 with
            | inl e => ra = Raise e (sa, box1)
            | inr _ => snd (state_of ra) = box
            end
   | _, _, _ => is_ok ra = false /\ state_of ra = (sa, box)
   end) /\
  (match rc with Ok (_, box') => box' = boxc | Raise _ _ => True end /\
   match np_take boxc indexes, np_assign boxc indexes movedc with
   | Some _, Some box1 =>
       if Coordination.coordNumDataIsArray sc then
         match multi indexes box1 (Coordination.defs sc)
                 (Coordination.zeros_like (Coordination.coordNumData sc)) with
         | None => rc = Raise KernelError (sc, box1)
         | Some _ => snd (state_of rc) = boxc
         end
       else rc = Raise AttributeError (sc, box1)
   | _, _ => is_ok rc = false /\ state_of rc = (sc, boxc)
   end).
Proof.
  split.
  - apply ImproperMoves.compute_after_move_box.
  - apply CoordinationMoves.coordination_after_move_box.
Qed.

(** C3: a definition that fails validation does not leave the
    coordination constraint as it was.  With the definition
    [('A','B',0.5,2.0,2,2)] compiled, setting [('A','B',2.0,0.5,2,2)]
    raises AssertionError and leaves every table empty. *)
Theorem failed_definition_empties_tables :
  Coordination.coresIndexes (Coordination.defs coordination0) = [[0]] /\
  Coordination.asCoreDefIdxs (Coordination.defs coordination0)
    = [[0]; []; []; []] /\
  exists s1,
    Coordination.set_coordination_number_definition coordination0
      (Some [shell_AB_swapped]) = Raise AssertionError s1 /\
    Coordination.defs s1 = Coordination.empty_tables /\
    Coordination.coordNumDef s1 = None.
Proof.
  split; [reflexivity|]. split; [reflexivity|].
  eexists. split; [vm_compute; reflexivity|]. split; reflexivity.
Qed.

(** C4: after [compute_before_move] and [compute_after_move], a
    [reject_move] leaves the committed data and the committed standard
    error of both constraints identical to what they were before the
    cycle; the angle constraint's committed data are identical already
    when [compute_after_move] returns, the patch of the reduced angles
    having been taken out again. *)
Theorem reject_move_restores_committed
    kernel multi (sa sa1 sa2 sa3 : Improper.t) real rel moved box box'
    (sc sc1 sc2 sc3 : Coordination.t) indexes movedc boxc boxc' :
  Improper.compute_before_move kernel sa real box = Ok sa1 ->
  Improper.compute_after_move kernel sa1 real rel moved box = Ok (sa2, box') ->
  Improper.reject_move sa2 real rel = Ok sa3 ->
  Coordination.compute_before_move multi sc indexes boxc = Ok sc1 ->
  Coordination.compute_after_move multi sc1 indexes movedc boxc
    = Ok (sc2, boxc') ->
  Coordination.reject_move sc2 indexes = Ok sc3 ->
  (Improper.data sa2 = Improper.data sa /\
   Improper.data sa3 = Improper.data sa /\
   Improper.standardError sa3 = Improper.standardError sa) /\
  (Coordination.coordNumData sc3 = Coordination.coordNumData sc /\
   Coordination.standardError sc3 = Coordination.standardError sc).
Proof.
  intros Hb Ha Hr Hcb Hca Hcr.
  apply ImproperMoves.compute_before_move_frame in Hb as [Hb1 Hb2].
  pose proof (ImproperMoves.compute_after_move_frame kernel sa1 real rel moved box)
    as [Ha1 Ha2]. simpl in Ha1, Ha2. rewrite Ha in Ha1, Ha2. simpl in Ha1, Ha2.
  unfold Improper.reject_move in Hr. simplify_eq.
  apply (CoordinationMoves.coordination_before_move_frame multi) in Hcb
    as [Hcb1 Hcb2].
  pose proof (CoordinationMoves.coordination_after_move_frame multi sc1 indexes
                movedc boxc) as [Hca1 Hca2].
  simpl in Hca1, Hca2. rewrite Hca in Hca1, Hca2. simpl in Hca1, Hca2.
  unfold Coordination.reject_move in Hcr. simplify_eq. simpl.
  repeat split; congruence.
Qed.

Lemma reject_move_restores_committed_witness :
  let sa1 := state_of (Improper.compute_before_move angle_kernel improper1 [3] box5) in
  let ra := Improper.compute_after_move angle_kernel sa1 [3] [3]
              [(0, 6 # 5, 0)%Q] box5 in
  let sa2 := fst (state_of ra) in
  let sc1 := state_of (Coordination.compute_before_move multi_zero
                         coordination0 [3] box5) in
  let rc := Coordination.compute_after_move multi_zero sc1 [3]
              [(0, 6 # 5, 0)%Q] box5 in
  let sc2 := fst (state_of rc) in
  (is_ok (Improper.compute_before_move angle_kernel improper1 [3] box5) = true /\
   is_ok ra = true /\
   is_ok (Coordination.compute_before_move multi_zero coordination0 [3] box5)
     = true /\
   is_ok rc = true) /\
  (Improper.data sa2 = Improper.data improper1 /\
   Improper.data (Improper.clear_active sa2) = Improper.data improper1 /\
   Improper.standardError (Improper.clear_active sa2)
     = Improper.standardError improper1) /\
  (Coordination.coordNumData
     (Coordination.set_after_move_standard_error
        (Coordination.clear_active sc2) None)
   = Coordination.coordNumData coordination0 /\
   Coordination.standardError
     (Coordination.set_after_move_standard_error
        (Coordination.clear_active sc2) None)
   = Coordination.standardError coordination0).
Proof.
  intros sa1 ra sa2 sc1 rc sc2.
  split; [by vm_compute|].
  apply (reject_move_restores_committed angle_kernel multi_zero
           improper1 sa1 sa2 _ [3] [3] [(0, 6 # 5, 0)%Q] box5 (snd (state_of ra))
           coordination0 sc1 sc2 _ [3] [(0, 6 # 5, 0)%Q] box5
           (snd (state_of rc)));
    vm_compute; reflexivity.
Defined.


(** C5: [compute_standard_error] of the coordination constraint
    returns the sum over the definitions of [weight*(nMin - mean)] when
    [mean < nMin], of [weight*(mean - nMax)] when [mean > nMax] and of 0
    otherwise, [mean] being the total count of the definition divided
    by its number of core atoms. *)
Theorem coordination_standard_error_is_deviation_sum
    (s : Coordination.t) (data : list Q) :
  length (Coordination.numberOfCores (Coordination.defs s)) = length data ->
  length (Coordination.minAtoms (Coordination.defs s)) = length data ->
  length (Coordination.maxAtoms (Coordination.defs s)) = length data ->
  length (Coordination.weights (Coordination.defs s)) = length data ->
  Forall (fun n => ~ (n == 0)%Q)
         (Coordination.numberOfCores (Coordination.defs s)) ->
  exists se,
    Coordination.compute_standard_error s data = inr se /\
    (se == CoordinationSpec.deviations_sum data
             (Coordination.numberOfCores (Coordination.defs s))
             (Coordination.minAtoms (Coordination.defs s))
             (Coordination.maxAtoms (Coordination.defs s))
             (Coordination.weights (Coordination.defs s)))%Q.
Proof.
  intros Hn Ha Hb Hc _.
  by apply CoordinationError.compute_standard_error_sum.
Qed.

(** One core atom that counts 3 neighbours against [nMin = nMax = 2]
    with weight 1: the standard error is 1. *)
Lemma coordination_standard_error_is_deviation_sum_witness :
  Coordination.numberOfCores (Coordination.defs coordination0) = [1%Q] /\
  Coordination.minAtoms (Coordination.defs coordination0) = [2%Q] /\
  Coordination.maxAtoms (Coordination.defs coordination0) = [2%Q] /\
  Coordination.weights (Coordination.defs coordination0) = [1%Q] /\
  exists se,
    Coordination.compute_standard_error coordination0 [3%Q] = inr se /\
    (se == 1)%Q.
Proof.
  do 4 (split; [reflexivity|]).
  destruct (coordination_standard_error_is_deviation_sum coordination0 [3%Q])
    as (se & Hse & Heq); try reflexivity.
  - repeat constructor. vm_compute. discriminate.
  - exists se. split; [exact Hse|]. rewrite Heq. reflexivity.
Defined.

(** C6: [compute_standard_error] of the angle constraint returns the
    sum over the angle instances of the squared reduced deviation; the
    reduced deviation is 0 for an angle within its bounds and the signed
    distance to the bound otherwise; an angle of 20 degrees against
    [-10, 10] degrees adds the square of 10 degrees in radians. *)
Theorem angle_standard_error_is_sum_of_squares
    (PI : Q) (d : Improper.adata) (angle lower upper : Q) :
  (0 < PI)%Q ->
  (Improper.compute_standard_error d
   == ImproperSpec.sum_of_squares (Improper.d_reducedAngles d))%Q /\
  ((lower <= angle)%Q -> (angle <= upper)%Q ->
   ImproperSpec.reduced_deviation angle lower upper = 0%Q) /\
  ((lower <= angle)%Q -> (upper < angle)%Q ->
   ImproperSpec.reduced_deviation angle lower upper = (angle - upper)%Q) /\
  ((angle < lower)%Q ->
   ImproperSpec.reduced_deviation angle lower upper = (angle - lower)%Q) /\
  (Improper.compute_standard_error
     (Improper.AData [Improper.to_rad PI 20]
        (ImproperSpec.reduced_deviations [Improper.to_rad PI 20]
           [Improper.to_rad PI (-10)] [Improper.to_rad PI 10]))
   == Improper.to_rad PI 10 * Improper.to_rad PI 10)%Q.
Proof.
  intros HPI. split; [apply ImproperError.compute_standard_error_squares|].
  split; [apply ImproperError.reduced_deviation_inside|].
  split; [apply ImproperError.reduced_deviation_above|].
  split; [apply ImproperError.reduced_deviation_below|].
  by apply ImproperError.scenario_angle.
Qed.

Lemma angle_standard_error_is_sum_of_squares_witness :
  (0 < pi_approx)%Q /\
  (Improper.compute_standard_error
     (Improper.AData [Improper.to_rad pi_approx 20]
        (ImproperSpec.reduced_deviations [Improper.to_rad pi_approx 20]
           [Improper.to_rad pi_approx (-10)] [Improper.to_rad pi_approx 10]))
   == Improper.to_rad pi_approx 10 * Improper.to_rad pi_approx 10)%Q.
Proof.
  split; [reflexivity|].
  apply (angle_standard_error_is_sum_of_squares pi_approx
           (Improper.AData [] []) 0 0 0).
  reflexivity.
Defined.


(** C7: [accept_amputation] of atom [a] sets to zero the committed
    angle and reduced angle of every row of the table that has [a] among
    its four atoms, leaves the other rows as they are and has the
    committed standard error be that of the data so changed;
    [reject_amputation] changes nothing; and once the atom is collected
    its rows add zero to the standard error after any further calls of
    the protocol (the source has no call that restores an atom). *)
Theorem accept_amputation_zeroes_rows
    kernel (s s1 s2 s3 : Improper.t) (a : nat) rel :
  ImproperSpec.membership_inverse (Improper.anglesList s) (Improper.angles s) ->
  Improper.accept_amputation s [a] rel = Ok s1 ->
  Improper.on_collector_collect_atom s1 a = Ok s2 ->
  rtc (ImproperSpec.step kernel) s2 s3 ->
  (forall k, ImproperSpec.involves (Improper.anglesList s) k a ->
     exists d1, Improper.data s1 = Some d1 /\
       Improper.d_angles d1 !! k = Some 0%Q /\
       Improper.d_reducedAngles d1 !! k = Some 0%Q /\
       Improper.standardError s1 = Some (Improper.compute_standard_error d1)) /\
  (forall k d d1, ~ ImproperSpec.involves (Improper.anglesList s) k a ->
     Improper.data s = Some d -> Improper.data s1 = Some d1 ->
     Improper.d_angles d1 !! k = Improper.d_angles d !! k /\
     Improper.d_reducedAngles d1 !! k = Improper.d_reducedAngles d !! k) /\
  (Improper.standardError s
     = Improper.compute_standard_error <$> Improper.data s ->
   Improper.standardError s1
     = Improper.compute_standard_error <$> Improper.data s1) /\
  Improper.reject_amputation s [a] rel = Ok s /\
  (forall k, ImproperSpec.involves (Improper.anglesList s) k a ->
     ImproperSpec.contribution s3 k = 0%Q).
Proof.
  intros [_ _ _ Himp Hoth] Hacc Hcol Hsteps.
  destruct (ImproperAmputation.amputation_collected_zero _ _ _ _ _ Hacc Hcol)
    as (e & He & Hzero).
  apply ImproperAmputation.accept_amputation_rows in Hacc
    as (e' & He' & _ & _ & _ & _ & _ & Hz & Hkeep & Hse).
  assert (e' = e) as -> by congruence.
  assert (Hrows : forall k, ImproperSpec.involves (Improper.anglesList s) k a
                    <-> k ∈ (Improper.improperMap e ++ Improper.otherMap e)%list).
  { intros k. unfold ImproperSpec.involves.
    specialize (Himp a k). specialize (Hoth a k).
    unfold Improper.get_entry in Himp, Hoth. rewrite He in Himp, Hoth.
    simpl in Himp, Hoth. rewrite elem_of_app, Himp, Hoth. tauto. }
  split; [intros k Hk; by apply Hz, Hrows|].
  split; [intros k d d1 Hk; apply Hkeep; intros Hin; by apply Hk, Hrows|].
  split; [done|]. split; [done|].
  intros k Hk.
  eapply ImproperAmputation.collected_zero_contribution; [|by apply Hrows].
  by eapply ImproperAmputation.steps_collected_zero.
Qed.

Lemma accept_amputation_zeroes_rows_witness :
  let s1 := state_of (Improper.accept_amputation improper1 [3] [3]) in
  let s2 := state_of (Improper.on_collector_collect_atom s1 3) in
  let s3 := state_of (Improper.compute_data angle_kernel s2 box5) in
  (is_ok (Improper.accept_amputation improper1 [3] [3]) = true /\
   is_ok (Improper.on_collector_collect_atom s1 3) = true /\
   is_ok (Improper.compute_data angle_kernel s2 box5) = true) /\
  Improper.data s1 = Some (Improper.AData [0%Q] [0%Q]) /\
  ImproperSpec.contribution s3 0 = 0%Q.
Proof.
  intros s1 s2 s3. split; [by vm_compute|]. split; [reflexivity|].
  assert (Hinv : ImproperSpec.membership_inverse
                   (Improper.anglesList improper1) (Improper.angles improper1)).
  { destruct (ImproperFacts.set_angles_membership pi_approx
                (Improper.init (Some 5)) (Improper.ArgTuples [angle0123])
                improper0 5 eq_refl) as [H _]; [by vm_compute|exact H]. }
  destruct (accept_amputation_zeroes_rows angle_kernel improper1 s1 s2 s3 3 [3]
              Hinv) as (_ & _ & _ & _ & Hc).
  - by vm_compute.
  - by vm_compute.
  - eapply rtc_l; [|apply rtc_refl].
    eapply (ImproperSpec.step_compute_data _ _ box5). by vm_compute.
  - apply Hc. unfold ImproperSpec.involves. right. right. right. reflexivity.
Defined.

(** C8, as written, fails: an item can pass every check the claim
    lists and still be refused.  [('A','B',-1,2.0,2,2)] names elements
    that exist and has ordered bounds and a positive weight, but the
    source also asserts that the lower shell limit is not negative. *)
Lemma ordered_bounds_not_enough :
  ~ (forall e s d, CoordinationSpec.spec_checks e d ->
                   is_ok (Coordination.compile_def e s d) = true).
Proof.
  intros H.
  specialize (H engine4 (Coordination.init (Some engine4)) shell_AB_negative).
  assert (Hc : CoordinationSpec.spec_checks engine4 shell_AB_negative).
  { split.
    - exists "A", "B". split; [reflexivity|]. split; [reflexivity|].
      split; [by left|by right; left].
    - split; [reflexivity|]. split; [by vm_compute|reflexivity]. }
  specialize (H Hc). vm_compute in H. discriminate.
Qed.

(** C8, amended: a list of coordination items whose selectors are
    element names compiles exactly when, in every item, both elements
    exist, [0 <= rLower < rUpper], [0 <= nMin <= nMax] and [weight > 0];
    a list of angles compiles exactly when, in every angle, the four
    atom indexes are in [0, numberOfAtoms) and pairwise different and
    [-90 <= lower < upper <= 90]. *)
Theorem definitions_compile_iff_valid
    (PI : Q) (sc : Coordination.t) e l (sa : Improper.t) N la :
  Coordination.engine sc = Some e ->
  length (Coordination.allElements e) <= Coordination.numberOfAtoms e ->
  Forall CoordinationSpec.named l ->
  Improper.numberOfAtoms sa = Some N ->
  (is_ok (Coordination.set_coordination_number_definition sc (Some l)) = true
   <-> Forall (CoordinationSpec.valid_def e) l) /\
  (is_ok (Improper.set_angles PI sa (Improper.ArgTuples la)) = true
   <-> Forall (ImproperSpec.angle_checks N) la).
Proof.
  intros He Hn Hl HN. split.
  - by apply CoordinationCompile.set_definition_valid.
  - rewrite (ImproperCompile.set_angles_valid PI sa N la HN).
    apply Forall_iff. intros a. apply ImproperFacts.valid_angle_checks.
Qed.

Lemma definitions_compile_iff_valid_witness :
  (length (Coordination.allElements engine4)
     <= Coordination.numberOfAtoms engine4 /\
   Forall CoordinationSpec.named [shell_AB]) /\
  is_ok (Coordination.set_coordination_number_definition
           (Coordination.init (Some engine4)) (Some [shell_AB])) = true /\
  Forall (ImproperSpec.angle_checks 5) [angle0123].
Proof.
  assert (Hn : Forall CoordinationSpec.named [shell_AB]).
  { repeat constructor. by exists "A", "B". }
  split; [split; [simpl; lia|exact Hn]|].
  destruct (definitions_compile_iff_valid pi_approx
              (Coordination.init (Some engine4)) engine4 [shell_AB]
              (Improper.init (Some 5)) 5 [angle0123] eq_refl)
    as [Hc Ha]; [simpl; lia|exact Hn|reflexivity|].
  split; [reflexivity|]. apply Ha. reflexivity.
Defined.

(** C9: adding an angle for four atoms that have an angle already can
    append a row instead of overwriting the old one.  With the angles
    (0;1,2,3) and (0;4,2,3) stored, adding (0;4,2,3) again with new
    limits logs nothing and leaves three rows; and after (0;1,2,3) the
    angle (0;2,3,1), the same plane atoms in another order, is stored as
    a second row. *)
Theorem same_tuple_is_appended (PI : Q) :
  let s2 := state_of (Improper.add_angles PI (Improper.init (Some 5))
              [Some (0, 1, 2, 3, -10 # 1, 10 # 1)%Z;
               Some (0, 4, 2, 3, -10 # 1, 10 # 1)%Z]) in
  let r := Improper.add_angle PI s2 (0, 4, 2, 3, -5 # 1, 5 # 1)%Z in
  let r' := Improper.add_angles PI (Improper.init (Some 5))
              [Some (0, 1, 2, 3, -10 # 1, 10 # 1)%Z;
               Some (0, 2, 3, 1, -5 # 1, 5 # 1)%Z] in
  Improper.n_angles s2 = 2 /\
  is_ok r = true /\
  Improper.n_angles (state_of r) = 3 /\
  Improper.warnings (state_of r) = 0 /\
  Improper.oIdxs (Improper.anglesList (state_of r)) = [1; 4; 4] /\
  is_ok r' = true /\
  Improper.n_angles (state_of r') = 2.
Proof. vm_compute. repeat split. Qed.

(** C10: after a definition has been set with an engine attached, the
    membership tables are the inverse of the index sets.  Angle
    constraint: row [k] is in the improper map of atom [a] exactly when
    [a] is the improper atom of row [k], and in its other map exactly
    when [a] is one of the three plane atoms of row [k]; every atom of
    the system has an entry.  Coordination constraint: definition [d] is
    in the core (shell) list of atom [a] exactly when [a] is in the core
    (shell) index set of [d]; the lists have one item for every atom. *)
Theorem membership_is_inverse
    (PI : Q) (sa sa' : Improper.t) N arg (sc sc' : Coordination.t) e argc :
  Improper.numberOfAtoms sa = Some N ->
  Improper.set_angles PI sa arg = Ok sa' ->
  Coordination.engine sc = Some e ->
  Coordination.set_coordination_number_definition sc argc = Ok sc' ->
  (ImproperSpec.membership_inverse
     (Improper.anglesList sa') (Improper.angles sa') /\
   forall a, a < N -> is_Some (Improper.angles sa' !! a)) /\
  (CoordinationSpec.pointers_inverse
     (Coordination.coresIndexes (Coordination.defs sc'))
     (Coordination.asCoreDefIdxs (Coordination.defs sc')) /\
   CoordinationSpec.pointers_inverse
     (Coordination.shellsIndexes (Coordination.defs sc'))
     (Coordination.inShellDefIdxs (Coordination.defs sc')) /\
   length (Coordination.asCoreDefIdxs (Coordination.defs sc'))
     = Coordination.numberOfAtoms e /\
   length (Coordination.inShellDefIdxs (Coordination.defs sc'))
     = Coordination.numberOfAtoms e).
Proof.
  intros HN Ha He Hc. split.
  - by eapply ImproperFacts.set_angles_membership.
  - by eapply CoordinationFacts.set_definition_membership.
Qed.

Lemma membership_is_inverse_witness :
  (Improper.set_angles pi_approx (Improper.init (Some 5))
     (Improper.ArgTuples [angle0123]) = Ok improper0 /\
   Coordination.set_coordination_number_definition
     (Coordination.init (Some engine4)) (Some [shell_AB]) = Ok coordination0) /\
  is_Some (Improper.angles improper0 !! 4) /\
  CoordinationSpec.pointers_inverse
    (Coordination.coresIndexes (Coordination.defs coordination0))
    (Coordination.asCoreDefIdxs (Coordination.defs coordination0)).
Proof.
  split; [split; by vm_compute|].
  destruct (membership_is_inverse pi_approx (Improper.init (Some 5)) improper0 5
              (Improper.ArgTuples [angle0123])
              (Coordination.init (Some engine4)) coordination0 engine4
              (Some [shell_AB]) eq_refl)
    as [[_ Ht] [Hp _]]; [by vm_compute|reflexivity|by vm_compute|].
  split; [apply Ht; lia|exact Hp].
Defined.

End Claims.

(** ** Well-formed tables of angles *)
Module ImproperTable.
Import Improper ImproperSpec ImproperFacts ImproperError.

Lemma to_rad_bounds PI lower upper :
  (0 < PI)%Q -> (-90 <= lower)%Q -> (lower < upper)%Q -> (upper <= 90)%Q ->
  (- (PI / 2) <= to_rad PI lower /\ to_rad PI lower < to_rad PI upper /\
   to_rad PI upper <= PI / 2)%Q.
Proof.
  intros HPI H1 H2 H3. unfold to_rad.
  assert (Hpos : (0 < PI / 180)%Q) by (apply Qlt_shift_div_l; lra).
  split; [|split].
  - assert (E : (- (PI / 2) == (-90) * (PI / 180))%Q) by field.
    rewrite E. apply Qmult_le_compat_r; [done|lra].
  - by apply Qmult_lt_compat_r.
  - assert (E : (PI / 2 == 90 * (PI / 180))%Q) by field.
    rewrite E. apply Qmult_le_compat_r; [done|lra].
Qed.

Lemma table_ok_empty PI N : table_ok PI N empty_table.
Proof. split; simpl; done. Qed.

Lemma store_angle_table_ok PI N s i o x y lo up s' :
  table_ok PI N (anglesList s) ->
  (i < N /\ o < N /\ x < N /\ y < N) ->
  (i <> o /\ i <> x /\ i <> y /\ o <> x /\ o <> y /\ x <> y) ->
  (- (PI / 2) <= lo /\ lo < up /\ up <= PI / 2)%Q ->
  store_angle s i o x y lo up = Ok s' ->
  table_ok PI N (anglesList s').
Proof.
  intros [Ho Hx Hy Hlo Hup Hat Hlim] Hr Hd Hq.
  unfold store_angle.
  destruct (same_pos _) as [oPos|].
  - destruct (improperMap _ !! oPos) as [setPos|]; [|done].
    destruct (improperIdxs _ !! setPos) as [i'|] eqn:Ei; [|done].
    unfold check. case_bool_decide as Hi; [|done].
    destruct (oIdxs _ !! setPos) as [o'|] eqn:Eo; [|done].
    destruct (xIdxs _ !! setPos) as [x'|] eqn:Ex; [|done].
    destruct (yIdxs _ !! setPos) as [y'|] eqn:Ey; [|done].
    case_bool_decide as Hs; [|done].
    intros [= <-].
    match goal with
    | |- table_ok _ _ (anglesList (after_dump ?t)) =>
        destruct (after_dump_defs t) as (-> & _ & _)
    end.
    simpl.
    assert (Hlt : setPos < length (improperIdxs (anglesList s)))
      by (by eapply lookup_lt_Some).
    split; simpl; rewrite ?length_insert; try done.
    + intros k i0 o0 x0 y0 Ei0.
      rewrite !lookup_insert_Some' by lia.
      intros [[-> ->]|[Hne Eo0]] [[? ->]|[? Ex0]] [[? ->]|[? Ey0]];
        try done; [|by eapply Hat].
      simplify_eq. done.
    + intros k lo0 up0. rewrite !lookup_insert_Some' by lia.
      intros [[-> ->]|[Hne El]] [[? ->]|[? Eu]]; try done. by eapply Hlim.
  - intros [= <-].
    match goal with
    | |- table_ok _ _ (anglesList (after_dump ?t)) =>
        destruct (after_dump_defs t) as (-> & _ & _)
    end.
    simpl.
    split; simpl; rewrite ?length_app; simpl; try lia.
    + intros k i0 o0 x0 y0. rewrite !lookup_snoc_Some, Ho, Hx, Hy.
      intros [Ei0|[-> ->]] [Eo0|[Hk1 ->]] [Ex0|[Hk2 ->]] [Ey0|[Hk3 ->]];
        try (apply lookup_lt_Some in Ei0; lia);
        try (apply lookup_lt_Some in Eo0; lia);
        try (apply lookup_lt_Some in Ex0; lia);
        try (apply lookup_lt_Some in Ey0; lia);
        try done.
      by eapply Hat.
    + intros k lo0 up0. rewrite !lookup_snoc_Some, Hlo, Hup.
      intros [El|[-> ->]] [Eu|[Hk1 ->]];
        try (apply lookup_lt_Some in El; lia);
        try (apply lookup_lt_Some in Eu; lia);
        try done.
      by eapply Hlim.
Qed.

Lemma add_angle_table_ok PI N s a s' :
  (0 < PI)%Q ->
  numberOfAtoms s = Some N ->
  table_ok PI N (anglesList s) ->
  add_angle PI s a = Ok s' ->
  table_ok PI N (anglesList s').
Proof.
  intros HPI HN Hok. rewrite (add_angle_unfold PI s N a HN).
  destruct a as [[[[[zi zo] zx] zy] lower] upper].
  destruct (valid_angle N _) eqn:Hv; [|done].
  apply valid_angle_spec in Hv as (Hr & Hd & Hq).
  apply store_angle_table_ok; [done|lia|lia|].
  destruct Hq as (? & ? & ?). by apply to_rad_bounds.
Qed.

Lemma add_angles_table_ok PI N rows : forall s s',
  (0 < PI)%Q ->
  numberOfAtoms s = Some N ->
  table_ok PI N (anglesList s) ->
  add_angles PI s rows = Ok s' ->
  table_ok PI N (anglesList s').
Proof.
  induction rows as [|[a|] rows IH]; intros s s' HPI HN Hok H; simpl in H.
  - by simplify_eq.
  - destruct (add_angle PI s a) as [s1|] eqn:Ha; [|done].
    eapply (IH s1); [done| |by eapply add_angle_table_ok|done].
    destruct (numberOfAtoms s) eqn:E; [|done].
    rewrite (add_angle_unfold PI s N a) in Ha by congruence.
    destruct a as [[[[[zi zo] zx] zy] lower] upper].
    destruct (valid_angle N _); [|done].
    apply store_angle_numberOfAtoms in Ha. congruence.
  - done.
Qed.


(** A successful [add_angle] keeps every row that was there, with its
    improper atom and its plane atoms up to their order, and either
    appends one row or logs a warning and writes over one. *)
Lemma store_angle_keeps_rows s i o x y lo up s' :
  store_angle s i o x y lo up = Ok s' ->
  (n_angles s' = n_angles s /\ warnings s' = S (warnings s) \/
   n_angles s' = S (n_angles s) /\ warnings s' = warnings s) /\
  forall k i0 o0 x0 y0,
    improperIdxs (anglesList s) !! k = Some i0 ->
    oIdxs (anglesList s) !! k = Some o0 ->
    xIdxs (anglesList s) !! k = Some x0 ->
    yIdxs (anglesList s) !! k = Some y0 ->
    exists o1 x1 y1,
      improperIdxs (anglesList s') !! k = Some i0 /\
      oIdxs (anglesList s') !! k = Some o1 /\
      xIdxs (anglesList s') !! k = Some x1 /\
      yIdxs (anglesList s') !! k = Some y1 /\
      sorted3 o0 x0 y0 = sorted3 o1 x1 y1.
Proof.
  unfold store_angle, n_angles.
  destruct (same_pos _) as [oPos|].
  - destruct (improperMap _ !! oPos) as [setPos|]; [|done].
    destruct (improperIdxs _ !! setPos) as [i'|] eqn:Ei; [|done].
    unfold check. case_bool_decide as Hi; [|done].
    destruct (oIdxs _ !! setPos) as [o'|] eqn:Eo; [|done].
    destruct (xIdxs _ !! setPos) as [x'|] eqn:Ex; [|done].
    destruct (yIdxs _ !! setPos) as [y'|] eqn:Ey; [|done].
    case_bool_decide as Hs; [|done].
    intros [= <-].
    assert (Hw : forall t, warnings (after_dump t) = warnings t).
    { intros t. unfold after_dump. by destruct (dumpAngles t). }
    rewrite Hw.
    match goal with
    | |- context [anglesList (after_dump ?t)] =>
        destruct (after_dump_defs t) as (-> & _ & _)
    end.
    simpl. split; [by left|].
    intros k i0 o0 x0 y0 Ei0 Eo0 Ex0 Ey0.
    destruct (decide (k = setPos)) as [->|Hne].
    + exists o, x, y. simplify_eq.
      rewrite !list_lookup_insert_eq by (by eapply lookup_lt_Some). done.
    + exists o0, x0, y0. rewrite !list_lookup_insert_ne by done. done.
  - intros [= <-].
    assert (Hw : forall t, warnings (after_dump t) = warnings t).
    { intros t. unfold after_dump. by destruct (dumpAngles t). }
    rewrite Hw.
    match goal with
    | |- context [anglesList (after_dump ?t)] =>
        destruct (after_dump_defs t) as (-> & _ & _)
    end.
    simpl. rewrite length_app. simpl. split; [right; split; [lia|done]|].
    intros k i0 o0 x0 y0 Ei0 Eo0 Ex0 Ey0.
    exists o0, x0, y0. repeat split; try done; by apply lookup_app_l_Some.
Qed.

Lemma add_angle_rows_kept PI s a s' :
  add_angle PI s a = Ok s' ->
  (n_angles s' = n_angles s /\ warnings s' = S (warnings s) \/
   n_angles s' = S (n_angles s) /\ warnings s' = warnings s) /\
  forall k i0 o0 x0 y0,
    improperIdxs (anglesList s) !! k = Some i0 ->
    oIdxs (anglesList s) !! k = Some o0 ->
    xIdxs (anglesList s) !! k = Some x0 ->
    yIdxs (anglesList s) !! k = Some y0 ->
    exists o1 x1 y1,
      improperIdxs (anglesList s') !! k = Some i0 /\
      oIdxs (anglesList s') !! k = Some o1 /\
      xIdxs (anglesList s') !! k = Some x1 /\
      yIdxs (anglesList s') !! k = Some y1 /\
      sorted3 o0 x0 y0 = sorted3 o1 x1 y1.
Proof.
  destruct (numberOfAtoms s) as [N|] eqn:HN.
  - rewrite (add_angle_unfold PI s N a HN).
    destruct a as [[[[[zi zo] zx] zy] lower] upper].
    destruct (valid_angle N _); [|done]. apply store_angle_keeps_rows.
  - destruct a as [[[[[zi zo] zx] zy] lower] upper]. unfold add_angle.
    by rewrite HN.
Qed.

(** The table and the maps [store_angle] leaves depend on the state
    only through the table and the maps it finds. *)
Lemma store_angle_depends_on_defs s t i o x y lo up :
  anglesList s = anglesList t -> angles s = angles t ->
  match store_angle s i o x y lo up, store_angle t i o x y lo up with
  | Ok s', Ok t' => anglesList s' = anglesList t' /\ angles s' = angles t'
  | Raise e _, Raise e' _ => e = e'
  | _, _ => False
  end.
Proof.
  intros Hl Hm. unfold store_angle, check. rewrite Hl, Hm.
  repeat case_match; simplify_eq; try done;
    repeat match goal with
    | |- context [anglesList (after_dump ?u)] =>
        destruct (after_dump_defs u) as (-> & -> & _)
    end; simpl; by rewrite ?Hl, ?Hm.
Qed.

Lemma add_angle_depends_on_defs PI s t a :
  numberOfAtoms s = numberOfAtoms t ->
  anglesList s = anglesList t -> angles s = angles t ->
  match add_angle PI s a, add_angle PI t a with
  | Ok s', Ok t' =>
      numberOfAtoms s' = numberOfAtoms t' /\
      anglesList s' = anglesList t' /\ angles s' = angles t'
  | Raise e _, Raise e' _ => e = e'
  | _, _ => False
  end.
Proof.
  intros HN Hl Hm.
  destruct (numberOfAtoms s) as [N|] eqn:Es.
  - rewrite (add_angle_unfold PI s N a Es).
    rewrite (add_angle_unfold PI t N a) by congruence.
    destruct a as [[[[[zi zo] zx] zy] lower] upper].
    destruct (valid_angle N _); [|done].
    pose proof (store_angle_depends_on_defs s t (Z.to_nat zi) (Z.to_nat zo)
                  (Z.to_nat zx) (Z.to_nat zy) (to_rad PI lower)
                  (to_rad PI upper) Hl Hm) as H.
    destruct (store_angle s _ _ _ _ _ _) as [s'|] eqn:E1,
             (store_angle t _ _ _ _ _ _) as [t'|] eqn:E2; try done.
    apply store_angle_numberOfAtoms in E1, E2. split; [congruence|done].
  - destruct a as [[[[[zi zo] zx] zy] lower] upper]. unfold add_angle.
    by rewrite Es, <- HN.
Qed.

Lemma add_angles_depend_on_defs PI rows : forall s t,
  numberOfAtoms s = numberOfAtoms t ->
  anglesList s = anglesList t -> angles s = angles t ->
  match add_angles PI s rows, add_angles PI t rows with
  | Ok s', Ok t' => anglesList s' = anglesList t' /\ angles s' = angles t'
  | Raise e _, Raise e' _ => e = e'
  | _, _ => False
  end.
Proof.
  induction rows as [|[a|] rows IH]; intros s t HN Hl Hm; simpl; try done.
  pose proof (add_angle_depends_on_defs PI s t a HN Hl Hm) as H.
  destruct (add_angle PI s a) as [s'|], (add_angle PI t a) as [t'|]; try done.
  destruct H as (? & ? & ?). by apply IH.
Qed.

Lemma set_angles_depends_on_argument PI s t arg :
  numberOfAtoms s = numberOfAtoms t -> numberOfAtoms s <> None ->
  match set_angles PI s arg, set_angles PI t arg with
  | Ok s', Ok t' => anglesList s' = anglesList t' /\ angles s' = angles t'
  | Raise e _, Raise e' _ => e = e'
  | _, _ => False
  end.
Proof.
  intros HN Hs.
  pose proof (add_angles_depend_on_defs PI (rows_of arg)
                (set_dumpAngles (set_defs s empty_table ∅) false)
                (set_dumpAngles (set_defs t empty_table ∅) false)
                HN eq_refl eq_refl) as H.
  unfold set_angles. rewrite <- HN.
  destruct (numberOfAtoms s) as [N|] eqn:Es; [|done].
  destruct (add_angles PI _ _) as [s'|], (add_angles PI _ _) as [t'|];
    try done.
  simpl. destruct H as [-> ->]. done.
Qed.

End ImproperTable.

(** ** Angles given again *)
Module ImproperRedefine.
Import Improper ImproperSpec ImproperFacts ImproperCompile ImproperTable.

Lemma py_in_singleton a b : py_in a [b] = bool_decide (a = b).
Proof.
  unfold py_in. apply bool_decide_ext. rewrite list_elem_of_singleton. done.
Qed.

Lemma py_index_singleton a : py_index a [a] = Some 0.
Proof. simpl. by rewrite decide_True. Qed.

Lemma redefining_single om o x y n o' x' y' :
  o <> x -> o <> y -> x <> y ->
  recognised o x y o' x' y' ->
  same_pos (redefining (Entry [o] [x] [y] [n] om) o' x' y') = Some 0.
Proof.
  intros Hox Hoy Hxy Hrec. unfold redefining. simpl.
  rewrite !py_in_singleton.
  destruct Hrec as [(-> & -> & ->)|[(-> & -> & ->)|[(-> & -> & ->)|(-> & -> & ->)]]];
    repeat (case_bool_decide; simpl; try congruence);
    rewrite ?decide_True by done; simpl; done.
Qed.

Lemma store_angle_twice s i o x y lo up o' x' y' lo' up' :
  membership_inverse (anglesList s) (angles s) ->
  entries_ok (anglesList s) (angles s) ->
  length (lowerLimit (anglesList s)) = length (improperIdxs (anglesList s)) ->
  length (upperLimit (anglesList s)) = length (improperIdxs (anglesList s)) ->
  (forall k, improperIdxs (anglesList s) !! k <> Some i) ->
  i <> o -> i <> x -> i <> y -> o <> x -> o <> y -> x <> y ->
  recognised o x y o' x' y' ->
  exists s1 s2,
    store_angle s i o x y lo up = Ok s1 /\
    store_angle s1 i o' x' y' lo' up' = Ok s2 /\
    n_angles s1 = S (n_angles s) /\
    n_angles s2 = S (n_angles s) /\
    warnings s2 = S (warnings s) /\
    improperIdxs (anglesList s2) !! n_angles s = Some i /\
    oIdxs (anglesList s2) !! n_angles s = Some o' /\
    xIdxs (anglesList s2) !! n_angles s = Some x' /\
    yIdxs (anglesList s2) !! n_angles s = Some y' /\
    lowerLimit (anglesList s2) !! n_angles s = Some lo' /\
    upperLimit (anglesList s2) !! n_angles s = Some up'.
Proof.
  intros [Ho Hx Hy Himp _] [_ _ _ Hlens _] Hlo Hup Hnone
         Hio Hix Hiy Hox Hoy Hxy Hrec.
  set (n := length (improperIdxs (anglesList s))).
  assert (Em : improperMap (get_entry (angles s) i) = []).
  { apply elem_of_nil_inv. intros k Hk. apply Himp in Hk.
    by apply (Hnone k). }
  destruct (Hlens i) as (Lx & Ly & Lm). rewrite Em in Lm. simpl in Lm.
  assert (Eo : oIdx (get_entry (angles s) i) = [])
    by (by apply nil_length_inv).
  assert (Ex : xIdx (get_entry (angles s) i) = [])
    by (apply nil_length_inv; congruence).
  assert (Ey : yIdx (get_entry (angles s) i) = [])
    by (apply nil_length_inv; congruence).
  assert (Hw : forall t, warnings (after_dump t) = warnings t).
  { intros t. unfold after_dump. by destruct (dumpAngles t). }
  set (s1 := after_dump (set_defs s
      (append_row (anglesList s) i o x y lo up)
      (publish (angles s) i o x y
         (append_entry_improper (get_entry (angles s) i) o x y n)
         (append_entry_other (get_entry (angles s) o) n)
         (append_entry_other (get_entry (angles s) x) n)
         (append_entry_other (get_entry (angles s) y) n)))).
  assert (H1 : store_angle s i o x y lo up = Ok s1).
  { unfold store_angle.
    replace (same_pos (redefining (get_entry (angles s) i) o x y))
      with (@None nat); [done|].
    unfold redefining. rewrite Eo, Ex, Ey. reflexivity. }
  exists s1. eexists. split; [exact H1|].
  destruct (after_dump_defs (set_defs s
      (append_row (anglesList s) i o x y lo up)
      (publish (angles s) i o x y
         (append_entry_improper (get_entry (angles s) i) o x y n)
         (append_entry_other (get_entry (angles s) o) n)
         (append_entry_other (get_entry (angles s) x) n)
         (append_entry_other (get_entry (angles s) y) n)))) as (Hl1 & Hm1 & _).
  fold s1 in Hl1, Hm1. simpl in Hl1, Hm1.
  assert (He1 : get_entry (angles s1) i
                = Entry [o] [x] [y] [n] (otherMap (get_entry (angles s) i))).
  { rewrite Hm1, get_entry_publish.
    rewrite !decide_False by done. rewrite decide_True by done.
    unfold append_entry_improper. by rewrite Eo, Ex, Ey, Em. }
  assert (Hrow : improperIdxs (anglesList s1) !! n = Some i /\
                 oIdxs (anglesList s1) !! n = Some o /\
                 xIdxs (anglesList s1) !! n = Some x /\
                 yIdxs (anglesList s1) !! n = Some y).
  { rewrite Hl1. simpl. repeat split; apply lookup_snoc_Some; right;
      split; done. }
  destruct Hrow as (Ri & Ro & Rx & Ry).
  assert (Hs : sorted3 o' x' y' = sorted3 o x y).
  { apply sorted3_perm.
    destruct Hrec as [(-> & -> & ->)|[(-> & -> & ->)|[(-> & -> & ->)|(-> & -> & ->)]]].
    - done.
    - apply perm_skip, perm_swap.
    - apply perm_swap.
    - apply (reverse_Permutation [o; x; y]). }
  split.
  { unfold store_angle. rewrite He1.
    rewrite (redefining_single _ o x y n o' x' y') by done.
    simpl. rewrite Ri. unfold check. rewrite bool_decide_eq_true_2 by done.
    rewrite Ro, Rx, Ry. rewrite bool_decide_eq_true_2 by done.
    reflexivity. }
  unfold n_angles. rewrite Hw.
  match goal with
  | |- context [anglesList (after_dump ?t)] =>
      destruct (after_dump_defs t) as (-> & _ & _)
  end.
  simpl. rewrite Hl1. simpl. rewrite !length_app. simpl.
  unfold s1. rewrite Hw. simpl.
  fold n. rewrite !list_lookup_insert_eq
    by (rewrite length_app; simpl; lia).
  repeat split; try lia; try done.
  apply lookup_snoc_Some. right. done.
Qed.

End ImproperRedefine.

(** ** The committed standard error of the angle constraint *)
Module ImproperInvariant.
Import Improper ImproperSpec PyFacts ImproperMoves ImproperAmputation.

Section Steps.
Variable kernel :
  list nat -> list nat -> list nat -> list nat -> list Q -> list Q ->
  list vec3 -> option (list Q * list Q).

Lemma tentative_standard_error_pending s b x r s' :
  activeAtomsDataBeforeMove s = Some b ->
  activeAtomsDataAfterMove s = Some (After x (Some r)) ->
  tentative_standard_error s b r = Ok s' ->
  pending_ok s'.
Proof.
  intros Hb Ha. unfold tentative_standard_error.
  destruct (data s) as [d|] eqn:Hd; [|done].
  destruct (b_reducedAngles b) as [before|] eqn:Hbr; [|done].
  destruct (np_take _ _) as [RL|] eqn:HRL; [|done].
  destruct (np_zip Qminus _ _) as [delta|] eqn:Hdelta; [|done].
  destruct (np_zip Qplus _ _) as [patched|] eqn:Hpatched; [|done].
  intros [= <-]. intros b' a' d' reduced'. simpl.
  rewrite Hb, Ha. intros [= <-] [= <-] [= <-]. simpl.
  rewrite (np_take_put_restore _ _ _ _ HRL).
  unfold increment. rewrite Hbr, Hdelta, HRL, Hpatched.
  by intros [= <-].
Qed.

Lemma compute_after_move_pending s real rel moved box s' box' :
  compute_after_move kernel s real rel moved box = Ok (s', box') ->
  pending_ok s'.
Proof.
  unfold compute_after_move.
  destruct (activeAtomsDataBeforeMove s) as [b|] eqn:Hb; [|done].
  destruct (np_take box rel) as [boxData|]; [|done].
  destruct (np_assign box rel moved) as [box1|]; [|done].
  case_decide.
  - unfold after_move_finish. intros [= <- <-].
    intros b' a' d' reduced'. simpl. intros _ [= <-] _. simpl.
    unfold increment. simpl. done.
  - destruct (kernel_on kernel s _ box1) as [e|[angles reduced]]; [done|].
    unfold after_move_finish.
    destruct (tentative_standard_error _ b reduced) as [s1|e s1] eqn:Ht;
      [|done].
    simpl. intros [= <- <-].
    eapply tentative_standard_error_pending; [| |exact Ht]; simpl; done.
Qed.

Lemma step_committed_ok s s' :
  step kernel s s' ->
  committed_ok s /\ pending_ok s -> committed_ok s' /\ pending_ok s'.
Proof.
  intros Hstep [Hse Hpend].
  destruct Hstep as [s box s' H|s real box s' H|s real rel moved box s' box' H
                    |s real rel s' H|s real rel s' H|s real rel s' H
                    |s real rel s' H].
  - (* compute_data *)
    assert (Hf : forall angles reduced,
      committed_ok (finish_compute_data s angles reduced) /\
      pending_ok (finish_compute_data s angles reduced)).
    { intros angles reduced. unfold finish_compute_data. simpl.
      destruct (originalData s); split; try done;
        intros b a d r'; simpl; done. }
    unfold compute_data in H. case_decide.
    + destruct (kernel _ _ _ _ _ _ _) as [[angles reduced]|]; [|done].
      simplify_eq. apply Hf.
    + destruct (kernel_on _ _ _ _) as [e|[angles reduced]]; [done|].
      destruct (np_assign _ _ angles) as [anglesData|]; [|done].
      destruct (np_assign _ _ reduced) as [reducedData|]; [|done].
      simplify_eq. apply Hf.
  - (* compute_before_move *)
    pose proof (compute_before_move_frame _ _ _ _ _ H) as [Hd He].
    split; [unfold committed_ok; by rewrite Hd, He|].
    unfold compute_before_move in H.
    destruct (mapped_rows _ _) as [rows|]; [|done].
    case_decide.
    + simplify_eq. intros b a d r'; simpl; done.
    + destruct (kernel_on _ _ _ _) as [e|[angles reduced]]; [done|].
      simplify_eq. intros b a d r'; simpl; done.
  - (* compute_after_move *)
    pose proof (compute_after_move_frame kernel s real rel moved box)
      as [Hd He].
    simpl in Hd, He. rewrite H in Hd, He. simpl in Hd, He.
    split; [unfold committed_ok; by rewrite Hd, He|].
    by eapply compute_after_move_pending.
  - (* accept_move *)
    unfold accept_move in H.
    destruct (activeAtomsDataBeforeMove s) as [b|] eqn:Hb; [|done].
    case_decide.
    + simplify_eq. split; [done|]. intros b' a d r'; simpl; done.
    + destruct (data s) as [d|] eqn:Hd; [|done].
      destruct (activeAtomsDataAfterMove s) as [a|] eqn:Ha; [|done].
      destruct (increment (d_angles d) _ _ _) as [e|angles']; [done|].
      destruct (increment (d_reducedAngles d) _ _ _) as [e|reduced'] eqn:Hi;
        [done|].
      simplify_eq. split.
      * unfold committed_ok. simpl.
        by rewrite (Hpend b a d reduced' Hb Ha Hd Hi).
      * intros b' a' d' r'; simpl; done.
  - (* reject_move *)
    unfold reject_move in H. simplify_eq.
    split; [done|]. intros b a d r'; simpl; done.
  - (* accept_amputation *)
    unfold accept_amputation in H.
    destruct (mapped_rows _ _) as [rows|]; [|done].
    case_decide.
    + simplify_eq. split; [done|]. intros b a d r'; simpl; done.
    + destruct (data s) as [d|] eqn:Hd; [|done].
      destruct (np_assign (d_angles d) _ _) as [angles'|]; [|done].
      destruct (np_assign (d_reducedAngles d) _ _) as [reduced'|]; [|done].
      simplify_eq. split; [done|]. intros b a d' r'; simpl; done.
  - (* reject_amputation *)
    unfold reject_amputation in H. by simplify_eq.
Qed.

Lemma steps_committed_ok s s' :
  rtc (step kernel) s s' ->
  committed_ok s /\ pending_ok s -> committed_ok s' /\ pending_ok s'.
Proof.
  induction 1 as [|s s1 s2 Hstep _ IH]; [done|].
  intros Hz. apply IH. by eapply step_committed_ok.
Qed.

Lemma compute_data_committed_ok s box s' :
  compute_data kernel s box = Ok s' ->
  is_Some (data s') /\ committed_ok s' /\ pending_ok s'.
Proof.
  intros H.
  assert (Hf : forall angles reduced,
    is_Some (data (finish_compute_data s angles reduced)) /\
    committed_ok (finish_compute_data s angles reduced) /\
    pending_ok (finish_compute_data s angles reduced)).
  { intros angles reduced. unfold finish_compute_data. simpl.
    destruct (originalData s); repeat split; try done;
      intros b a d r'; simpl; done. }
  unfold compute_data in H. case_decide.
  + destruct (kernel _ _ _ _ _ _ _) as [[angles reduced]|]; [|done].
    simplify_eq. apply Hf.
  + destruct (kernel_on _ _ _ _) as [e|[angles reduced]]; [done|].
    destruct (np_assign _ _ angles) as [anglesData|]; [|done].
    destruct (np_assign _ _ reduced) as [reducedData|]; [|done].
    simplify_eq. apply Hf.
Qed.

Lemma step_keeps_data s s' :
  step kernel s s' -> is_Some (data s) -> is_Some (data s').
Proof.
  intros Hstep Hd.
  destruct Hstep as [s box s' H|s real box s' H|s real rel moved box s' box' H
                    |s real rel s' H|s real rel s' H|s real rel s' H
                    |s real rel s' H].
  - by apply compute_data_committed_ok in H as [? _].
  - apply compute_before_move_frame in H as [-> _]. done.
  - pose proof (compute_after_move_frame kernel s real rel moved box)
      as [Hd' _].
    simpl in Hd'. rewrite H in Hd'. simpl in Hd'. by rewrite Hd'.
  - unfold accept_move in H.
    destruct (activeAtomsDataBeforeMove s) as [b|] eqn:Hb; [|done].
    case_decide; [by simplify_eq|].
    destruct (data s) as [d|] eqn:Hd'; [|done].
    destruct (activeAtomsDataAfterMove s) as [a|] eqn:Ha; [|done].
    destruct (increment (d_angles d) _ _ _) as [e|angles']; [done|].
    destruct (increment (d_reducedAngles d) _ _ _) as [e|reduced']; [done|].
    simplify_eq. simpl. done.
  - unfold reject_move in H. by simplify_eq.
  - unfold accept_amputation in H.
    destruct (mapped_rows _ _) as [rows|]; [|done].
    case_decide; [by simplify_eq|].
    destruct (data s) as [d|] eqn:Hd'; [|done].
    destruct (np_assign (d_angles d) _ _) as [angles'|]; [|done].
    destruct (np_assign (d_reducedAngles d) _ _) as [reduced'|]; [|done].
    simplify_eq. simpl. done.
  - unfold reject_amputation in H. by simplify_eq.
Qed.

Lemma steps_keep_data s s' :
  rtc (step kernel) s s' -> is_Some (data s) -> is_Some (data s').
Proof.
  induction 1 as [|s s1 s2 Hstep _ IH]; [done|].
  intros Hz. apply IH. by eapply step_keeps_data.
Qed.

Lemma steps_track_standard_error s0 box s s' :
  compute_data kernel s0 box = Ok s ->
  rtc (step kernel) s s' ->
  exists d, data s' = Some d /\
            standardError s' = Some (compute_standard_error d).
Proof.
  intros H Hsteps.
  apply compute_data_committed_ok in H as (Hd & Hc & Hp).
  destruct (steps_keep_data _ _ Hsteps Hd) as [d Hd'].
  destruct (steps_committed_ok _ _ Hsteps (conj Hc Hp)) as [Hc' _].
  exists d. split; [done|]. unfold committed_ok in Hc'. by rewrite Hd' in Hc'.
Qed.

End Steps.
End ImproperInvariant.

(** ** Which rows a move touches *)
Module ImproperLocality.
Import Improper ImproperSpec PyFacts ImproperMoves ImproperAmputation.

Lemma mapped_rows_elem m : forall idxs rows,
  mapped_rows m idxs = Some rows ->
  forall k, k ∈ rows <->
    exists a e, a ∈ idxs /\ m !! a = Some e /\
                k ∈ (improperMap e ++ otherMap e)%list.
Proof.
  unfold mapped_rows. induction idxs as [|a idxs IH]; intros rows H k.
  - simpl in H. simplify_eq. simpl. split; [by intros ?%elem_of_nil|].
    by intros (a & e & ?%elem_of_nil & _).
  - simpl in H. destruct (m !! a) as [e|] eqn:He; [|done]. simpl in H.
    destruct (mapM _ idxs) as [ls|] eqn:Hls; [|done]. simpl in H.
    simplify_eq. simpl. rewrite elem_of_app.
    specialize (IH (concat ls) eq_refl k). rewrite IH. split.
    + intros [Hk|(a' & e' & Ha' & He' & Hk)].
      * exists a, e. split; [left|]; done.
      * exists a', e'. split; [by right|done].
    + intros (a' & e' & Ha' & He' & Hk).
      apply elem_of_cons in Ha' as [->|Ha'].
      * left. congruence.
      * right. by exists a', e'.
Qed.

Lemma mapped_rows_Some m idxs :
  (forall a, a ∈ idxs -> is_Some (m !! a)) -> is_Some (mapped_rows m idxs).
Proof.
  unfold mapped_rows. induction idxs as [|a idxs IH]; intros H; [by eexists|].
  destruct (H a) as [e He]; [left|].
  destruct IH as [rows Hrows]; [intros a' Ha'; apply H; by right|].
  simpl. rewrite He. simpl.
  destruct (mapM _ idxs) as [ls|]; [by eexists|done].
Qed.

Lemma mapped_rows_None m idxs a :
  a ∈ idxs -> m !! a = None -> mapped_rows m idxs = None.
Proof.
  intros Ha Hm. destruct (mapped_rows m idxs) as [rows|] eqn:H; [|done].
  unfold mapped_rows in H. apply fmap_Some in H as (ls & Hls & _).
  apply mapM_Some in Hls.
  apply list_elem_of_lookup in Ha as [p Hp].
  destruct (Forall2_lookup_l _ _ _ _ _ Hls Hp) as (y & _ & Hy).
  rewrite Hm in Hy. done.
Qed.

Lemma mapped_rows_involves l m idxs rows :
  membership_inverse l m ->
  mapped_rows m idxs = Some rows ->
  forall k, k ∈ rows <-> exists a, a ∈ idxs /\ involves l k a.
Proof.
  intros [_ _ _ Himp Hoth] H k. rewrite (mapped_rows_elem _ _ _ H).
  unfold involves. split.
  - intros (a & e & Ha & He & Hk). exists a. split; [done|].
    specialize (Himp a k). specialize (Hoth a k).
    unfold get_entry in Himp, Hoth. rewrite He in Himp, Hoth. simpl in *.
    apply elem_of_app in Hk as [Hk|Hk]; [left; by apply Himp|].
    right. by apply Hoth.
  - intros (a & Ha & Hk).
    destruct (m !! a) as [e|] eqn:He.
    + exists a, e. split; [done|]. split; [done|].
      specialize (Himp a k). specialize (Hoth a k).
      unfold get_entry in Himp, Hoth. rewrite He in Himp, Hoth. simpl in *.
      apply elem_of_app. destruct Hk as [Hk|Hk]; [left; by apply Himp|].
      right. by apply Hoth.
    + exfalso. by rewrite (mapped_rows_None _ _ _ Ha He) in H.
Qed.

Lemma NoDup_py_set_diff l (R : gset nat) : NoDup (py_set_diff l R).
Proof. unfold py_set_diff. apply NoDup_filter, NoDup_remove_dups. Qed.

Section WithKernel.
Variable kernel :
  list nat -> list nat -> list nat -> list nat -> list Q -> list Q ->
  list vec3 -> option (list Q * list Q).

Lemma compute_before_move_rows s real box s1 :
  membership_inverse (anglesList s) (angles s) ->
  compute_before_move kernel s real box = Ok s1 ->
  exists b,
    activeAtomsDataBeforeMove s1 = Some b /\
    activeAtomsDataAfterMove s1 = None /\
    NoDup (b_anglesIndexes b) /\
    forall k, k ∈ b_anglesIndexes b <->
      (exists a, a ∈ real /\ involves (anglesList s) k a) /\
      k ∉ randomData s.
Proof.
  intros Hinv. unfold compute_before_move.
  destruct (mapped_rows _ _) as [rows|] eqn:Hrows; [|done].
  pose proof (mapped_rows_involves _ _ _ _ Hinv Hrows) as Hk.
  assert (Hspec : forall k, k ∈ py_set_diff rows (randomData s) <->
            (exists a, a ∈ real /\ involves (anglesList s) k a) /\
            k ∉ randomData s).
  { intros k. by rewrite elem_of_py_set_diff, Hk. }
  case_decide.
  - intros [= <-]. eexists. simpl. split; [done|]. split; [done|].
    split; [apply NoDup_py_set_diff|done].
  - destruct (kernel_on _ _ _ _) as [e|[angles reduced]]; [done|].
    intros [= <-]. eexists. simpl. split; [done|]. split; [done|].
    split; [apply NoDup_py_set_diff|done].
Qed.

Lemma compute_before_move_KeyError s real box a :
  a ∈ real -> angles s !! a = None ->
  compute_before_move kernel s real box = Raise KeyError s.
Proof.
  intros Ha Hm. unfold compute_before_move.
  by rewrite (mapped_rows_None _ _ _ Ha Hm).
Qed.

Lemma increment_length a rows after before a' :
  increment a rows after before = inr a' -> length a' = length a.
Proof.
  unfold increment. intros H. repeat case_match; simplify_eq.
  apply np_put_length.
Qed.

Lemma accept_move_outside s real rel s' b d :
  activeAtomsDataBeforeMove s = Some b ->
  data s = Some d ->
  accept_move s real rel = Ok s' ->
  exists d', data s' = Some d' /\
    length (d_angles d') = length (d_angles d) /\
    length (d_reducedAngles d') = length (d_reducedAngles d) /\
    forall k, k ∉ b_anglesIndexes b ->
      d_angles d' !! k = d_angles d !! k /\
      d_reducedAngles d' !! k = d_reducedAngles d !! k.
Proof.
  intros Hb Hd. unfold accept_move. rewrite Hb, Hd.
  case_decide.
  - intros [= <-]. exists d. simpl. done.
  - destruct (activeAtomsDataAfterMove s) as [a|]; [|done].
    destruct (increment (d_angles d) _ _ _) as [e|angles'] eqn:Hi1; [done|].
    destruct (increment (d_reducedAngles d) _ _ _) as [e|reduced'] eqn:Hi2;
      [done|].
    intros [= <-]. eexists. simpl. split; [done|].
    split; [by eapply increment_length|].
    split; [by eapply increment_length|].
    intros k Hk. split; by eapply increment_outside.
Qed.

Lemma accept_cycle_outside s real rel moved box s1 s2 box' s3 d :
  membership_inverse (anglesList s) (angles s) ->
  data s = Some d ->
  compute_before_move kernel s real box = Ok s1 ->
  compute_after_move kernel s1 real rel moved box = Ok (s2, box') ->
  accept_move s2 real rel = Ok s3 ->
  exists d3, data s3 = Some d3 /\
    length (d_angles d3) = length (d_angles d) /\
    length (d_reducedAngles d3) = length (d_reducedAngles d) /\
    forall k,
      (forall a, a ∈ real -> ~ involves (anglesList s) k a) \/
      k ∈ randomData s ->
      d_angles d3 !! k = d_angles d !! k /\
      d_reducedAngles d3 !! k = d_reducedAngles d !! k.
Proof.
  intros Hinv Hd Hbef Haft Hacc.
  destruct (compute_before_move_rows _ _ _ _ Hinv Hbef)
    as (b & Hb & _ & _ & Hrows).
  apply compute_before_move_frame in Hbef as [Hd1 _].
  pose proof (compute_after_move_frame kernel s1 real rel moved box)
    as [Hd2 _].
  simpl in Hd2. rewrite Haft in Hd2. simpl in Hd2.
  apply compute_after_move_collector in Haft as (Hb2 & _ & _).
  rewrite Hb in Hb2. rewrite Hd1, Hd in Hd2.
  destruct (accept_move_outside _ _ _ _ _ _ Hb2 Hd2 Hacc)
    as (d3 & Hd3 & Hl1 & Hl2 & Hout).
  exists d3. repeat split; try done; apply Hout; rewrite Hrows;
    intros [(a & Ha & Hk) Hr]; destruct H as [H|H]; try done;
    by apply (H a).
Qed.

Lemma move_without_rows s real rel moved box boxData box1 :
  (forall a, a ∈ real -> is_Some (angles s !! a)) ->
  membership_inverse (anglesList s) (angles s) ->
  (forall k a, a ∈ real -> involves (anglesList s) k a -> k ∈ randomData s) ->
  np_take box rel = Some boxData ->
  np_assign box rel moved = Some box1 ->
  exists s1 s2 s3,
    compute_before_move kernel s real box = Ok s1 /\
    compute_after_move kernel s1 real rel moved box = Ok (s2, box) /\
    accept_move s2 real rel = Ok s3 /\
    afterMoveStandardError s2 = standardError s /\
    data s3 = data s /\ standardError s3 = standardError s /\
    activeAtomsDataBeforeMove s3 = None /\
    activeAtomsDataAfterMove s3 = None.
Proof.
  intros Hkeys Hinv Hcol Htake Hassign.
  destruct (mapped_rows_Some _ _ Hkeys) as [rows Hrows].
  assert (Hempty : py_set_diff rows (randomData s) = []).
  { apply elem_of_nil_inv. intros k.
    rewrite elem_of_py_set_diff, (mapped_rows_involves _ _ _ _ Hinv Hrows).
    intros [(a & Ha & Hk) Hr]. by apply Hr, (Hcol k a). }
  eexists. eexists. eexists.
  split.
  { unfold compute_before_move. rewrite Hrows, Hempty. simpl. reflexivity. }
  split.
  { unfold compute_after_move. simpl. rewrite Htake, Hassign. simpl.
    unfold after_move_finish. simpl. f_equal. f_equal.
    pose proof (proj1 (np_take_Forall2 _ _ _) Htake) as HF.
    apply np_assign_put in Hassign as [vs ->].
    apply np_put_restore; [done|apply np_put_length|].
    intros p Hp. by apply np_put_lookup_notin. }
  split.
  { unfold accept_move. simpl. reflexivity. }
  simpl. done.
Qed.

End WithKernel.
End ImproperLocality.

(** ** Keys of the per-atom maps and failures of a move *)
Module ImproperKeys.
Import Improper ImproperSpec ImproperFacts PyFacts ImproperMoves
       ImproperAmputation ImproperTable ImproperLocality.

Lemma publish_is_Some m i o x y ei eo ex ey a :
  is_Some (publish m i o x y ei eo ex ey !! a) ->
  a = i \/ a = o \/ a = x \/ a = y \/ is_Some (m !! a).
Proof.
  unfold publish. intros H.
  destruct (decide (a = y)) as [->|?]; [tauto|].
  destruct (decide (a = x)) as [->|?]; [tauto|].
  destruct (decide (a = o)) as [->|?]; [tauto|].
  destruct (decide (a = i)) as [->|?]; [tauto|].
  rewrite !lookup_insert_ne in H by done. tauto.
Qed.

Lemma store_angle_keys N s i o x y lo up s' :
  keys_bounded N (angles s) ->
  i < N -> o < N -> x < N -> y < N ->
  store_angle s i o x y lo up = Ok s' ->
  keys_bounded N (angles s').
Proof.
  intros Hk Hi Ho Hx Hy. unfold store_angle, check. intros H.
  repeat case_match; simplify_eq;
    match goal with
    | |- keys_bounded _ (angles (after_dump ?t)) =>
        destruct (after_dump_defs t) as (_ & -> & _)
    end; simpl; intros a Ha; apply publish_is_Some in Ha;
    destruct Ha as [->|[->|[->|[->|Ha]]]]; auto.
Qed.

Lemma add_angle_keys PI N s a s' :
  numberOfAtoms s = Some N ->
  keys_bounded N (angles s) ->
  add_angle PI s a = Ok s' ->
  keys_bounded N (angles s') /\ numberOfAtoms s' = Some N.
Proof.
  intros HN Hk H. rewrite (add_angle_unfold PI s N a HN) in H.
  destruct a as [[[[[zi zo] zx] zy] lower] upper].
  destruct (valid_angle N _) eqn:Hv; [|done].
  apply valid_angle_spec in Hv as (Hr & _ & _).
  split.
  - eapply store_angle_keys; [done|..|exact H]; lia.
  - rewrite <- HN. by eapply store_angle_numberOfAtoms.
Qed.

Lemma add_angles_keys PI N rows : forall s s',
  numberOfAtoms s = Some N ->
  keys_bounded N (angles s) ->
  add_angles PI s rows = Ok s' ->
  keys_bounded N (angles s').
Proof.
  induction rows as [|[a|] rows IH]; intros s s' HN Hk H; simpl in H.
  - by simplify_eq.
  - destruct (add_angle PI s a) as [s1|] eqn:Ha; [|done].
    destruct (add_angle_keys _ _ _ _ _ HN Hk Ha) as [Hk1 HN1].
    by eapply IH.
  - done.
Qed.

Lemma finalize_fold_keys idxs : forall m a,
  is_Some (foldl (fun m idx => <[idx:=get_entry m idx]> m) m idxs !! a) ->
  a ∈ idxs \/ is_Some (m !! a).
Proof.
  induction idxs as [|i idxs IH]; intros m a; simpl; [tauto|].
  intros H. apply IH in H as [H|H]; [left; by right|].
  destruct (decide (i = a)) as [->|Hne]; [left; by left|].
  rewrite lookup_insert_ne in H by done. tauto.
Qed.

Lemma set_angles_keys PI s arg s' N :
  numberOfAtoms s = Some N ->
  set_angles PI s arg = Ok s' ->
  numberOfAtoms s' = Some N /\
  forall a, is_Some (angles s' !! a) <-> a < N.
Proof.
  intros HN H.
  pose proof (set_angles_membership _ _ _ _ _ HN H) as [_ Htot].
  unfold set_angles in H. rewrite HN in H.
  destruct (add_angles PI _ (rows_of arg)) as [s2|] eqn:Hadd; [|done].
  simplify_eq. simpl in *.
  assert (HN2 : numberOfAtoms s2 = Some N).
  { apply add_angles_membership in Hadd as [_ ->]; [done|].
    apply membership_inverse_empty. }
  split; [done|].
  intros a. split; [|apply Htot].
  intros Ha. apply finalize_fold_keys in Ha as [Ha|Ha].
  - apply elem_of_seq in Ha. lia.
  - refine (add_angles_keys PI N _ _ _ _ _ Hadd a Ha); simpl; [done|].
    intros a'. rewrite lookup_empty. by intros [? ?].
Qed.

Lemma set_angles_table_ok PI s arg s' N :
  (0 < PI)%Q ->
  numberOfAtoms s = Some N ->
  set_angles PI s arg = Ok s' ->
  table_ok PI N (anglesList s').
Proof.
  intros HPI HN. unfold set_angles. rewrite HN.
  destruct (add_angles PI _ (rows_of arg)) as [s2|] eqn:Hadd; [|done].
  intros [= <-]. simpl.
  eapply add_angles_table_ok; [done| | |exact Hadd]; simpl;
    [done|apply table_ok_empty].
Qed.

Lemma np_take_is_Some {A} (a : list A) idx :
  (forall i, i ∈ idx -> i < length a) -> is_Some (np_take a idx).
Proof.
  unfold np_take. induction idx as [|i idx IH]; intros H; [by eexists|].
  destruct (lookup_lt_is_Some_2 a i) as [v Hv]; [apply H; left|].
  destruct IH as [vs Hvs]; [intros j Hj; apply H; by right|].
  simpl. rewrite Hv. simpl. rewrite Hvs. by eexists.
Qed.

Section WithKernel.
Variable kernel :
  list nat -> list nat -> list nat -> list nat -> list Q -> list Q ->
  list vec3 -> option (list Q * list Q).

Lemma step_keeps_definitions s s' :
  step kernel s s' ->
  numberOfAtoms s' = numberOfAtoms s /\
  anglesList s' = anglesList s /\ angles s' = angles s.
Proof.
  intros Hstep.
  destruct Hstep as [s box s' H|s real box s' H|s real rel moved box s' box' H
                    |s real rel s' H|s real rel s' H|s real rel s' H
                    |s real rel s' H].
  - assert (Hf : forall av rv,
      numberOfAtoms (finish_compute_data s av rv) = numberOfAtoms s /\
      anglesList (finish_compute_data s av rv) = anglesList s /\
      angles (finish_compute_data s av rv) = angles s).
    { intros ? ?. unfold finish_compute_data. simpl.
      by destruct (originalData s). }
    unfold compute_data in H. case_decide.
    + destruct (kernel _ _ _ _ _ _ _) as [[a r]|]; [|done].
      simplify_eq. apply Hf.
    + destruct (kernel_on _ _ _ _) as [e|[a r]]; [done|].
      destruct (np_assign _ _ a) as [anglesData|]; [|done].
      destruct (np_assign _ _ r) as [reducedData|]; [|done].
      simplify_eq. apply Hf.
  - unfold compute_before_move in H.
    destruct (mapped_rows _ _) as [rows|]; [|done].
    case_decide; [by simplify_eq|].
    destruct (kernel_on _ _ _ _) as [e|[a r]]; [done|]. by simplify_eq.
  - unfold compute_after_move in H.
    destruct (activeAtomsDataBeforeMove s) as [b|]; [|done].
    destruct (np_take box rel) as [boxData|]; [|done].
    destruct (np_assign box rel moved) as [box1|]; [|done].
    assert (Hf : forall a r s1 bx,
      after_move_finish s b rel boxData box1 a r = Ok (s1, bx) ->
      numberOfAtoms s1 = numberOfAtoms s /\
      anglesList s1 = anglesList s /\ angles s1 = angles s).
    { intros a r s1 bx. unfold after_move_finish.
      destruct r as [r|]; [|by intros [= <- _]].
      unfold tentative_standard_error. simpl.
      intros Hf. repeat case_match; simplify_eq; simpl in *; simplify_eq;
        done. }
    case_decide; [by eapply Hf|].
    destruct (kernel_on _ _ _ _) as [e|[a r]]; [done|]. by eapply Hf.
  - unfold accept_move in H. repeat case_match; by simplify_eq.
  - unfold reject_move in H. by simplify_eq.
  - unfold accept_amputation in H. repeat case_match; by simplify_eq.
  - unfold reject_amputation in H. by simplify_eq.
Qed.

Lemma steps_keep_definitions s s' :
  rtc (step kernel) s s' ->
  numberOfAtoms s' = numberOfAtoms s /\
  anglesList s' = anglesList s /\ angles s' = angles s.
Proof.
  induction 1 as [|s s1 s2 Hstep _ IH]; [done|].
  apply step_keeps_definitions in Hstep. naive_solver congruence.
Qed.

Lemma kernel_on_no_IndexError PI N s rows box :
  table_ok PI N (anglesList s) ->
  (forall k, k ∈ rows -> k < n_angles s) ->
  match kernel_on kernel s rows box with
  | inl e => e = KernelError
  | inr _ => True
  end.
Proof.
  intros [Lo Lx Ly Llo Lup _ _] Hrows. unfold kernel_on, n_angles in *.
  destruct (np_take_is_Some (improperIdxs (anglesList s)) rows) as [? ->];
    [done|].
  destruct (np_take_is_Some (oIdxs (anglesList s)) rows) as [? ->];
    [intros; rewrite Lo; auto|].
  destruct (np_take_is_Some (xIdxs (anglesList s)) rows) as [? ->];
    [intros; rewrite Lx; auto|].
  destruct (np_take_is_Some (yIdxs (anglesList s)) rows) as [? ->];
    [intros; rewrite Ly; auto|].
  destruct (np_take_is_Some (lowerLimit (anglesList s)) rows) as [? ->];
    [intros; rewrite Llo; auto|].
  destruct (np_take_is_Some (upperLimit (anglesList s)) rows) as [? ->];
    [intros; rewrite Lup; auto|].
  by destruct (kernel _ _ _ _ _ _ _).
Qed.

Lemma compute_before_move_errors PI N s real box :
  membership_inverse (anglesList s) (angles s) ->
  table_ok PI N (anglesList s) ->
  (forall a, is_Some (angles s !! a) <-> a < N) ->
  match compute_before_move kernel s real box with
  | Ok _ => forall a, a ∈ real -> a < N
  | Raise e s' =>
      s' = s /\
      (e = KeyError /\ (exists a, a ∈ real /\ N <= a) \/
       e = KernelError /\ (forall a, a ∈ real -> a < N))
  end.
Proof.
  intros Hinv Htab Hkeys.
  destruct (decide (Forall (fun a => a < N) real)) as [Hall|Hex].
  - rewrite Forall_forall in Hall.
    destruct (mapped_rows_Some (angles s) real) as [rows Hrows].
    { intros a Ha. by apply Hkeys, Hall. }
    unfold compute_before_move. rewrite Hrows.
    case_decide; [done|].
    pose proof (kernel_on_no_IndexError PI N s
                  (py_set_diff rows (randomData s)) box Htab) as Hker.
    destruct (kernel_on _ _ _ _) as [e|[a r]]; [|done].
    split; [done|]. right. split; [|done]. apply Hker.
    intros k Hk. apply elem_of_py_set_diff in Hk as [Hk _].
    apply (mapped_rows_involves _ _ _ _ Hinv Hrows) in Hk as (a & _ & Hk).
    destruct Hinv as [Lo Lx Ly _ _]. unfold n_angles.
    destruct Hk as [Hk|[Hk|[Hk|Hk]]]; apply lookup_lt_Some in Hk;
      rewrite ?Lo, ?Lx, ?Ly in Hk; exact Hk.
  - apply not_Forall_Exists in Hex; [|apply _].
    apply Exists_exists in Hex as (a & Ha & Hge). simpl in Hge.
    rewrite (compute_before_move_KeyError kernel s real box a Ha).
    + split; [done|]. left. split; [done|]. exists a. split; [done|lia].
    + destruct (angles s !! a) eqn:Hm; [|done].
      exfalso. apply Hge, Hkeys. by eexists.
Qed.

End WithKernel.
End ImproperKeys.

(** ** What a coordination definition compiles to *)
Module CoordinationTables.
Import Coordination CoordinationSpec CoordinationFacts CoordinationCompile
       ImproperError.
#[local] Open Scope list_scope.

Lemma same_runtime_refl s : same_runtime s s.
Proof. by repeat split. Qed.

Lemma same_runtime_trans s1 s2 s3 :
  same_runtime s1 s2 -> same_runtime s2 s3 -> same_runtime s1 s3.
Proof. unfold same_runtime. intros ? ?. naive_solver congruence. Qed.

Lemma compile_def_Ok e s d s' :
  compile_def e s d = Ok s' ->
  exists core shell,
    resolve e (coreDef d) = inr core /\
    resolve e (shellDef d) = inr shell /\
    (0 < weight_of d)%Q /\
    s' = set_coordNumData
           (set_defs s
              (append_def (defs s) core shell (lowerShell d) (upperShell d)
                 (minCN d) (maxCN d) (weight_of d)))
           (coordNumData s ++ [0%Q]).
Proof.
  unfold compile_def, check, weight_of. intros H.
  destruct (resolve e (coreDef d)) as [|core]; [done|].
  destruct (resolve e (shellDef d)) as [|shell]; [done|].
  destruct (Qle_bool 0 (lowerShell d)); [|done].
  destruct (Qltb (lowerShell d) (upperShell d)); [|done].
  destruct (Qle_bool 0 (minCN d)); [|done].
  destruct (Qle_bool (minCN d) (maxCN d)); [|done].
  destruct (Qltb 0 (default 1%Q (weight d))) eqn:Hw; [|done].
  simplify_eq. exists core, shell. repeat split; try done.
  by apply Qltb_true.
Qed.

Lemma compile_def_frame e s d :
  same_runtime s (state_of (compile_def e s d)) /\
  coordNumDef (state_of (compile_def e s d)) = coordNumDef s.
Proof.
  unfold compile_def, check.
  repeat case_match; simpl; split; try done; apply same_runtime_refl.
Qed.

Lemma compile_defs_frame e l : forall s,
  same_runtime s (state_of (compile_defs e s l)) /\
  coordNumDef (state_of (compile_defs e s l)) = coordNumDef s.
Proof.
  induction l as [|d l IH]; intros s; simpl.
  - split; [apply same_runtime_refl|done].
  - pose proof (compile_def_frame e s d) as [H1 H2].
    destruct (compile_def e s d) as [s1|err s1]; simpl in *; [|done].
    destruct (IH s1) as [H3 H4]. split; [|congruence].
    by eapply same_runtime_trans.
Qed.

Lemma compile_defs_Ok e l : forall s s',
  compile_defs e s l = Ok s' ->
  exists cores shells,
    Forall2 (fun d c => resolve e (coreDef d) = inr c) l cores /\
    Forall2 (fun d c => resolve e (shellDef d) = inr c) l shells /\
    Forall (fun d => (0 < weight_of d)%Q) l /\
    coresIndexes (defs s') = coresIndexes (defs s) ++ (sorted_set <$> cores) /\
    shellsIndexes (defs s')
      = shellsIndexes (defs s) ++ (sorted_set <$> shells) /\
    lowerShells (defs s') = lowerShells (defs s) ++ (lowerShell <$> l) /\
    upperShells (defs s') = upperShells (defs s) ++ (upperShell <$> l) /\
    minAtoms (defs s') = minAtoms (defs s) ++ (minCN <$> l) /\
    maxAtoms (defs s') = maxAtoms (defs s) ++ (maxCN <$> l) /\
    weights (defs s') = weights (defs s) ++ (weight_of <$> l) /\
    coordNumData s' = coordNumData s ++ replicate (length l) 0%Q.
Proof.
  induction l as [|d l IH]; intros s s' H; simpl in H.
  - simplify_eq. exists [], []. simpl. rewrite !app_nil_r.
    repeat split; constructor.
  - destruct (compile_def e s d) as [s1|] eqn:H1; [|done].
    apply compile_def_Ok in H1 as (core & shell & Rc & Rs & Hw & ->).
    apply IH in H
      as (cores & shells & Fc & Fs & Fw & E1 & E2 & E3 & E4 & E5 & E6 & E7
          & E8).
    simpl in *.
    exists (core :: cores), (shell :: shells).
    rewrite E1, E2, E3, E4, E5, E6, E7, E8. simpl.
    rewrite <- !app_assoc. simpl.
    repeat split; try done; by constructor.
Qed.

Lemma resolve_Ok e sel idxs :
  resolve e sel = inr idxs ->
  exists name, sel = SelString name /\ name ∈ elements e /\
               idxs = indexes_of name (allElements e) 0.
Proof.
  destruct sel as [name| |]; simpl; [|done..].
  case_bool_decide; [|done]. intros [= <-]. by exists name.
Qed.

Lemma indexes_of_elem name els : forall idx a,
  a ∈ indexes_of name els idx <->
  exists p, a = idx + p /\ els !! p = Some name.
Proof.
  induction els as [|el els IH]; intros idx a; simpl.
  - rewrite elem_of_nil. split; [done|]. by intros (p & _ & ?).
  - assert (Hrest : a ∈ indexes_of name els (S idx) <->
              exists p, a = idx + S p /\ els !! p = Some name).
    { rewrite IH. split; intros (p & -> & Hp); exists p; split; done || lia. }
    case_decide as Hel.
    + rewrite elem_of_cons, Hrest. split.
      * intros [->|(p & -> & Hp)].
        -- exists 0. split; [lia|]. simpl. by rewrite Hel.
        -- by exists (S p).
      * intros ([|p] & -> & Hp); [left; lia|]. right. by exists p.
    + rewrite Hrest. split.
      * intros (p & -> & Hp). by exists (S p).
      * intros ([|p] & -> & Hp); [simpl in Hp; congruence|]. by exists p.
Qed.

Lemma sorted_set_ascending l : StronglySorted lt (sorted_set l).
Proof.
  unfold sorted_set.
  assert (Hs : StronglySorted Nat.le (merge_sort Nat.le (remove_dups l))).
  { apply StronglySorted_merge_sort; apply _. }
  assert (Hn : NoDup (merge_sort Nat.le (remove_dups l))).
  { rewrite merge_sort_Permutation. apply NoDup_remove_dups. }
  induction Hs as [|x xs Hs IH Hx]; [constructor|].
  apply NoDup_cons in Hn as [Hnx Hn].
  constructor; [by apply IH|].
  rewrite Forall_forall in Hx |- *. intros y Hy.
  specialize (Hx y Hy). unfold Nat.le in Hx.
  assert (x <> y) by (intros ->; done). lia.
Qed.

Lemma compiled_set e sel idxs :
  resolve e sel = inr idxs ->
  exists name, sel = SelString name /\ name ∈ elements e /\
    StronglySorted lt (sorted_set idxs) /\
    forall a, a ∈ sorted_set idxs <-> allElements e !! a = Some name.
Proof.
  intros (name & -> & Hin & ->)%resolve_Ok. exists name.
  split; [done|]. split; [done|]. split; [apply sorted_set_ascending|].
  intros a. rewrite elem_of_sorted_set, indexes_of_elem. split.
  - by intros (p & -> & Hp).
  - intros Ha. by exists a.
Qed.

Lemma set_definition_Ok s e arg s' :
  engine s = Some e ->
  set_coordination_number_definition s arg = Ok s' ->
  exists s1,
    compile_defs e (initialize_constraint_data s) (default [] arg) = Ok s1 /\
    coordNumDef s' = Some (default [] arg) /\
    coordNumData s' = coordNumData s1 /\
    coresIndexes (defs s') = coresIndexes (defs s1) /\
    shellsIndexes (defs s') = shellsIndexes (defs s1) /\
    lowerShells (defs s') = lowerShells (defs s1) /\
    upperShells (defs s') = upperShells (defs s1) /\
    minAtoms (defs s') = minAtoms (defs s1) /\
    maxAtoms (defs s') = maxAtoms (defs s1) /\
    weights (defs s') = weights (defs s1) /\
    numberOfCores (defs s')
      = (fun idxs => inject_Z (Z.of_nat (length idxs)))
          <$> coresIndexes (defs s1) /\
    same_runtime s s'.
Proof.
  intros He. unfold set_coordination_number_definition. rewrite He.
  pose proof (compile_defs_frame e (default [] arg)
                (initialize_constraint_data s)) as [Hfr _].
  destruct (compile_defs e _ _) as [s1|] eqn:Hc; [|done].
  destruct (point_defs _ 0 (coresIndexes _)) as [core|]; [|done].
  destruct (point_defs _ 0 (shellsIndexes _)) as [shell|]; [|done].
  intros [= <-]. exists s1. simpl. repeat split; try done; apply Hfr.
Qed.

Lemma set_definition_rows s e l s' :
  engine s = Some e ->
  set_coordination_number_definition s (Some l) = Ok s' ->
  coordNumDef s' = Some l /\
  coordNumData s' = replicate (length l) 0%Q /\
  length (coresIndexes (defs s')) = length l /\
  forall k d, l !! k = Some d ->
    exists c sh cores shells,
      coreDef d = SelString c /\ shellDef d = SelString sh /\
      c ∈ elements e /\ sh ∈ elements e /\
      coresIndexes (defs s') !! k = Some cores /\
      shellsIndexes (defs s') !! k = Some shells /\
      StronglySorted lt cores /\ StronglySorted lt shells /\
      (forall a, a ∈ cores <-> allElements e !! a = Some c) /\
      (forall a, a ∈ shells <-> allElements e !! a = Some sh) /\
      numberOfCores (defs s') !! k
        = Some (inject_Z (Z.of_nat (length cores))) /\
      lowerShells (defs s') !! k = Some (lowerShell d) /\
      upperShells (defs s') !! k = Some (upperShell d) /\
      minAtoms (defs s') !! k = Some (minCN d) /\
      maxAtoms (defs s') !! k = Some (maxCN d) /\
      weights (defs s') !! k = Some (weight_of d).
Proof.
  intros He H.
  apply (set_definition_Ok _ _ _ _ He) in H
    as (s1 & Hc & Hdef & Hdata & E1 & E2 & E3 & E4 & E5 & E6 & E7 & E8 & _).
  simpl in Hc, Hdef.
  apply compile_defs_Ok in Hc
    as (cores & shells & Fc & Fs & _ & C1 & C2 & C3 & C4 & C5 & C6 & C7 & C8).
  simpl in *.
  rewrite E1, E2, E3, E4, E5, E6, E7, E8, Hdata, C1, C2, C3, C4, C5, C6, C7, C8.
  split; [done|]. split; [done|].
  split. { rewrite length_fmap. symmetry. by eapply Forall2_length. }
  intros k d Hk.
  destruct (Forall2_lookup_l _ _ _ _ _ Fc Hk) as (core & Hcore & Rc).
  destruct (Forall2_lookup_l _ _ _ _ _ Fs Hk) as (shell & Hshell & Rs).
  apply compiled_set in Rc as (c & Hcd & Hcin & Hcs & Hcm).
  apply compiled_set in Rs as (sh & Hsd & Hsin & Hss & Hsm).
  exists c, sh, (sorted_set core), (sorted_set shell).
  rewrite !list_lookup_fmap, Hcore, Hshell, Hk. simpl.
  repeat split; try done; try apply Hcm; try apply Hsm.
Qed.

(** The result is a function of the engine and of the argument. *)
Lemma compile_def_independent e s t d :
  defs s = defs t -> coordNumData s = coordNumData t ->
  match compile_def e s d, compile_def e t d with
  | Ok s', Ok t' => defs s' = defs t' /\ coordNumData s' = coordNumData t'
  | Raise e1 _, Raise e2 _ => e1 = e2
  | _, _ => False
  end.
Proof.
  intros Hd Hc. unfold compile_def, check. rewrite Hd, Hc.
  repeat case_match; simplify_eq; done.
Qed.

Lemma compile_defs_independent e l : forall s t,
  defs s = defs t -> coordNumData s = coordNumData t ->
  match compile_defs e s l, compile_defs e t l with
  | Ok s', Ok t' => defs s' = defs t' /\ coordNumData s' = coordNumData t'
  | Raise e1 _, Raise e2 _ => e1 = e2
  | _, _ => False
  end.
Proof.
  induction l as [|d l IH]; intros s t Hd Hc; simpl; [done|].
  pose proof (compile_def_independent e s t d Hd Hc) as H.
  destruct (compile_def e s d) as [s1|e1 s1], (compile_def e t d) as [t1|e2 t1];
    try done.
  destruct H as [H1 H2]. by apply IH.
Qed.

Lemma set_definition_independent s t e arg :
  engine s = Some e -> engine t = Some e ->
  match set_coordination_number_definition s arg,
        set_coordination_number_definition t arg with
  | Ok s', Ok t' =>
      defs s' = defs t' /\ coordNumData s' = coordNumData t' /\
      coordNumDef s' = coordNumDef t'
  | Raise e1 _, Raise e2 _ => e1 = e2
  | _, _ => False
  end.
Proof.
  intros Hs Ht. unfold set_coordination_number_definition. rewrite Hs, Ht.
  pose proof (compile_defs_independent e (default [] arg)
                (initialize_constraint_data s) (initialize_constraint_data t)
                eq_refl eq_refl) as H.
  destruct (compile_defs e (initialize_constraint_data s) _) as [s1|e1 s1],
           (compile_defs e (initialize_constraint_data t) _) as [t1|e2 t1];
    try done.
  destruct H as [Hd Hc]. rewrite Hd.
  destruct (point_defs _ 0 (coresIndexes (defs t1))) as [core|];
    [|done].
  destruct (point_defs _ 0 (shellsIndexes (defs t1))) as [shell|];
    [|done].
  simpl. unfold set_numberOfCores, set_pointers. simpl. rewrite Hd, Hc. done.
Qed.

Lemma compile_defs_Raise_rows e l : forall s err s',
  compile_defs e s l = Raise err s' ->
  length (lowerShells (defs s')) <= length (lowerShells (defs s)) + length l.
Proof.
  induction l as [|d l IH]; intros s err s' H; simpl in H; [done|].
  destruct (compile_def e s d) as [s1|err1 s1] eqn:H1.
  - apply IH in H. apply compile_def_Ok in H1 as (? & ? & _ & _ & _ & ->).
    simpl in H. rewrite length_app in H. simpl in *. lia.
  - simplify_eq. unfold compile_def, check in H1.
    repeat case_match; simplify_eq; simpl; lia.
Qed.

(** A call that raises never keeps the definition of before. *)
Lemma set_definition_Raise s e arg err s' :
  engine s = Some e ->
  set_coordination_number_definition s arg = Raise err s' ->
  coordNumDef s' = None /\ same_runtime s s' /\
  length (lowerShells (defs s')) <= length (default [] arg).
Proof.
  intros He. unfold set_coordination_number_definition. rewrite He.
  pose proof (compile_defs_frame e (default [] arg)
                (initialize_constraint_data s)) as [Hfr Hdef].
  destruct (compile_defs e _ _) as [s1|err1 s1] eqn:Hc.
  - apply compile_defs_Ok in Hc
      as (cores & shells & _ & _ & _ & _ & _ & E3 & _).
    simpl in *.
    destruct (point_defs _ 0 (coresIndexes _)) as [core|err2 core].
    + destruct (point_defs _ 0 (shellsIndexes _)) as [shell|err3 shell];
        [done|].
      intros [= _ <-]. simpl. split; [done|]. split; [apply Hfr|].
      rewrite E3. by rewrite length_fmap.
    + intros [= _ <-]. simpl. split; [done|]. split; [apply Hfr|].
      rewrite E3. by rewrite length_fmap.
  - intros [= _ <-]. simpl in *. split; [done|]. split; [done|].
    apply compile_defs_Raise_rows in Hc. simpl in Hc. lia.
Qed.

End CoordinationTables.

(** ** Bounds, cycles and messages of the coordination constraint *)
Module CoordinationBound.
Import Coordination CoordinationSpec CoordinationFacts CoordinationCompile
       CoordinationError CoordinationTables CoordinationMoves ImproperError.
#[local] Open Scope list_scope.

Lemma within_bounds_cons d idx cn rest :
  within_bounds d idx (cn :: rest) <->
  ((forall mn, minAtoms d !! idx = Some mn -> (mn <= cn)%Q) /\
   (forall mx, maxAtoms d !! idx = Some mx -> (cn <= mx)%Q)) /\
  within_bounds d (S idx) rest.
Proof.
  unfold within_bounds. split.
  - intros H. split.
    + specialize (H 0 cn eq_refl). by rewrite Nat.add_0_r in H.
    + intros j c Hj. specialize (H (S j) c Hj).
      by rewrite Nat.add_succ_r in H.
  - intros [H0 H] [|j] c Hj; simpl in Hj.
    + simplify_eq. by rewrite Nat.add_0_r.
    + rewrite Nat.add_succ_r. by apply H.
Qed.

Lemma standard_error_loop_bound d :
  (forall k w, weights d !! k = Some w -> (0 < w)%Q) ->
  forall coordNum idx acc se,
    standard_error_loop d idx coordNum acc = inr se ->
    (acc <= se)%Q /\ ((se == acc)%Q <-> within_bounds d idx coordNum).
Proof.
  intros Hw. induction coordNum as [|cn rest IH]; intros idx acc se H.
  - simpl in H. simplify_eq. split; [lra|]. split; [|done].
    intros _ j c Hj. done.
  - simpl in H. rewrite within_bounds_cons.
    destruct (minAtoms d !! idx) as [mn|] eqn:Hmn; [|done].
    destruct (Qltb cn mn) eqn:Hlt.
    + destruct (weights d !! idx) as [w|] eqn:Hwk; [|done].
      apply Qltb_true in Hlt. specialize (Hw _ _ Hwk).
      assert (0 < w * (mn - cn))%Q by (apply Qmult_lt_0_compat; lra).
      apply IH in H as [Hle _]. split; [lra|]. split; [lra|].
      intros [[Hb _] _]. specialize (Hb mn eq_refl). lra.
    + apply Qltb_false in Hlt.
      destruct (maxAtoms d !! idx) as [mx|] eqn:Hmx; [|done].
      destruct (Qltb mx cn) eqn:Hgt.
      * destruct (weights d !! idx) as [w|] eqn:Hwk; [|done].
        apply Qltb_true in Hgt. specialize (Hw _ _ Hwk).
        assert (0 < w * (cn - mx))%Q by (apply Qmult_lt_0_compat; lra).
        apply IH in H as [Hle _]. split; [lra|]. split; [lra|].
        intros [[_ Hb] _]. specialize (Hb mx eq_refl). lra.
      * apply Qltb_false in Hgt. apply IH in H as [Hle Hiff].
        split; [done|]. rewrite Hiff. split; [|tauto].
        intros Hr. split; [|done].
        split; intros ? ?; by simplify_eq.
Qed.

Lemma compute_standard_error_bound s data :
  aligned (length data) (defs s) ->
  (forall k w, weights (defs s) !! k = Some w -> (0 < w)%Q) ->
  exists se coordNum,
    np_zip Qdiv data (numberOfCores (defs s)) = Some coordNum /\
    compute_standard_error s data = inr se /\
    (0 <= se)%Q /\
    ((se == 0)%Q <-> within_bounds (defs s) 0 coordNum).
Proof.
  intros (Hn & Hmn & Hmx & Hwl) Hw.
  destruct (compute_standard_error_sum s data Hn Hmn Hmx Hwl)
    as (se & Hse & _).
  unfold compute_standard_error in *.
  destruct (np_zip Qdiv data _) as [coordNum|]; [|done].
  exists se, coordNum. split; [done|]. split; [done|].
  by apply (standard_error_loop_bound _ Hw) in Hse.
Qed.

Lemma set_definition_aligned s e l s' :
  engine s = Some e ->
  set_coordination_number_definition s (Some l) = Ok s' ->
  aligned (length l) (defs s') /\
  length (coordNumData s') = length l /\
  (forall k w, weights (defs s') !! k = Some w -> (0 < w)%Q).
Proof.
  intros He H.
  apply (set_definition_Ok _ _ _ _ He) in H
    as (s1 & Hc & Hdef & Hdata & E1 & E2 & E3 & E4 & E5 & E6 & E7 & E8 & _).
  simpl in Hc.
  apply compile_defs_Ok in Hc
    as (cores & shells & Fc & Fs & Fw & C1 & C2 & C3 & C4 & C5 & C6 & C7 & C8).
  simpl in *. unfold aligned.
  rewrite E5, E6, E7, E8, Hdata, C1, C5, C6, C7, C8.
  rewrite !length_fmap, length_replicate.
  apply Forall2_length in Fc.
  repeat split; try done.
  intros k w Hk. rewrite list_lookup_fmap in Hk.
  destruct (l !! k) as [d|] eqn:Hd; [|done]. simpl in Hk. simplify_eq.
  rewrite Forall_forall in Fw. apply Fw.
  by eapply list_elem_of_lookup_2.
Qed.

Lemma set_definition_array s e arg s' :
  engine s = Some e ->
  set_coordination_number_definition s arg = Ok s' ->
  coordNumDataIsArray s' = true.
Proof.
  intros He. unfold set_coordination_number_definition. rewrite He.
  destruct (compile_defs e _ _) as [s1|]; [|done].
  destruct (point_defs _ 0 (coresIndexes _)) as [core|]; [|done].
  destruct (point_defs _ 0 (shellsIndexes _)) as [shell|]; [|done].
  by intros [= <-].
Qed.

Section WithKernels.
Variable all_atoms_coord_number_coords :
  list vec3 -> tables -> list Q -> option (list Q).
Variable multi_atoms_coord_number_coords :
  list nat -> list vec3 -> tables -> list Q -> option (list Q).

Lemma compute_data_Ok s box s1 :
  compute_data all_atoms_coord_number_coords s box = Ok s1 ->
  exists raw se,
    all_atoms_coord_number_coords box (defs s) (coordNumData s) = Some raw /\
    coordNumData s1 = (fun c => c / 2)%Q <$> raw /\
    defs s1 = defs s /\
    compute_standard_error s1 (coordNumData s1) = inr se /\
    standardError s1 = Some se /\
    activeAtomsDataBeforeMove s1 = None /\
    activeAtomsDataAfterMove s1 = None.
Proof.
  unfold compute_data.
  destruct (all_atoms_coord_number_coords _ _ _) as [raw|]; [|done].
  destruct (coordNumDataIsArray s); [|done].
  destruct (compute_standard_error _ _) as [|se] eqn:Hse; [done|].
  intros [= <-]. exists raw, se. simpl. repeat split; try done.
Qed.

Lemma compute_data_total s box raw :
  coordNumDataIsArray s = true ->
  aligned (length raw) (defs s) ->
  all_atoms_coord_number_coords box (defs s) (coordNumData s) = Some raw ->
  is_ok (compute_data all_atoms_coord_number_coords s box) = true.
Proof.
  intros Harr (Hn & Hmn & Hmx & Hwl) Hk. unfold compute_data.
  rewrite Hk, Harr.
  destruct (compute_standard_error_sum
              (clear_active (set_coordNumData s ((fun c => c / 2)%Q <$> raw)))
              ((fun c => c / 2)%Q <$> raw)) as (se & Hse & _);
    simpl; rewrite ?length_fmap; try done.
  simpl in Hse. by rewrite Hse.
Qed.

Lemma accepted_move_committed s indexes moved box s1 s2 box2 s3 :
  compute_before_move multi_atoms_coord_number_coords s indexes box = Ok s1 ->
  compute_after_move multi_atoms_coord_number_coords s1 indexes moved box
    = Ok (s2, box2) ->
  accept_move s2 indexes = Ok s3 ->
  exists se,
    defs s3 = defs s /\
    compute_standard_error s3 (coordNumData s3) = inr se /\
    standardError s3 = Some se /\
    afterMoveStandardError s2 = Some se /\
    afterMoveStandardError s3 = None /\
    activeAtomsDataBeforeMove s3 = None /\
    activeAtomsDataAfterMove s3 = None /\
    length (coordNumData s3) = length (coordNumData s).
Proof.
  unfold compute_before_move, compute_after_move, accept_move.
  destruct (coordNumDataIsArray s) eqn:Harr; [|done].
  destruct (multi_atoms_coord_number_coords indexes box _ _) as [before|]
    eqn:Hb; [|done].
  intros [= <-]. simpl. rewrite Harr.
  destruct (np_take box indexes) as [boxData|]; [|done].
  destruct (np_assign box indexes moved) as [box1|]; [|done].
  destruct (multi_atoms_coord_number_coords indexes box1 _ _) as [after|]
    eqn:Ha; [|done].
  unfold patched_data. simpl.
  destruct (np_zip Qminus _ before) as [diff|] eqn:Hd; [|done].
  destruct (np_zip Qplus diff after) as [d|] eqn:Hp; [|done].
  destruct (compute_standard_error _ d) as [|se] eqn:Hse; [done|].
  intros [= <- _]. simpl. intros [= <-]. simpl.
  exists se. repeat split; try done.
  unfold np_zip in Hd, Hp. repeat case_decide; simplify_eq.
  rewrite !length_zip_with in *. lia.
Qed.

Lemma after_move_needs_before s indexes moved box :
  activeAtomsDataBeforeMove s = None ->
  match compute_after_move multi_atoms_coord_number_coords s indexes moved box
  with
  | Ok _ => False
  | Raise e (s', box') =>
      match np_assign box indexes moved with
      | Some box1 =>
          if coordNumDataIsArray s then
            match multi_atoms_coord_number_coords indexes box1 (defs s)
                    (zeros_like (coordNumData s)) with
            | Some after =>
                e = TypeError /\ box' = box /\
                activeAtomsDataAfterMove s' = Some after /\
                coordNumData s' = coordNumData s /\
                standardError s' = standardError s /\
                afterMoveStandardError s' = afterMoveStandardError s
            | None => e = KernelError /\ box' = box1 /\ s' = s
            end
          else e = AttributeError /\ box' = box1 /\ s' = s
      | None => box' = box /\ s' = s
      end
  end.
Proof.
  intros Hb. unfold compute_after_move.
  destruct (np_take box indexes) as [boxData|] eqn:Ht.
  2:{ destruct (np_assign box indexes moved) as [box1|] eqn:Ha; [|done].
      exfalso. unfold np_assign in Ha.
      destruct (in_range box indexes) eqn:Hr; [|done].
      pose proof (proj1 (ImproperAmputation.in_range_spec box indexes) Hr)
        as Hlt.
      destruct (ImproperKeys.np_take_is_Some box indexes Hlt) as [? ?].
      congruence. }
  destruct (np_assign box indexes moved) as [box1|] eqn:Ha; [|done].
  destruct (coordNumDataIsArray s); [|done].
  destruct (multi_atoms_coord_number_coords indexes box1 _ _) as [after|];
    [|done].
  unfold patched_data. simpl. rewrite Hb. simpl.
  repeat split; try done.
  pose proof (proj1 (PyFacts.np_take_Forall2 _ _ _) Ht) as HF.
  apply PyFacts.np_assign_put in Ha as [vs ->].
  apply PyFacts.np_put_restore; [done|apply PyFacts.np_put_length|].
  intros p Hp. by apply PyFacts.np_put_lookup_notin.
Qed.

End WithKernels.

(** [listen] compiles what is kept in [coordNumDef]. *)
Lemma listen_recompiles s t e l msg :
  msg = "engine set"%string \/ msg = "update molecules indexes"%string ->
  engine s = Some e -> coordNumDef s = l ->
  engine t = Some e ->
  match listen s msg, set_coordination_number_definition t l with
  | Ok s', Ok t' =>
      defs s' = defs t' /\ coordNumData s' = coordNumData t' /\
      coordNumDef s' = coordNumDef t' /\ same_runtime s s'
  | Raise e1 s', Raise e2 _ => e1 = e2 /\ coordNumDef s' = None
  | _, _ => False
  end.
Proof.
  intros Hmsg Hs Hl Ht. unfold listen.
  rewrite bool_decide_eq_true_2.
  2:{ destruct Hmsg as [-> | ->]; [by left|by right; left]. }
  rewrite Hl.
  pose proof (set_definition_independent s t e l Hs Ht) as H.
  destruct (set_coordination_number_definition s l) as [s'|e1 s'] eqn:H1,
           (set_coordination_number_definition t l) as [t'|e2 t']; try done.
  - destruct H as (? & ? & ?).
    apply (set_definition_Ok _ _ _ _ Hs) in H1 as (? & _ & _ & _ & _ & _ & _
      & _ & _ & _ & _ & _ & Hr).
    done.
  - split; [done|]. by apply (set_definition_Raise _ _ _ _ _ Hs) in H1 as [? _].
Qed.


Lemma listen_other s msg :
  msg <> "engine set"%string -> msg <> "update molecules indexes"%string ->
  exists s', listen s msg = Ok s' /\
    defs s' = defs s /\ coordNumDef s' = coordNumDef s /\
    coordNumData s' = coordNumData s /\ engine s' = engine s.
Proof.
  intros H1 H2. unfold listen. rewrite bool_decide_eq_false_2.
  2:{ rewrite !elem_of_cons, elem_of_nil. tauto. }
  case_bool_decide; eexists; split; done.
Qed.

End CoordinationBound.

(** ** The two formats of the angles *)
Module ImproperForms.
Import Improper ImproperSpec ImproperFacts ImproperCompile ImproperTable
       ImproperRedefine ImproperError.
#[local] Open Scope list_scope.

Lemma add_angle_redefines PI N s zi zo zx zy lower upper zo' zx' zy'
      lower' upper' :
  numberOfAtoms s = Some N ->
  membership_inverse (anglesList s) (angles s) ->
  entries_ok (anglesList s) (angles s) ->
  table_ok PI N (anglesList s) ->
  (forall k, improperIdxs (anglesList s) !! k <> Some (Z.to_nat zi)) ->
  valid_angle N (zi, zo, zx, zy, lower, upper) = true ->
  valid_angle N (zi, zo', zx', zy', lower', upper') = true ->
  recognised (Z.to_nat zo) (Z.to_nat zx) (Z.to_nat zy)
             (Z.to_nat zo') (Z.to_nat zx') (Z.to_nat zy') ->
  exists s1 s2,
    add_angle PI s (zi, zo, zx, zy, lower, upper) = Ok s1 /\
    add_angle PI s1 (zi, zo', zx', zy', lower', upper') = Ok s2 /\
    n_angles s1 = S (n_angles s) /\
    n_angles s2 = n_angles s1 /\
    warnings s2 = S (warnings s) /\
    improperIdxs (anglesList s2) !! n_angles s = Some (Z.to_nat zi) /\
    oIdxs (anglesList s2) !! n_angles s = Some (Z.to_nat zo') /\
    xIdxs (anglesList s2) !! n_angles s = Some (Z.to_nat zx') /\
    yIdxs (anglesList s2) !! n_angles s = Some (Z.to_nat zy') /\
    lowerLimit (anglesList s2) !! n_angles s = Some (to_rad PI lower') /\
    upperLimit (anglesList s2) !! n_angles s = Some (to_rad PI upper').
Proof.
  intros HN Hinv Hent Htab Hnone Hv Hv' Hrec.
  pose proof (proj1 (valid_angle_spec _ _ _ _ _ _ _) Hv) as (Hr & Hd & _).
  destruct (store_angle_twice s (Z.to_nat zi) (Z.to_nat zo) (Z.to_nat zx)
              (Z.to_nat zy) (to_rad PI lower) (to_rad PI upper)
              (Z.to_nat zo') (Z.to_nat zx') (Z.to_nat zy')
              (to_rad PI lower') (to_rad PI upper') Hinv Hent)
    as (s1 & s2 & H1 & H2 & Hn1 & Hn2 & Hrest); try done; try lia.
  - apply Htab.
  - apply Htab.
  - exists s1, s2.
    rewrite (add_angle_unfold PI s N _ HN), Hv.
    assert (HN1 : numberOfAtoms s1 = Some N).
    { rewrite <- HN. by eapply store_angle_numberOfAtoms. }
    rewrite (add_angle_unfold PI s1 N _ HN1), Hv'.
    repeat split; try done; try apply Hrest. congruence.
Qed.

(** The six-vectors form of a list of items. *)
Lemma rows_of_vectors (l : list raw_angle) :
  rows_of (ArgVectors ((fun a => a.1.1.1.1.1) <$> l)
                      ((fun a => a.1.1.1.1.2) <$> l)
                      ((fun a => a.1.1.1.2) <$> l)
                      ((fun a => a.1.1.2) <$> l)
                      ((fun a => a.1.2) <$> l)
                      ((fun a => a.2) <$> l))
  = rows_of (ArgTuples l).
Proof.
  unfold rows_of, raw_angle in *. rewrite length_fmap. apply list_eq.
  intros k.
  rewrite !list_lookup_fmap.
  destruct (decide (k < length l)) as [Hlt|Hge].
  - destruct (lookup_lt_is_Some_2 l k Hlt) as [a Ha].
    rewrite lookup_seq_lt by done. rewrite Ha. simpl.
    unfold vector_row. rewrite !list_lookup_fmap, Ha. simpl.
    by destruct a as [[[[[? ?] ?] ?] ?] ?].
  - rewrite lookup_seq_ge by lia. rewrite lookup_ge_None_2 by lia. done.
Qed.

Lemma add_angles_None PI rows : forall s,
  None ∈ rows -> is_ok (add_angles PI s rows) = false.
Proof.
  induction rows as [|[a|] rows IH]; intros s Hin; simpl.
  - by apply elem_of_nil in Hin.
  - destruct (add_angle PI s a); [|done]. apply IH.
    by apply elem_of_cons in Hin as [?|?].
  - done.
Qed.

Lemma vector_row_short v0 v1 v2 v3 v4 v5 :
  (length v1 < length v0 \/ length v2 < length v0 \/ length v3 < length v0 \/
   length v4 < length v0 \/ length v5 < length v0) ->
  None ∈ rows_of (ArgVectors v0 v1 v2 v3 v4 v5).
Proof.
  intros H. simpl. apply list_elem_of_fmap.
  assert (G : forall k, k < length v0 ->
            vector_row v0 v1 v2 v3 v4 v5 k = None ->
            exists y, None = vector_row v0 v1 v2 v3 v4 v5 y /\
                      y ∈ seq 0 (length v0)).
  { intros k Hk Hv. exists k. split; [done|]. apply elem_of_seq. lia. }
  unfold vector_row in *.
  destruct H as [H|[H|[H|[H|H]]]].
  - apply (G (length v1)); [done|].
    destruct (v0 !! length v1); [simpl|done].
    by rewrite (lookup_ge_None_2 v1).
  - apply (G (length v2)); [done|].
    destruct (v0 !! length v2); [simpl|done].
    destruct (v1 !! length v2); [simpl|done].
    by rewrite (lookup_ge_None_2 v2).
  - apply (G (length v3)); [done|].
    destruct (v0 !! length v3); [simpl|done].
    destruct (v1 !! length v3); [simpl|done].
    destruct (v2 !! length v3); [simpl|done].
    by rewrite (lookup_ge_None_2 v3).
  - apply (G (length v4)); [done|].
    destruct (v0 !! length v4); [simpl|done].
    destruct (v1 !! length v4); [simpl|done].
    destruct (v2 !! length v4); [simpl|done].
    destruct (v3 !! length v4); [simpl|done].
    by rewrite (lookup_ge_None_2 v4).
  - apply (G (length v5)); [done|].
    destruct (v0 !! length v5); [simpl|done].
    destruct (v1 !! length v5); [simpl|done].
    destruct (v2 !! length v5); [simpl|done].
    destruct (v3 !! length v5); [simpl|done].
    destruct (v4 !! length v5); [simpl|done].
    by rewrite (lookup_ge_None_2 v5).
Qed.

Lemma set_angles_rows PI s N arg arg' :
  numberOfAtoms s = Some N ->
  rows_of arg = rows_of arg' ->
  set_angles PI s arg = set_angles PI s arg'.
Proof.
  intros HN Hrows. unfold set_angles. by rewrite HN, Hrows.
Qed.

Lemma set_angles_short_vectors PI s N v0 v1 v2 v3 v4 v5 :
  numberOfAtoms s = Some N ->
  (length v1 < length v0 \/ length v2 < length v0 \/ length v3 < length v0 \/
   length v4 < length v0 \/ length v5 < length v0) ->
  is_ok (set_angles PI s (ArgVectors v0 v1 v2 v3 v4 v5)) = false.
Proof.
  intros HN Hshort. unfold set_angles. rewrite HN.
  pose proof (add_angles_None PI _
                (set_dumpAngles (set_defs s empty_table ∅) false)
                (vector_row_short _ _ _ _ _ _ Hshort)) as H.
  by destruct (add_angles _ _ _).
Qed.

Lemma sum_of_squares_bound l :
  (0 <= sum_of_squares l)%Q /\
  ((sum_of_squares l == 0)%Q <-> Forall (fun r => (r == 0)%Q) l).
Proof.
  induction l as [|r l [IH1 IH2]]; simpl.
  - split; [lra|]. split; [constructor|lra].
  - assert (Hsq : (0 <= r * r)%Q) by nra.
    split; [lra|]. rewrite Forall_cons, <- IH2. split.
    + intros H. assert (Hr : (r * r == 0)%Q) by lra.
      split; [|lra]. nra.
    + intros [Hr Hl]. rewrite Hr, Hl. lra.
Qed.

Lemma angle_standard_error_bound d :
  (0 <= compute_standard_error d)%Q /\
  ((compute_standard_error d == 0)%Q <->
   Forall (fun r => (r == 0)%Q) (d_reducedAngles d)).
Proof.
  rewrite compute_standard_error_squares. apply sum_of_squares_bound.
Qed.

End ImproperForms.

(** ** Further properties of the code *)
Module Extras.
Import Examples.
#[local] Open Scope list_scope.

(** X1: an [add_angle] that raises leaves the table of angles, the
    per-atom maps, the committed data and the committed standard error
    as they were: every assertion of the method comes before its first
    assignment. *)
Theorem failed_add_angle_changes_nothing
    (PI : Q) (s : Improper.t) (a : Improper.raw_angle) e s' :
  Improper.add_angle PI s a = Raise e s' ->
  Improper.numberOfAtoms s' = Improper.numberOfAtoms s /\
  Improper.anglesList s' = Improper.anglesList s /\
  Improper.angles s' = Improper.angles s /\
  Improper.data s' = Improper.data s /\
  Improper.standardError s' = Improper.standardError s.
Proof.
  destruct (Improper.numberOfAtoms s) as [N|] eqn:HN.
  - rewrite (ImproperFacts.add_angle_unfold PI s N a HN).
    destruct a as [[[[[zi zo] zx] zy] lower] upper].
    destruct (ImproperSpec.valid_angle N _).
    + unfold Improper.store_angle, check. intros H.
      repeat case_match; simplify_eq; simpl; by rewrite ?HN.
    + intros [= _ <-]. by rewrite HN.
  - destruct a as [[[[[zi zo] zx] zy] lower] upper]. unfold Improper.add_angle.
    rewrite HN. intros [= _ <-]. by rewrite HN.
Qed.

Lemma failed_add_angle_changes_nothing_witness :
  Improper.add_angle pi_approx improper0 (0, 1, 1, 3, -10 # 1, 10 # 1)%Z
    = Raise AssertionError improper0 /\
  Improper.anglesList improper0 = Improper.anglesList improper0.
Proof.
  assert (H : Improper.add_angle pi_approx improper0
                (0, 1, 1, 3, -10 # 1, 10 # 1)%Z
              = Raise AssertionError improper0) by (by vm_compute).
  split; [exact H|].
  exact (proj1 (proj2 (failed_add_angle_changes_nothing _ _ _ _ _ H))).
Defined.

(** X2: [set_angles] is all or nothing once the engine is known.  When
    it raises, the table and the maps are those of before the call;
    when it returns, they are a function of the argument alone,
    whatever was defined before. *)
Theorem set_angles_all_or_nothing
    (PI : Q) (s t : Improper.t) N (arg : Improper.angles_arg) :
  Improper.numberOfAtoms s = Some N ->
  Improper.numberOfAtoms t = Some N ->
  match Improper.set_angles PI s arg, Improper.set_angles PI t arg with
  | Ok s', Ok t' =>
      Improper.anglesList s' = Improper.anglesList t' /\
      Improper.angles s' = Improper.angles t'
  | Raise _ s', Raise _ t' =>
      (Improper.anglesList s' = Improper.anglesList s /\
       Improper.angles s' = Improper.angles s) /\
      (Improper.anglesList t' = Improper.anglesList t /\
       Improper.angles t' = Improper.angles t)
  | _, _ => False
  end.
Proof.
  intros Hs Ht.
  pose proof (ImproperTable.set_angles_depends_on_argument PI s t arg) as H.
  rewrite Hs, Ht in H. specialize (H eq_refl). 
  assert (Hne : Some N <> None) by done. specialize (H Hne).
  destruct (Improper.set_angles PI s arg) as [s'|e1 s'] eqn:H1,
           (Improper.set_angles PI t arg) as [t'|e2 t'] eqn:H2; try done.
  split; by eapply ImproperFacts.set_angles_failure_keeps_definitions.
Qed.

Lemma set_angles_all_or_nothing_witness :
  (Improper.numberOfAtoms (Improper.init (Some 5)) = Some 5 /\
   Improper.numberOfAtoms improper1 = Some 5) /\
  Improper.anglesList
    (state_of (Improper.set_angles pi_approx improper1
                 (Improper.ArgTuples [(4, 1, 2, 3, 0 # 1, 10 # 1)%Z])))
  = Improper.anglesList
      (state_of (Improper.set_angles pi_approx (Improper.init (Some 5))
                   (Improper.ArgTuples [(4, 1, 2, 3, 0 # 1, 10 # 1)%Z]))).
Proof.
  split; [split; reflexivity|].
  pose proof (set_angles_all_or_nothing pi_approx improper1
                (Improper.init (Some 5)) 5
                (Improper.ArgTuples [(4, 1, 2, 3, 0 # 1, 10 # 1)%Z])
                eq_refl eq_refl) as H.
  destruct (Improper.set_angles pi_approx improper1 _) as [s'|e1 s'] eqn:H1,
           (Improper.set_angles pi_approx (Improper.init (Some 5)) _)
             as [t'|e2 t'] eqn:H2; try done.
  apply H.
Defined.

(** X3: the state a successful [set_angles] leaves is well formed.  The
    six arrays of the table have one length; every row names four
    atoms of the system, no two the same, and limits in radians with
    -PI/2 <= lower < upper <= PI/2; and the per-atom maps have exactly
    the atoms of the system for keys. *)
Theorem set_angles_table_is_valid
    (PI : Q) (s s' : Improper.t) N (arg : Improper.angles_arg) :
  (0 < PI)%Q ->
  Improper.numberOfAtoms s = Some N ->
  Improper.set_angles PI s arg = Ok s' ->
  ImproperSpec.table_ok PI N (Improper.anglesList s') /\
  Improper.numberOfAtoms s' = Some N /\
  forall a, is_Some (Improper.angles s' !! a) <-> a < N.
Proof.
  intros HPI HN H. split.
  - by eapply ImproperKeys.set_angles_table_ok.
  - by eapply ImproperKeys.set_angles_keys.
Qed.

Lemma set_angles_table_is_valid_witness :
  ((0 < pi_approx)%Q /\
   Improper.set_angles pi_approx (Improper.init (Some 5))
     (Improper.ArgTuples [angle0123]) = Ok improper0) /\
  ~ is_Some (Improper.angles improper0 !! 5).
Proof.
  assert (H : Improper.set_angles pi_approx (Improper.init (Some 5))
                (Improper.ArgTuples [angle0123]) = Ok improper0)
    by (by vm_compute).
  split; [split; [reflexivity|exact H]|].
  destruct (set_angles_table_is_valid pi_approx (Improper.init (Some 5))
              improper0 5 (Improper.ArgTuples [angle0123]))
    as (_ & _ & Hk); [reflexivity|reflexivity|exact H|].
  intros Hs. apply Hk in Hs. lia.
Defined.

(** X4: [add_angle] never removes or renumbers a row.  A call that
    returns either appends one row and logs nothing, or logs one
    warning and keeps the number of rows; in both cases every row of
    before keeps its position, its improper atom and its three plane
    atoms, the latter up to their order. *)
Theorem add_angle_keeps_rows
    (PI : Q) (s s' : Improper.t) (a : Improper.raw_angle) :
  Improper.add_angle PI s a = Ok s' ->
  (Improper.n_angles s' = Improper.n_angles s /\
   Improper.warnings s' = S (Improper.warnings s) \/
   Improper.n_angles s' = S (Improper.n_angles s) /\
   Improper.warnings s' = Improper.warnings s) /\
  forall k i0 o0 x0 y0,
    Improper.improperIdxs (Improper.anglesList s) !! k = Some i0 ->
    Improper.oIdxs (Improper.anglesList s) !! k = Some o0 ->
    Improper.xIdxs (Improper.anglesList s) !! k = Some x0 ->
    Improper.yIdxs (Improper.anglesList s) !! k = Some y0 ->
    exists o1 x1 y1,
      Improper.improperIdxs (Improper.anglesList s') !! k = Some i0 /\
      Improper.oIdxs (Improper.anglesList s') !! k = Some o1 /\
      Improper.xIdxs (Improper.anglesList s') !! k = Some x1 /\
      Improper.yIdxs (Improper.anglesList s') !! k = Some y1 /\
      Improper.sorted3 o0 x0 y0 = Improper.sorted3 o1 x1 y1.
Proof. apply ImproperTable.add_angle_rows_kept. Qed.

Lemma add_angle_keeps_rows_witness :
  let s' := state_of (Improper.add_angle pi_approx improper0
                        (4, 1, 2, 3, 0 # 1, 10 # 1)%Z) in
  Improper.add_angle pi_approx improper0 (4, 1, 2, 3, 0 # 1, 10 # 1)%Z
    = Ok s' /\
  Improper.improperIdxs (Improper.anglesList s') !! 0 = Some 0.
Proof.
  intros s'.
  assert (H : Improper.add_angle pi_approx improper0
                (4, 1, 2, 3, 0 # 1, 10 # 1)%Z = Ok s') by (by vm_compute).
  split; [exact H|].
  destruct (add_angle_keeps_rows _ _ _ _ H) as [_ Hrows].
  destruct (Hrows 0 0 1 2 3 eq_refl eq_refl eq_refl eq_refl)
    as (o1 & x1 & y1 & Hi & _).
  exact Hi.
Defined.

(** X5: an angle given again for an improper atom that has this one
    angle only, with the plane atoms in one of the four orders the
    method tests for, is recognised: the second call logs a warning,
    adds no row, and the row holds the plane atoms in the new order
    and the new limits, in radians. *)
Theorem recognised_angle_is_overwritten
    (PI : Q) N (s : Improper.t) zi zo zx zy lower upper zo' zx' zy'
    lower' upper' :
  Improper.numberOfAtoms s = Some N ->
  ImproperSpec.membership_inverse (Improper.anglesList s) (Improper.angles s) ->
  ImproperSpec.entries_ok (Improper.anglesList s) (Improper.angles s) ->
  ImproperSpec.table_ok PI N (Improper.anglesList s) ->
  (forall k, Improper.improperIdxs (Improper.anglesList s) !! k
             <> Some (Z.to_nat zi)) ->
  ImproperSpec.valid_angle N (zi, zo, zx, zy, lower, upper) = true ->
  ImproperSpec.valid_angle N (zi, zo', zx', zy', lower', upper') = true ->
  ImproperSpec.recognised (Z.to_nat zo) (Z.to_nat zx) (Z.to_nat zy)
                           (Z.to_nat zo') (Z.to_nat zx') (Z.to_nat zy') ->
  exists s1 s2,
    Improper.add_angle PI s (zi, zo, zx, zy, lower, upper) = Ok s1 /\
    Improper.add_angle PI s1 (zi, zo', zx', zy', lower', upper') = Ok s2 /\
    Improper.n_angles s1 = S (Improper.n_angles s) /\
    Improper.n_angles s2 = Improper.n_angles s1 /\
    Improper.warnings s2 = S (Improper.warnings s) /\
    Improper.improperIdxs (Improper.anglesList s2) !! Improper.n_angles s
      = Some (Z.to_nat zi) /\
    Improper.oIdxs (Improper.anglesList s2) !! Improper.n_angles s
      = Some (Z.to_nat zo') /\
    Improper.xIdxs (Improper.anglesList s2) !! Improper.n_angles s
      = Some (Z.to_nat zx') /\
    Improper.yIdxs (Improper.anglesList s2) !! Improper.n_angles s
      = Some (Z.to_nat zy') /\
    Improper.lowerLimit (Improper.anglesList s2) !! Improper.n_angles s
      = Some (Improper.to_rad PI lower') /\
    Improper.upperLimit (Improper.anglesList s2) !! Improper.n_angles s
      = Some (Improper.to_rad PI upper').
Proof. apply ImproperForms.add_angle_redefines. Qed.

Lemma recognised_angle_is_overwritten_witness :
  (ImproperSpec.valid_angle 5 (0, 1, 2, 3, -10 # 1, 10 # 1)%Z = true /\
   ImproperSpec.valid_angle 5 (0, 3, 2, 1, -5 # 1, 5 # 1)%Z = true /\
   ImproperSpec.recognised 1 2 3 3 2 1) /\
  exists s2,
    Improper.add_angle pi_approx
      (state_of (Improper.add_angle pi_approx (Improper.init (Some 5))
                   (0, 1, 2, 3, -10 # 1, 10 # 1)%Z))
      (0, 3, 2, 1, -5 # 1, 5 # 1)%Z = Ok s2 /\
    Improper.n_angles s2 = 1.
Proof.
  assert (Hrec : ImproperSpec.recognised 1 2 3 3 2 1).
  { right. right. right. repeat split. }
  split; [split; [reflexivity|split; [reflexivity|exact Hrec]]|].
  destruct (recognised_angle_is_overwritten pi_approx 5
              (Improper.init (Some 5)) 0 1 2 3 (-10 # 1) (10 # 1) 3 2 1
              (-5 # 1) (5 # 1) eq_refl)
    as (s1 & s2 & H1 & H2 & Hn1 & Hn2 & _).
  - apply ImproperFacts.membership_inverse_empty.
  - apply ImproperCompile.entries_ok_empty.
  - apply ImproperTable.table_ok_empty.
  - intros k. simpl. by rewrite lookup_nil.
  - reflexivity.
  - reflexivity.
  - exact Hrec.
  - exists s2. rewrite H1. simpl. split; [exact H2|].
    rewrite Hn2, Hn1. reflexivity.
Defined.

(** X6: whatever calls of the protocol follow a [compute_data] that
    returned -- [compute_data], [compute_before_move],
    [compute_after_move], [accept_move], [reject_move],
    [accept_amputation], [reject_amputation], in any order and number,
    each one returning -- the committed standard error is
    [compute_standard_error] of the committed data. *)
Theorem standard_error_tracks_data
    kernel (s0 s s' : Improper.t) box :
  Improper.compute_data kernel s0 box = Ok s ->
  rtc (ImproperSpec.step kernel) s s' ->
  exists d, Improper.data s' = Some d /\
    Improper.standardError s' = Some (Improper.compute_standard_error d).
Proof. apply ImproperInvariant.steps_track_standard_error. Qed.

Lemma standard_error_tracks_data_witness :
  let s1 := state_of (Improper.compute_before_move angle_kernel improper1
                        [0] box5) in
  let s2 := fst (state_of (Improper.compute_after_move angle_kernel s1 [0] [0]
                             [(0, 0, 2)%Q] box5)) in
  let s3 := state_of (Improper.accept_move s2 [0] [0]) in
  Improper.compute_data angle_kernel improper0 box5 = Ok improper1 /\
  exists d, Improper.data s3 = Some d /\
    Improper.standardError s3 = Some (Improper.compute_standard_error d).
Proof.
  intros s1 s2 s3.
  assert (H : Improper.compute_data angle_kernel improper0 box5 = Ok improper1)
    by (by vm_compute).
  split; [exact H|].
  apply (standard_error_tracks_data angle_kernel improper0 improper1 s3 box5 H).
  eapply rtc_l.
  { apply (ImproperSpec.step_before_move angle_kernel improper1 [0] box5 s1).
    by vm_compute. }
  eapply rtc_l.
  { apply (ImproperSpec.step_after_move angle_kernel s1 [0] [0] [(0, 0, 2)%Q]
             box5 s2 box5).
    by vm_compute. }
  eapply rtc_l; [|apply rtc_refl].
  apply (ImproperSpec.step_accept_move angle_kernel s2 [0] [0] s3).
  by vm_compute.
Defined.

(** X7: the rows [compute_before_move] takes its snapshot of are, each
    once, the rows of the table that have one of the moved atoms among
    their four atoms and do not belong to a collected atom; the
    snapshot of after the move is dropped. *)
Theorem before_move_selects_rows_of_moved_atoms
    kernel (s s1 : Improper.t) real box :
  ImproperSpec.membership_inverse (Improper.anglesList s) (Improper.angles s) ->
  Improper.compute_before_move kernel s real box = Ok s1 ->
  exists b,
    Improper.activeAtomsDataBeforeMove s1 = Some b /\
    Improper.activeAtomsDataAfterMove s1 = None /\
    NoDup (Improper.b_anglesIndexes b) /\
    forall k, k ∈ Improper.b_anglesIndexes b <->
      (exists a, a ∈ real /\ ImproperSpec.involves (Improper.anglesList s) k a)
      /\ k ∉ Improper.randomData s.
Proof. apply ImproperLocality.compute_before_move_rows. Qed.

Lemma before_move_selects_rows_of_moved_atoms_witness :
  let s1 := state_of (Improper.compute_before_move angle_kernel improper1
                        [2; 3] box5) in
  Improper.compute_before_move angle_kernel improper1 [2; 3] box5 = Ok s1 /\
  exists b, Improper.activeAtomsDataBeforeMove s1 = Some b /\
            0 ∈ Improper.b_anglesIndexes b.
Proof.
  intros s1.
  assert (H : Improper.compute_before_move angle_kernel improper1 [2; 3] box5
              = Ok s1) by (by vm_compute).
  split; [exact H|].
  assert (Hinv : ImproperSpec.membership_inverse
                   (Improper.anglesList improper1) (Improper.angles improper1)).
  { destruct (ImproperFacts.set_angles_membership pi_approx
                (Improper.init (Some 5)) (Improper.ArgTuples [angle0123])
                improper0 5 eq_refl) as [Hm _]; [by vm_compute|exact Hm]. }
  destruct (before_move_selects_rows_of_moved_atoms angle_kernel improper1 s1
              [2; 3] box5 Hinv H) as (b & Hb & _ & _ & Hrows).
  exists b. split; [exact Hb|]. apply Hrows. split.
  - exists 2. split; [by left|].
    unfold ImproperSpec.involves. right. right. left. reflexivity.
  - assert (E : Improper.randomData improper1 = ∅) by reflexivity.
    rewrite E. apply not_elem_of_empty.
Defined.

(** X8: an accepted move is local.  After [compute_before_move],
    [compute_after_move] and [accept_move] the committed arrays have
    the length they had, and every row that has none of the moved
    atoms among its four atoms, or that belongs to a collected atom,
    holds the angle and the reduced angle it held. *)
Theorem accepted_move_is_local
    kernel (s s1 s2 s3 : Improper.t) real rel moved box box' d :
  ImproperSpec.membership_inverse (Improper.anglesList s) (Improper.angles s) ->
  Improper.data s = Some d ->
  Improper.compute_before_move kernel s real box = Ok s1 ->
  Improper.compute_after_move kernel s1 real rel moved box = Ok (s2, box') ->
  Improper.accept_move s2 real rel = Ok s3 ->
  exists d3, Improper.data s3 = Some d3 /\
    length (Improper.d_angles d3) = length (Improper.d_angles d) /\
    length (Improper.d_reducedAngles d3)
      = length (Improper.d_reducedAngles d) /\
    forall k,
      (forall a, a ∈ real ->
                 ~ ImproperSpec.involves (Improper.anglesList s) k a) \/
      k ∈ Improper.randomData s ->
      Improper.d_angles d3 !! k = Improper.d_angles d !! k /\
      Improper.d_reducedAngles d3 !! k = Improper.d_reducedAngles d !! k.
Proof. apply ImproperLocality.accept_cycle_outside. Qed.

Lemma accepted_move_is_local_witness :
  let s1 := state_of (Improper.compute_before_move angle_kernel improper1
                        [4] box5) in
  let s2 := fst (state_of (Improper.compute_after_move angle_kernel s1 [4] [4]
                             [(1, 1, 1)%Q] box5)) in
  let s3 := state_of (Improper.accept_move s2 [4] [4]) in
  (Improper.compute_before_move angle_kernel improper1 [4] box5 = Ok s1 /\
   Improper.compute_after_move angle_kernel s1 [4] [4] [(1, 1, 1)%Q] box5
     = Ok (s2, box5) /\
   Improper.accept_move s2 [4] [4] = Ok s3) /\
  exists d3, Improper.data s3 = Some d3 /\
             Improper.d_angles d3 !! 0 = Some (1 # 4)%Q.
Proof.
  intros s1 s2 s3.
  assert (H1 : Improper.compute_before_move angle_kernel improper1 [4] box5
               = Ok s1) by (by vm_compute).
  assert (H2 : Improper.compute_after_move angle_kernel s1 [4] [4]
                 [(1, 1, 1)%Q] box5 = Ok (s2, box5)) by (by vm_compute).
  assert (H3 : Improper.accept_move s2 [4] [4] = Ok s3) by (by vm_compute).
  split; [done|].
  assert (Hinv : ImproperSpec.membership_inverse
                   (Improper.anglesList improper1) (Improper.angles improper1)).
  { destruct (ImproperFacts.set_angles_membership pi_approx
                (Improper.init (Some 5)) (Improper.ArgTuples [angle0123])
                improper0 5 eq_refl) as [Hm _]; [by vm_compute|exact Hm]. }
  destruct (accepted_move_is_local angle_kernel improper1 s1 s2 s3 [4] [4]
              [(1, 1, 1)%Q] box5 box5
              (Improper.AData [(1 # 4)%Q] [(1 # 8)%Q]) Hinv eq_refl H1 H2 H3)
    as (d3 & Hd3 & _ & _ & Hout).
  exists d3. split; [exact Hd3|].
  destruct (Hout 0) as [Ha _]; [|exact Ha].
  left. intros a Ha Hinv'. apply list_elem_of_singleton in Ha. subst a.
  unfold ImproperSpec.involves in Hinv'. vm_compute in Hinv'.
  destruct Hinv' as [?|[?|[?|?]]]; discriminate.
Defined.

(** X9: a move of atoms none of whose rows is live -- atoms without an
    angle, or whose rows all belong to collected atoms -- never reaches
    the geometry kernel.  The three calls of the cycle return whatever
    the kernel would do, the tentative standard error is the committed
    one, the coordinates are those of before, and the accepted move
    leaves the committed data and standard error as they were. *)
Theorem move_without_live_rows_commits_nothing
    kernel (s : Improper.t) real rel moved box boxData box1 :
  (forall a, a ∈ real -> is_Some (Improper.angles s !! a)) ->
  ImproperSpec.membership_inverse (Improper.anglesList s) (Improper.angles s) ->
  (forall k a, a ∈ real -> ImproperSpec.involves (Improper.anglesList s) k a ->
               k ∈ Improper.randomData s) ->
  np_take box rel = Some boxData ->
  np_assign box rel moved = Some box1 ->
  exists s1 s2 s3,
    Improper.compute_before_move kernel s real box = Ok s1 /\
    Improper.compute_after_move kernel s1 real rel moved box = Ok (s2, box) /\
    Improper.accept_move s2 real rel = Ok s3 /\
    Improper.afterMoveStandardError s2 = Improper.standardError s /\
    Improper.data s3 = Improper.data s /\
    Improper.standardError s3 = Improper.standardError s /\
    Improper.activeAtomsDataBeforeMove s3 = None /\
    Improper.activeAtomsDataAfterMove s3 = None.
Proof. apply ImproperLocality.move_without_rows. Qed.

Lemma move_without_live_rows_commits_nothing_witness :
  (np_take box5 [4] = Some [(5, 5, 5)%Q] /\
   np_assign box5 [4] [(1, 1, 1)%Q]
     = Some [(0, 0, 1); (0, 0, 0); (1, 0, 0); (0, 1, 0); (1, 1, 1)]%Q) /\
  exists s1,
    Improper.compute_before_move (fun _ _ _ _ _ _ _ => None) improper1 [4] box5
      = Ok s1.
Proof.
  split; [split; reflexivity|].
  assert (Hinv : ImproperSpec.membership_inverse
                   (Improper.anglesList improper1) (Improper.angles improper1)).
  { destruct (ImproperFacts.set_angles_membership pi_approx
                (Improper.init (Some 5)) (Improper.ArgTuples [angle0123])
                improper0 5 eq_refl) as [Hm _]; [by vm_compute|exact Hm]. }
  destruct (move_without_live_rows_commits_nothing
              (fun _ _ _ _ _ _ _ => None) improper1 [4] [4] [(1, 1, 1)%Q] box5
              [(5, 5, 5)%Q]
              [(0, 0, 1); (0, 0, 0); (1, 0, 0); (0, 1, 0); (1, 1, 1)]%Q)
    as (s1 & _ & _ & H1 & _).
  - intros a Ha. apply list_elem_of_singleton in Ha. subst a.
    vm_compute. by eexists.
  - exact Hinv.
  - intros k a Ha Hk. apply list_elem_of_singleton in Ha. subst a.
    unfold ImproperSpec.involves in Hk.
    destruct k as [|k]; vm_compute in Hk;
      destruct Hk as [?|[?|[?|?]]]; discriminate.
  - reflexivity.
  - reflexivity.
  - exists s1. exact H1.
Defined.

(** X10: how [compute_before_move] can fail once angles are set.  In
    any state reached from a successful [set_angles] by calls of the
    protocol, the call raises KeyError exactly when one of the moved
    indexes is not below the number of atoms, and otherwise raises only
    if the geometry kernel does: no row it looks up is out of range.
    A call that raises leaves the constraint as it was. *)
Theorem before_move_fails_only_on_bad_index_or_kernel
    (PI : Q) kernel (s s1 s2 : Improper.t) N arg real box :
  (0 < PI)%Q ->
  Improper.numberOfAtoms s = Some N ->
  Improper.set_angles PI s arg = Ok s1 ->
  rtc (ImproperSpec.step kernel) s1 s2 ->
  match Improper.compute_before_move kernel s2 real box with
  | Ok _ => forall a, a ∈ real -> a < N
  | Raise e s' =>
      s' = s2 /\
      (e = KeyError /\ (exists a, a ∈ real /\ N <= a) \/
       e = KernelError /\ (forall a, a ∈ real -> a < N))
  end.
Proof.
  intros HPI HN Hset Hsteps.
  destruct (ImproperFacts.set_angles_membership _ _ _ _ _ HN Hset)
    as [Hinv _].
  pose proof (ImproperKeys.set_angles_table_ok _ _ _ _ _ HPI HN Hset) as Htab.
  destruct (ImproperKeys.set_angles_keys _ _ _ _ _ HN Hset) as [_ Hkeys].
  destruct (ImproperKeys.steps_keep_definitions kernel _ _ Hsteps)
    as (_ & El & Em).
  rewrite <- El in Htab, Hinv. rewrite <- Em in Hinv, Hkeys.
  by apply (ImproperKeys.compute_before_move_errors kernel PI N).
Qed.

Lemma before_move_fails_only_on_bad_index_or_kernel_witness :
  ((0 < pi_approx)%Q /\
   Improper.set_angles pi_approx (Improper.init (Some 5))
     (Improper.ArgTuples [angle0123]) = Ok improper0 /\
   Improper.compute_data angle_kernel improper0 box5 = Ok improper1) /\
  Improper.compute_before_move angle_kernel improper1 [7] box5
    = Raise KeyError improper1.
Proof.
  assert (H0 : Improper.set_angles pi_approx (Improper.init (Some 5))
                 (Improper.ArgTuples [angle0123]) = Ok improper0)
    by (by vm_compute).
  assert (H1 : Improper.compute_data angle_kernel improper0 box5 = Ok improper1)
    by (by vm_compute).
  split; [split; [reflexivity|split; [exact H0|exact H1]]|].
  assert (Hsteps : rtc (ImproperSpec.step angle_kernel) improper0 improper1).
  { eapply rtc_l; [|apply rtc_refl].
    by apply (ImproperSpec.step_compute_data angle_kernel improper0 box5). }
  pose proof (before_move_fails_only_on_bad_index_or_kernel pi_approx
                angle_kernel (Improper.init (Some 5)) improper0 improper1 5
                (Improper.ArgTuples [angle0123]) [7] box5 eq_refl eq_refl H0
                Hsteps) as H.
  destruct (Improper.compute_before_move angle_kernel improper1 [7] box5)
    as [s'|e s'].
  - specialize (H 7). exfalso. assert (7 < 5) by (apply H; by left). lia.
  - destruct H as [-> [[-> _]|[_ H]]]; [reflexivity|].
    exfalso. assert (7 < 5) by (apply H; by left). lia.
Defined.

(** X11: the two formats of [set_angles] agree.  With the engine known,
    six vectors that are the columns of a list of items give the result
    the list itself gives; and six vectors one of which is shorter than
    the first are refused. *)
Theorem six_vectors_are_the_columns
    (PI : Q) (s : Improper.t) N :
  Improper.numberOfAtoms s = Some N ->
  (forall l : list Improper.raw_angle,
     Improper.set_angles PI s
       (Improper.ArgVectors ((fun a => a.1.1.1.1.1) <$> l)
                            ((fun a => a.1.1.1.1.2) <$> l)
                            ((fun a => a.1.1.1.2) <$> l)
                            ((fun a => a.1.1.2) <$> l)
                            ((fun a => a.1.2) <$> l)
                            ((fun a => a.2) <$> l))
     = Improper.set_angles PI s (Improper.ArgTuples l)) /\
  (forall v0 v1 v2 v3 v4 v5,
     length v1 < length v0 \/ length v2 < length v0 \/
     length v3 < length v0 \/ length v4 < length v0 \/
     length v5 < length v0 ->
     is_ok (Improper.set_angles PI s (Improper.ArgVectors v0 v1 v2 v3 v4 v5))
       = false).
Proof.
  intros HN. split.
  - intros l. eapply ImproperForms.set_angles_rows; [exact HN|].
    apply ImproperForms.rows_of_vectors.
  - intros v0 v1 v2 v3 v4 v5 Hshort.
    by eapply ImproperForms.set_angles_short_vectors.
Qed.

Lemma six_vectors_are_the_columns_witness :
  Improper.numberOfAtoms (Improper.init (Some 5)) = Some 5 /\
  Improper.set_angles pi_approx (Improper.init (Some 5))
    (Improper.ArgVectors [0%Z] [1%Z] [2%Z] [3%Z] [(-10 # 1)%Q] [(10 # 1)%Q])
  = Ok improper0 /\
  is_ok (Improper.set_angles pi_approx (Improper.init (Some 5))
           (Improper.ArgVectors [0%Z] [1%Z] [2%Z] [3%Z] [(-10 # 1)%Q] []))
  = false.
Proof.
  split; [reflexivity|].
  destruct (six_vectors_are_the_columns pi_approx (Improper.init (Some 5)) 5
              eq_refl) as [Hcols Hshort].
  split.
  - transitivity (Improper.set_angles pi_approx (Improper.init (Some 5))
                    (Improper.ArgTuples [angle0123]));
      [exact (Hcols [angle0123])|by vm_compute].
  - apply Hshort. simpl. lia.
Defined.

(** X12: the standard error of the angle constraint is never negative,
    and it is zero exactly when every reduced angle is zero. *)
Theorem angle_standard_error_is_nonnegative (d : Improper.adata) :
  (0 <= Improper.compute_standard_error d)%Q /\
  ((Improper.compute_standard_error d == 0)%Q <->
   Forall (fun r => (r == 0)%Q) (Improper.d_reducedAngles d)).
Proof. apply ImproperForms.angle_standard_error_bound. Qed.

(** X13: what a definition compiles to.  After a successful
    [set_coordination_number_definition] the list is stored as given,
    [coordNumData] is one zero for each item, and item [k] has at
    position [k] of the tables: for its core and for its shell the
    indexes, in increasing order and each once, of exactly the atoms
    of the named element; the number of core atoms; its shell limits
    and its bounds as given; and its weight, 1 when it has none. *)
Theorem definition_compiles_to_tables
    (s s' : Coordination.t) e l :
  Coordination.engine s = Some e ->
  Coordination.set_coordination_number_definition s (Some l) = Ok s' ->
  Coordination.coordNumDef s' = Some l /\
  Coordination.coordNumData s' = replicate (length l) 0%Q /\
  length (Coordination.coresIndexes (Coordination.defs s')) = length l /\
  forall k d, l !! k = Some d ->
    exists c sh cores shells,
      Coordination.coreDef d = Coordination.SelString c /\
      Coordination.shellDef d = Coordination.SelString sh /\
      c ∈ Coordination.elements e /\ sh ∈ Coordination.elements e /\
      Coordination.coresIndexes (Coordination.defs s') !! k = Some cores /\
      Coordination.shellsIndexes (Coordination.defs s') !! k = Some shells /\
      StronglySorted lt cores /\ StronglySorted lt shells /\
      (forall a, a ∈ cores <-> Coordination.allElements e !! a = Some c) /\
      (forall a, a ∈ shells <-> Coordination.allElements e !! a = Some sh) /\
      Coordination.numberOfCores (Coordination.defs s') !! k
        = Some (inject_Z (Z.of_nat (length cores))) /\
      Coordination.lowerShells (Coordination.defs s') !! k
        = Some (Coordination.lowerShell d) /\
      Coordination.upperShells (Coordination.defs s') !! k
        = Some (Coordination.upperShell d) /\
      Coordination.minAtoms (Coordination.defs s') !! k
        = Some (Coordination.minCN d) /\
      Coordination.maxAtoms (Coordination.defs s') !! k
        = Some (Coordination.maxCN d) /\
      Coordination.weights (Coordination.defs s') !! k
        = Some (CoordinationSpec.weight_of d).
Proof. apply CoordinationTables.set_definition_rows. Qed.

Lemma definition_compiles_to_tables_witness :
  Coordination.set_coordination_number_definition
    (Coordination.init (Some engine4)) (Some [shell_AB]) = Ok coordination0 /\
  Coordination.coordNumData coordination0 = [0%Q].
Proof.
  assert (H : Coordination.set_coordination_number_definition
                (Coordination.init (Some engine4)) (Some [shell_AB])
              = Ok coordination0) by (by vm_compute).
  split; [exact H|].
  destruct (definition_compiles_to_tables (Coordination.init (Some engine4))
              coordination0 engine4 [shell_AB] eq_refl H) as (_ & Hd & _).
  exact Hd.
Defined.

(** X14: with an engine, the tables a definition compiles to do not
    depend on what was defined before: two constraints on one engine
    given one argument end with the same tables, the same
    [coordNumData] and the same stored definition, or raise the same
    exception.  A call that returns leaves the committed and the
    tentative standard error and the two snapshots of a move as they
    were: it does not reset the constraint. *)
Theorem definition_replaces_tables
    (s t : Coordination.t) e arg :
  Coordination.engine s = Some e ->
  Coordination.engine t = Some e ->
  match Coordination.set_coordination_number_definition s arg,
        Coordination.set_coordination_number_definition t arg with
  | Ok s', Ok t' =>
      Coordination.defs s' = Coordination.defs t' /\
      Coordination.coordNumData s' = Coordination.coordNumData t' /\
      Coordination.coordNumDef s' = Coordination.coordNumDef t' /\
      CoordinationSpec.same_runtime s s' /\
      CoordinationSpec.same_runtime t t'
  | Raise e1 _, Raise e2 _ => e1 = e2
  | _, _ => False
  end.
Proof.
  intros Hs Ht.
  pose proof (CoordinationTables.set_definition_independent s t e arg Hs Ht)
    as H.
  destruct (Coordination.set_coordination_number_definition s arg)
    as [s'|e1 s'] eqn:H1,
    (Coordination.set_coordination_number_definition t arg)
    as [t'|e2 t'] eqn:H2; try done.
  destruct H as (? & ? & ?).
  apply (CoordinationTables.set_definition_Ok _ _ _ _ Hs) in H1
    as (? & _ & _ & _ & _ & _ & _ & _ & _ & _ & _ & _ & Hr1).
  apply (CoordinationTables.set_definition_Ok _ _ _ _ Ht) in H2
    as (? & _ & _ & _ & _ & _ & _ & _ & _ & _ & _ & _ & Hr2).
  done.
Qed.

Lemma definition_replaces_tables_witness :
  (Coordination.engine (Coordination.init (Some engine4)) = Some engine4 /\
   Coordination.engine coordination0 = Some engine4) /\
  Coordination.defs
    (state_of (Coordination.set_coordination_number_definition coordination0
                 (Some [shell_AB; shell_AB])))
  = Coordination.defs
      (state_of (Coordination.set_coordination_number_definition
                   (Coordination.init (Some engine4))
                   (Some [shell_AB; shell_AB]))).
Proof.
  split; [split; reflexivity|].
  pose proof (definition_replaces_tables coordination0
                (Coordination.init (Some engine4)) engine4
                (Some [shell_AB; shell_AB]) eq_refl eq_refl) as H.
  destruct (Coordination.set_coordination_number_definition coordination0 _)
    as [s'|e1 s'] eqn:H1,
    (Coordination.set_coordination_number_definition
       (Coordination.init (Some engine4)) _) as [t'|e2 t'] eqn:H2; try done.
  apply H.
Defined.

(** X15: a [set_coordination_number_definition] that raises with an
    engine never keeps the definition of before.  Whatever the
    constraint held, the stored definition is None afterwards and the
    tables hold at most the items compiled before the failure; the
    standard errors and the snapshots are as they were. *)
Theorem failed_definition_drops_the_old_one
    (s s' : Coordination.t) e arg err :
  Coordination.engine s = Some e ->
  Coordination.set_coordination_number_definition s arg = Raise err s' ->
  Coordination.coordNumDef s' = None /\
  CoordinationSpec.same_runtime s s' /\
  length (Coordination.lowerShells (Coordination.defs s'))
    <= length (default [] arg).
Proof. apply CoordinationTables.set_definition_Raise. Qed.

Lemma failed_definition_drops_the_old_one_witness :
  let r := Coordination.set_coordination_number_definition coordination0
             (Some [shell_AB; shell_AB_swapped]) in
  (Coordination.engine coordination0 = Some engine4 /\
   r = Raise AssertionError (state_of r)) /\
  Coordination.coordNumDef coordination0 = Some [shell_AB] /\
  Coordination.coordNumDef (state_of r) = None.
Proof.
  intros r.
  assert (H : r = Raise AssertionError (state_of r)) by (by vm_compute).
  split; [split; [reflexivity|exact H]|]. split; [reflexivity|].
  exact (proj1 (failed_definition_drops_the_old_one coordination0 (state_of r)
                  engine4 (Some [shell_AB; shell_AB_swapped]) AssertionError
                  eq_refl H)).
Defined.

(** X16: on a compiled definition whose core sets are not empty,
    [compute_standard_error] returns for every array that has one
    value for each item; what it returns is never negative, and is
    zero exactly when every mean coordination number -- the value
    divided by the number of core atoms -- is within the bounds of its
    item. *)
Theorem coordination_standard_error_is_nonnegative
    (s s' : Coordination.t) e l (data : list Q) :
  Coordination.engine s = Some e ->
  Coordination.set_coordination_number_definition s (Some l) = Ok s' ->
  (forall k n, Coordination.numberOfCores (Coordination.defs s') !! k = Some n ->
     ~ (n == 0)%Q) ->
  length data = length l ->
  exists se coordNum,
    np_zip Qdiv data (Coordination.numberOfCores (Coordination.defs s'))
      = Some coordNum /\
    Coordination.compute_standard_error s' data = inr se /\
    (0 <= se)%Q /\
    ((se == 0)%Q <->
     CoordinationSpec.within_bounds (Coordination.defs s') 0 coordNum).
Proof.
  intros He H _ Hlen.
  destruct (CoordinationBound.set_definition_aligned _ _ _ _ He H)
    as (Hal & _ & Hw).
  rewrite <- Hlen in Hal.
  by apply CoordinationBound.compute_standard_error_bound.
Qed.

Lemma coordination_standard_error_is_nonnegative_witness :
  (Coordination.set_coordination_number_definition
     (Coordination.init (Some engine4)) (Some [shell_AB]) = Ok coordination0 /\
   Coordination.numberOfCores (Coordination.defs coordination0) = [1%Q]) /\
  exists se, Coordination.compute_standard_error coordination0 [3%Q] = inr se /\
             (0 <= se)%Q.
Proof.
  assert (H : Coordination.set_coordination_number_definition
                (Coordination.init (Some engine4)) (Some [shell_AB])
              = Ok coordination0) by (by vm_compute).
  split; [split; [exact H|reflexivity]|].
  destruct (coordination_standard_error_is_nonnegative
              (Coordination.init (Some engine4)) coordination0 engine4
              [shell_AB] [3%Q] eq_refl H)
    as (se & cn & _ & Hse & Hpos & _).
  - intros k n Hk. destruct k as [|k]; vm_compute in Hk; [|discriminate].
    injection Hk as <-. intros Hz. vm_compute in Hz. discriminate.
  - reflexivity.
  - exists se. split; [exact Hse|exact Hpos].
Defined.

(** X17: an accepted move commits a consistent state.  After
    [compute_before_move], [compute_after_move] and [accept_move] the
    committed standard error is [compute_standard_error] of the
    committed [coordNumData] -- the value [compute_after_move] had
    stored as tentative --, the tentative standard error and the two
    snapshots are None, and the tables and the length of
    [coordNumData] are those of before. *)
Theorem accepted_move_commits_its_standard_error
    multi (s s1 s2 s3 : Coordination.t) indexes moved box box2 :
  Coordination.compute_before_move multi s indexes box = Ok s1 ->
  Coordination.compute_after_move multi s1 indexes moved box = Ok (s2, box2) ->
  Coordination.accept_move s2 indexes = Ok s3 ->
  exists se,
    Coordination.defs s3 = Coordination.defs s /\
    Coordination.compute_standard_error s3 (Coordination.coordNumData s3)
      = inr se /\
    Coordination.standardError s3 = Some se /\
    Coordination.afterMoveStandardError s2 = Some se /\
    Coordination.afterMoveStandardError s3 = None /\
    Coordination.activeAtomsDataBeforeMove s3 = None /\
    Coordination.activeAtomsDataAfterMove s3 = None /\
    length (Coordination.coordNumData s3)
      = length (Coordination.coordNumData s).
Proof. apply CoordinationBound.accepted_move_committed. Qed.

Lemma accepted_move_commits_its_standard_error_witness :
  let s1 := state_of (Coordination.compute_before_move multi_zero coordination0
                        [3] box5) in
  let s2 := fst (state_of (Coordination.compute_after_move multi_zero s1 [3]
                             [(0, 0, 6 # 5)%Q] box5)) in
  let s3 := state_of (Coordination.accept_move s2 [3]) in
  (Coordination.compute_before_move multi_zero coordination0 [3] box5 = Ok s1 /\
   Coordination.compute_after_move multi_zero s1 [3] [(0, 0, 6 # 5)%Q] box5
     = Ok (s2, box5) /\
   Coordination.accept_move s2 [3] = Ok s3) /\
  is_Some (Coordination.standardError s3).
Proof.
  intros s1 s2 s3.
  assert (H1 : Coordination.compute_before_move multi_zero coordination0 [3]
                 box5 = Ok s1) by (by vm_compute).
  assert (H2 : Coordination.compute_after_move multi_zero s1 [3]
                 [(0, 0, 6 # 5)%Q] box5 = Ok (s2, box5)) by (by vm_compute).
  assert (H3 : Coordination.accept_move s2 [3] = Ok s3) by (by vm_compute).
  split; [done|].
  destruct (accepted_move_commits_its_standard_error multi_zero coordination0
              s1 s2 s3 [3] [(0, 0, 6 # 5)%Q] box5 box5 H1 H2 H3)
    as (se & _ & _ & Hse & _).
  exists se. exact Hse.
Defined.

(** X18: with at least one entry in [coordNumData],
    [compute_after_move] of the coordination constraint without a
    [compute_before_move] before it never returns, and where it
    stops depends on what [__coordNumData] is.  While it is the list
    that [__initialize_constraint_data] made -- no definition has
    compiled since -- the call raises AttributeError right after
    writing the trial coordinates: they stay in the store, and the
    constraint is as it was.  Once it is an array, the kernel runs on
    the trial coordinates; if it raises, they stay in the store; if it
    returns, the old coordinates are written back, the snapshot of
    after the move is stored and the call raises TypeError, the
    committed data and the two standard errors untouched.  With
    indexes or coordinates that cannot be written, nothing is
    changed. *)
Theorem after_move_needs_before_move
    multi (s : Coordination.t) indexes moved box :
  Coordination.coordNumData s <> [] ->
  Coordination.activeAtomsDataBeforeMove s = None ->
  match Coordination.compute_after_move multi s indexes moved box with
  | Ok _ => False
  | Raise e (s', box') =>
      match np_assign box indexes moved with
      | Some box1 =>
          if Coordination.coordNumDataIsArray s then
            match multi indexes box1 (Coordination.defs s)
                    (Coordination.zeros_like (Coordination.coordNumData s))
            with
            | Some after =>
                e = TypeError /\ box' = box /\
                Coordination.activeAtomsDataAfterMove s' = Some after /\
                Coordination.coordNumData s' = Coordination.coordNumData s /\
                Coordination.standardError s' = Coordination.standardError s /\
                Coordination.afterMoveStandardError s'
                  = Coordination.afterMoveStandardError s
            | None => e = KernelError /\ box' = box1 /\ s' = s
            end
          else e = AttributeError /\ box' = box1 /\ s' = s
      | None => box' = box /\ s' = s
      end
  end.
Proof. intros _. apply CoordinationBound.after_move_needs_before. Qed.

Lemma after_move_needs_before_move_witness :
  let half := state_of (Coordination.set_coordination_number_definition
                          coordination0 (Some [shell_AB; shell_AB_swapped])) in
  ((Coordination.coordNumData coordination0 <> [] /\
    Coordination.activeAtomsDataBeforeMove coordination0 = None) /\
   (Coordination.coordNumData half <> [] /\
    Coordination.activeAtomsDataBeforeMove half = None)) /\
  is_ok (Coordination.compute_after_move multi_zero coordination0 [3]
           [(0, 0, 6 # 5)%Q] box5) = false /\
  Coordination.compute_after_move multi_zero half [3] [(0, 0, 6 # 5)%Q] box5
  = Raise AttributeError
      (half, [(0, 0, 1); (0, 0, 0); (1, 0, 0); (0, 0, 6 # 5); (5, 5, 5)]%Q).
Proof.
  intros half.
  assert (Hne : Coordination.coordNumData coordination0 <> []).
  { intros Hnil. vm_compute in Hnil. discriminate. }
  assert (Hne' : Coordination.coordNumData half <> []).
  { intros Hnil. vm_compute in Hnil. discriminate. }
  split; [split; split; [exact Hne|reflexivity|exact Hne'|reflexivity]|].
  split.
  - pose proof (after_move_needs_before_move multi_zero coordination0 [3]
                  [(0, 0, 6 # 5)%Q] box5 Hne eq_refl) as H.
    by destruct (Coordination.compute_after_move multi_zero coordination0 [3]
                   [(0, 0, 6 # 5)%Q] box5).
  - pose proof (after_move_needs_before_move multi_zero half [3]
                  [(0, 0, 6 # 5)%Q] box5 Hne' eq_refl) as H.
    destruct (Coordination.compute_after_move multi_zero half [3]
                [(0, 0, 6 # 5)%Q] box5) as [?|e [s' box']]; [done|].
    assert (Ha : np_assign box5 [3] [(0, 0, 6 # 5)%Q]
                 = Some [(0, 0, 1); (0, 0, 0); (1, 0, 0); (0, 0, 6 # 5);
                         (5, 5, 5)]%Q) by reflexivity.
    rewrite Ha in H.
    assert (Hl : Coordination.coordNumDataIsArray half = false)
      by reflexivity.
    rewrite Hl in H. destruct H as (-> & -> & ->). reflexivity.
Defined.



(** X20: a definition given before the engine is kept as it is, with
    no check and no table touched; the checks are made when [listen]
    hears of the engine.  That call gives the tables, the data and the
    stored definition that the setter gives on a constraint with this
    engine, or raises the exception the setter raises, and then the
    stored definition is gone. *)
Theorem definition_without_engine_is_deferred
    (s s2 t : Coordination.t) e arg msg :
  msg = "engine set"%string \/ msg = "update molecules indexes"%string ->
  Coordination.engine s = None ->
  Coordination.engine s2 = Some e ->
  Coordination.coordNumDef s2 = arg ->
  Coordination.engine t = Some e ->
  (exists s1,
     Coordination.set_coordination_number_definition s arg = Ok s1 /\
     Coordination.coordNumDef s1 = arg /\
     Coordination.defs s1 = Coordination.defs s /\
     Coordination.coordNumData s1 = Coordination.coordNumData s) /\
  match Coordination.listen s2 msg,
        Coordination.set_coordination_number_definition t arg with
  | Ok s', Ok t' =>
      Coordination.defs s' = Coordination.defs t' /\
      Coordination.coordNumData s' = Coordination.coordNumData t' /\
      Coordination.coordNumDef s' = Coordination.coordNumDef t' /\
      CoordinationSpec.same_runtime s2 s'
  | Raise e1 s', Raise e2 _ => e1 = e2 /\ Coordination.coordNumDef s' = None
  | _, _ => False
  end.
Proof.
  intros Hmsg Hs Hs2 Harg Ht. split.
  - unfold Coordination.set_coordination_number_definition. rewrite Hs.
    eexists. split; [reflexivity|]. done.
  - by apply (CoordinationBound.listen_recompiles s2 t e arg msg).
Qed.

Lemma definition_without_engine_is_deferred_witness :
  let s1 := state_of (Coordination.set_coordination_number_definition
                        (Coordination.init None) (Some [shell_AB_swapped])) in
  let s2 := Coordination.Make (Some engine4) (Coordination.coordNumDef s1)
              (Coordination.defs s1) (Coordination.coordNumData s1)
              None None None None None false in
  (Coordination.engine (Coordination.init None) = None /\
   Coordination.engine s2 = Some engine4) /\
  is_ok (Coordination.set_coordination_number_definition
           (Coordination.init None) (Some [shell_AB_swapped])) = true /\
  is_ok (Coordination.listen s2 "engine set") = false.
Proof.
  intros s1 s2. split; [split; reflexivity|].
  destruct (definition_without_engine_is_deferred (Coordination.init None) s2
              (Coordination.init (Some engine4)) engine4
              (Some [shell_AB_swapped]) "engine set"
              (or_introl eq_refl) eq_refl eq_refl eq_refl eq_refl)
    as [(s1' & H1 & _) H2].
  split; [by rewrite H1|].
  destruct (Coordination.listen s2 "engine set") as [s'|e1 s']; [|done].
  exfalso.
  destruct (Coordination.set_coordination_number_definition
              (Coordination.init (Some engine4)) (Some [shell_AB_swapped]))
    as [t'|e2 t'] eqn:Ht; [|done].
  vm_compute in Ht. discriminate.
Defined.

(** X21: right after a definition of [n] items has compiled,
    [compute_data] returns whenever the full kernel returns [n]
    counts.  It commits the halves of these counts, drops the two
    snapshots and commits [compute_standard_error] of the array it
    committed; the tables are untouched. *)
Theorem compute_data_commits_half_counts
    all (s0 s : Coordination.t) e l box raw :
  Coordination.engine s0 = Some e ->
  Coordination.set_coordination_number_definition s0 (Some l) = Ok s ->
  all box (Coordination.defs s) (Coordination.coordNumData s) = Some raw ->
  length raw = length l ->
  exists s1 se,
    Coordination.compute_data all s box = Ok s1 /\
    Coordination.coordNumData s1 = (fun c => c / 2)%Q <$> raw /\
    Coordination.defs s1 = Coordination.defs s /\
    Coordination.compute_standard_error s1 (Coordination.coordNumData s1)
      = inr se /\
    Coordination.standardError s1 = Some se /\
    Coordination.activeAtomsDataBeforeMove s1 = None /\
    Coordination.activeAtomsDataAfterMove s1 = None.
Proof.
  intros He Hset Hk Hlen.
  destruct (CoordinationBound.set_definition_aligned _ _ _ _ He Hset)
    as (Hal & _ & _).
  rewrite <- Hlen in Hal.
  pose proof (CoordinationBound.set_definition_array _ _ _ _ He Hset) as Harr.
  pose proof (CoordinationBound.compute_data_total all s box raw Harr Hal Hk)
    as Hok.
  destruct (Coordination.compute_data all s box) as [s1|] eqn:H1; [|done].
  exists s1.
  destruct (CoordinationBound.compute_data_Ok all s box s1 H1)
    as (raw' & se & Hk' & Hrest).
  exists se. split; [done|].
  rewrite Hk in Hk'. injection Hk' as <-. exact Hrest.
Qed.

Lemma compute_data_commits_half_counts_witness :
  let all := fun (_ : list vec3) (_ : Coordination.tables) (out : list Q) =>
               Some ((fun _ => 2%Q) <$> out) in
  (Coordination.set_coordination_number_definition
     (Coordination.init (Some engine4)) (Some [shell_AB]) = Ok coordination0 /\
   all box5 (Coordination.defs coordination0)
       (Coordination.coordNumData coordination0) = Some [2%Q]) /\
  exists s1, Coordination.compute_data all coordination0 box5 = Ok s1 /\
             Coordination.coordNumData s1 = [(2 / 2)%Q].
Proof.
  intros all.
  assert (H : Coordination.set_coordination_number_definition
                (Coordination.init (Some engine4)) (Some [shell_AB])
              = Ok coordination0) by (by vm_compute).
  split; [split; [exact H|reflexivity]|].
  destruct (compute_data_commits_half_counts all
              (Coordination.init (Some engine4)) coordination0 engine4
              [shell_AB] box5 [2%Q] eq_refl H eq_refl eq_refl)
    as (s1 & se & H1 & Hd & _).
  exists s1. split; [exact H1|exact Hd].
Defined.

End Extras.

